(** * CString: a shallow embedding of [include/cstr.h]

    The header implements a growable, lock-guarded narrow string
    ([CString]) and two tokenizers.  The C functions are embedded as
    computations over an explicit memory: heap blocks of character cells,
    a store of [CString] structs addressed by pointer, the allocator's
    decisions, and the trace of critical-section calls and struct
    accesses. *)

From Stdlib Require Import ZArith Ascii String List Lia.
From stdpp Require Import base option list gmap strings.

Local Open Scope Z_scope.

(** ** Machine integers: [size_t] *)

(** The width of [size_t] in a 64-bit build. *)
Definition SIZE_BITS : Z := 64.
Definition SIZE_MOD : Z := 2 ^ SIZE_BITS.

(** Unsigned wrap-around of [size_t] arithmetic. *)
Definition wrap (z : Z) : Z := z mod SIZE_MOD.

(** [static const size_t invalid = (size_t)-1;] *)
Definition invalid : Z := wrap (-1).

(** ** Memory *)

(** A character cell is either initialised or indeterminate. *)
Abbreviation cell := (option ascii).

(** Pointers: [None] is [NULL]. *)
Definition ptr : Type := option positive.
Definition NULL : ptr := None.

(** [typedef struct { char* data; size_t length; size_t capacity;
    CRITICAL_SECTION cs; } CString;]  The critical section is identified
    with the address of the struct that embeds it. *)
Record CString : Type := mkCString {
  data : ptr;
  length : Z;
  capacity : Z
}.

(** What a run leaves in the trace: the calls on the critical section of
    a struct ([InitializeCriticalSection], [EnterCriticalSection],
    [LeaveCriticalSection], [DeleteCriticalSection]) and, between them,
    every read and every write of a field of a struct. *)
Inductive event : Type :=
  | Init (o : positive)
  | Enter (o : positive)
  | Leave (o : positive)
  | Delete (o : positive)
  | Read (o : positive)
  | Write (o : positive).

Record mem : Type := mkMem {
  blocks : gmap positive (list cell);
  objects : gmap positive CString;
  plan : list bool;
  trace : list event
}.

(** Ways in which a run leaves defined behaviour; [OutOfFuel] is the
    bound put on a loop running out. *)
Inductive fault : Type :=
  | NullDeref
  | InvalidPointer
  | OutOfBounds
  | Indeterminate
  | Overlap
  | OutOfFuel.

Inductive outcome (A : Type) : Type :=
  | Ok (a : A) (m : mem)
  | Fault (f : fault).
Arguments Ok {A} a m.
Arguments Fault {A} f.

Definition M (A : Type) : Type := mem → outcome A.

#[global] Instance M_ret : MRet M := λ A a m, Ok a m.
#[global] Instance M_bind : MBind M := λ A B f c m,
  match c m with
  | Ok a m' => f a m'
  | Fault e => Fault e
  end.

Definition raise {A} (e : fault) : M A := λ _, Fault e.

Definition set_blocks (f : gmap positive (list cell) → gmap positive (list cell)) (m : mem) : mem :=
  mkMem (f (blocks m)) (objects m) (plan m) (trace m).
Definition set_objects (f : gmap positive CString → gmap positive CString) (m : mem) : mem :=
  mkMem (blocks m) (f (objects m)) (plan m) (trace m).
Definition set_plan (pl : list bool) (m : mem) : mem :=
  mkMem (blocks m) (objects m) pl (trace m).
Definition emit (e : event) : M unit := λ m,
  Ok () (mkMem (blocks m) (objects m) (plan m) (trace m ++ [e])).

(** *** The allocator

    Each request that can fail consumes one decision of [plan]; an
    exhausted plan grants every request.  Fresh storage is indeterminate. *)

Definition next_decision (m : mem) : bool * list bool :=
  match plan m with
  | d :: pl => (d, pl)
  | [] => (true, [])
  end.

Definition malloc (n : Z) : M ptr := λ m,
  let '(d, pl) := next_decision m in
  if d then
    let b := fresh (dom (blocks m)) in
    Ok (Some b) (set_plan pl (set_blocks <[b := replicate (Z.to_nat n) None]> m))
  else Ok NULL (set_plan pl m).

Definition free (p : ptr) : M unit := λ m,
  match p with
  | None => Ok () m
  | Some b =>
      match blocks m !! b with
      | Some _ => Ok () (set_blocks (delete b) m)
      | None => Fault InvalidPointer
      end
  end.

(** [realloc]: a null pointer allocates; size zero releases the block and
    returns [NULL] (the Microsoft C runtime's behaviour); otherwise the
    common prefix is kept and grown storage is indeterminate.  A granted
    request consumes a second decision of [plan]: whether the block moves
    to fresh storage or is resized where it is.  On failure the old block
    stays as it is. *)
Definition realloc (p : ptr) (n : Z) : M ptr :=
  match p with
  | None => malloc n
  | Some b => λ m,
      match blocks m !! b with
      | None => Fault InvalidPointer
      | Some old =>
          if n =? 0 then Ok NULL (set_blocks (delete b) m)
          else
            let '(d, pl) := next_decision m in
            if d then
              let new := take (Z.to_nat n) (old ++ replicate (Z.to_nat n) None) in
              let '(moves, pl') := next_decision (set_plan pl m) in
              if moves then
                let b' := fresh (dom (blocks m)) in
                Ok (Some b') (set_plan pl' (set_blocks (λ h, <[b' := new]> (delete b h)) m))
              else Ok (Some b) (set_plan pl' (set_blocks <[b := new]> m))
            else Ok NULL (set_plan pl m)
      end
  end.

(** *** Cell access *)

Definition block_of (p : ptr) : M (list cell) := λ m,
  match p with
  | None => Fault NullDeref
  | Some b =>
      match blocks m !! b with
      | Some blk => Ok blk m
      | None => Fault InvalidPointer
      end
  end.

Definition put_block (p : ptr) (blk : list cell) : M unit := λ m,
  match p with
  | None => Fault NullDeref
  | Some b => Ok () (set_blocks <[b := blk]> m)
  end.

(** [p[i]] as an rvalue. *)
Definition load (p : ptr) (i : Z) : M ascii :=
  blk ← block_of p;
  if (0 <=? i) && (i <? Z.of_nat (List.length blk)) then
    match blk !! Z.to_nat i with
    | Some (Some c) => mret c
    | _ => raise Indeterminate
    end
  else raise OutOfBounds.

(** [p[i] = c;] *)
Definition store (p : ptr) (i : Z) (c : ascii) : M unit :=
  blk ← block_of p;
  if (0 <=? i) && (i <? Z.of_nat (List.length blk)) then
    put_block p (<[Z.to_nat i := Some c]> blk)
  else raise OutOfBounds.

(** The [n] cells at offset [i] of a block, when they lie inside it. *)
Definition slice (blk : list cell) (i n : Z) : option (list cell) :=
  if (0 <=? i) && (0 <=? n) && (i + n <=? Z.of_nat (List.length blk))
  then Some (take (Z.to_nat n) (drop (Z.to_nat i) blk))
  else None.

(** Overwrite the cells at offset [i] of a block with [src]. *)
Definition splice (blk : list cell) (i : Z) (src : list cell) : option (list cell) :=
  if (0 <=? i) && (i + Z.of_nat (List.length src) <=? Z.of_nat (List.length blk))
  then Some (take (Z.to_nat i) blk ++ src ++ drop (Z.to_nat i + List.length src) blk)
  else None.

(** [memmove(dst + di, src + si, n)]: the source cells are read before any
    is written, so the regions may overlap. *)
Definition memmove (dst : ptr) (di : Z) (src : ptr) (si : Z) (n : Z) : M unit :=
  sblk ← block_of src;
  match slice sblk si n with
  | None => raise OutOfBounds
  | Some cs =>
      dblk ← block_of dst;
      match splice dblk di cs with
      | None => raise OutOfBounds
      | Some blk' => put_block dst blk'
      end
  end.

(** [memcpy(dst + di, src, n)] from caller-supplied bytes. *)
Definition memcpy_bytes (dst : ptr) (di : Z) (src : list ascii) (n : Z) : M unit :=
  if (0 <=? n) && (n <=? Z.of_nat (List.length src)) then
    dblk ← block_of dst;
    match splice dblk di (Some <$> take (Z.to_nat n) src) with
    | None => raise OutOfBounds
    | Some blk' => put_block dst blk'
    end
  else raise OutOfBounds.

(** [SecureZeroMemory(p, n)] *)
Definition SecureZeroMemory (p : ptr) (n : Z) : M unit :=
  blk ← block_of p;
  if (0 <=? n) && (n <=? Z.of_nat (List.length blk)) then
    put_block p (replicate (Z.to_nat n) (Some zero) ++ drop (Z.to_nat n) blk)
  else raise OutOfBounds.

(** [memcpy(dst + di, src + si, n)] between heap blocks: as [memmove], but
    overlapping regions are undefined. *)
Definition memcpy (dst : ptr) (di : Z) (src : ptr) (si : Z) (n : Z) : M unit :=
  if bool_decide (dst = src) && (di <? si + n) && (si <? di + n)
  then raise Overlap
  else memmove dst di src si n.

(** *** Struct access: [obj->field] and [obj->field = v]

    Each access is entered in the trace. *)

Definition note (e : event) (m : mem) : mem :=
  mkMem (blocks m) (objects m) (plan m) (trace m ++ [e]).

Definition deref (o : positive) : M CString := λ m,
  match objects m !! o with
  | Some s => Ok s (note (Read o) m)
  | None => Fault InvalidPointer
  end.

Definition assign (o : positive) (f : CString → CString) : M unit := λ m,
  match objects m !! o with
  | Some s => Ok () (set_objects <[o := f s]> (note (Write o) m))
  | None => Fault InvalidPointer
  end.

Definition with_data (v : ptr) (s : CString) : CString := mkCString v (length s) (capacity s).
Definition with_length (v : Z) (s : CString) : CString := mkCString (data s) v (capacity s).
Definition with_capacity (v : Z) (s : CString) : CString := mkCString (data s) (length s) v.

Definition get_data (o : positive) : M ptr := s ← deref o; mret (data s).
Definition get_length (o : positive) : M Z := s ← deref o; mret (length s).
Definition get_capacity (o : positive) : M Z := s ← deref o; mret (capacity s).

(** ** C library functions on narrow strings *)

(** Distance to the first zero cell. *)
Fixpoint strlen_cells (blk : list cell) : fault + Z :=
  match blk with
  | [] => inl OutOfBounds
  | None :: _ => inl Indeterminate
  | Some c :: rest =>
      if bool_decide (c = zero) then inr 0
      else match strlen_cells rest with
           | inr n => inr (n + 1)
           | inl e => inl e
           end
  end.

Definition strlen (p : ptr) : M Z :=
  blk ← block_of p;
  match strlen_cells blk with
  | inr n => mret n
  | inl e => raise e
  end.

(** [strchr(s, c)] on the bytes stored at [s]: the index of the first
    occurrence of [c], the terminator counting as part of the string;
    [Some None] is the null result, [None] a read past the storage. *)
Fixpoint strchr_bytes (s : list ascii) (c : ascii) : option (option nat) :=
  match s with
  | [] => None
  | x :: rest =>
      if bool_decide (x = c) then Some (Some O)
      else if bool_decide (x = zero) then Some None
      else match strchr_bytes rest c with
           | Some (Some i) => Some (Some (S i))
           | r => r
           end
  end.

Definition strchr (s : list ascii) (c : ascii) : M (option nat) :=
  match strchr_bytes s c with
  | Some r => mret r
  | None => raise OutOfBounds
  end.

(** [isspace] in the "C" locale: space and the controls 9..13. *)
Definition isspace (c : ascii) : bool :=
  let n := Z.of_N (N_of_ascii c) in
  (n =? 32) || ((9 <=? n) && (n <=? 13)).

(** A string literal as stored: its characters and the terminator. *)
Definition literal (s : string) : list ascii := list_ascii_of_string s ++ [zero].

(** ** cstr.h *)

(** [char* cstr_strdup(const char* str)] *)
Definition cstr_strdup (str : ptr) : M ptr :=
  n ← strlen str;
  let len := wrap (n + 1) in
  buf ← malloc len;
  match buf with
  | None => mret buf
  | Some _ => memcpy buf 0 str 0 len;; mret buf
  end.

(** [void cstr_lock(CString* obj)], [void cstr_unlock(CString* obj)] *)
Definition cstr_lock (obj : ptr) : M unit :=
  match obj with
  | Some o => emit (Enter o)
  | None => mret ()
  end.

Definition cstr_unlock (obj : ptr) : M unit :=
  match obj with
  | Some o => emit (Leave o)
  | None => mret ()
  end.

(** [bool cstr_create(CString* obj)] *)
Definition cstr_create (obj : ptr) : M bool :=
  match obj with
  | None => mret false
  | Some o =>
      d ← malloc 1;
      match d with
      | None => mret false
      | Some _ =>
          store d 0 zero;;
          assign o (with_data d);;
          assign o (with_length 0);;
          assign o (with_capacity 1);;
          emit (Init o);;
          mret true
      end
  end.

(** [bool cstr_create_from_cstr(CString* obj, CString* obj2)] *)
Definition cstr_create_from_cstr (obj obj2 : ptr) : M bool :=
  match obj, obj2 with
  | Some o, Some o2 =>
      d2 ← get_data o2;
      d ← cstr_strdup d2;
      assign o (with_data d);;
      len2 ← get_length o2;
      assign o (with_length len2);;
      cap2 ← get_capacity o2;
      assign o (with_capacity cap2);;
      emit (Init o);;
      mret true
  | _, _ => mret false
  end.

(** [bool cstr_create_from_chars(CString* obj, const char* data)] *)
Definition cstr_create_from_chars (obj : ptr) (str : ptr) : M bool :=
  match obj, str with
  | Some o, Some _ =>
      d ← cstr_strdup str;
      assign o (with_data d);;
      n ← strlen str;
      assign o (with_length n);;
      len ← get_length o;
      assign o (with_capacity (wrap (len + 1)));;
      emit (Init o);;
      mret true
  | _, _ => mret false
  end.

(** [bool cstr_create_from_buffer(CString* obj, uint8_t* buffer, size_t size)];
    [buffer] is given by the bytes readable at the caller's pointer. *)
Definition cstr_create_from_buffer (obj : ptr) (buffer : option (list ascii)) (size : Z) : M bool :=
  match obj, buffer with
  | Some o, Some bytes =>
      d ← malloc (wrap (size + 1));
      match d with
      | None => mret false
      | Some _ =>
          memcpy_bytes d 0 bytes size;;
          store d size zero;;
          assign o (with_data d);;
          assign o (with_length size);;
          assign o (with_capacity (wrap (size + 1)));;
          emit (Init o);;
          mret true
      end
  | _, _ => mret false
  end.

(** [bool cstr_destroy(CString* obj)] *)
Definition cstr_destroy (obj : ptr) : M bool :=
  match obj with
  | None => mret false
  | Some o =>
      d ← get_data o;
      match d with
      | Some _ =>
          cap ← get_capacity o;
          SecureZeroMemory d cap;;
          free d;;
          assign o (with_data NULL)
      | None => mret ()
      end;;
      emit (Delete o);;
      assign o (with_length 0);;
      assign o (with_capacity 0);;
      mret true
  end.

(** [char* cstr_data(CString* obj)] *)
Definition cstr_data (obj : ptr) : M ptr :=
  match obj with
  | None => mret NULL
  | Some o =>
      cstr_lock obj;;
      out ← get_data o;
      cstr_unlock obj;;
      mret out
  end.

(** [size_t cstr_length(CString* obj)] *)
Definition cstr_length (obj : ptr) : M Z :=
  match obj with
  | None => mret invalid
  | Some o =>
      cstr_lock obj;;
      out ← get_length o;
      cstr_unlock obj;;
      mret out
  end.

(** [size_t cstr_capacity(CString* obj)] *)
Definition cstr_capacity (obj : ptr) : M Z :=
  match obj with
  | None => mret invalid
  | Some o =>
      cstr_lock obj;;
      out ← get_capacity o;
      cstr_unlock obj;;
      mret out
  end.

(** [char cstr_get(CString* obj, size_t index)] *)
Definition cstr_get (obj : ptr) (index : Z) : M ascii :=
  match obj with
  | None => mret zero
  | Some o =>
      cstr_lock obj;;
      d ← get_data o;
      out ← load d index;
      cstr_unlock obj;;
      mret out
  end.

(** [char cstr_front(CString* obj)] *)
Definition cstr_front (obj : ptr) : M ascii :=
  match obj with
  | None => mret zero
  | Some o =>
      cstr_lock obj;;
      out ← cstr_get obj 0;
      cstr_unlock obj;;
      mret out
  end.

(** [char cstr_back(CString* obj)] *)
Definition cstr_back (obj : ptr) : M ascii :=
  match obj with
  | None => mret zero
  | Some o =>
      cstr_lock obj;;
      len ← get_length o;
      out ← cstr_get obj (wrap (len - 1));
      cstr_unlock obj;;
      mret out
  end.

(** [bool cstr_resize(CString* obj, size_t size)] *)
Definition cstr_resize (obj : ptr) (size : Z) : M bool :=
  match obj with
  | None => mret false
  | Some o =>
      cstr_lock obj;;
      d ← get_data o;
      new_data ← realloc d size;
      match new_data with
      | None => cstr_unlock obj;; mret false
      | Some _ =>
          assign o (with_data new_data);;
          assign o (with_capacity size);;
          cstr_unlock obj;;
          mret true
      end
  end.

(** [bool cstr_shrink_to_fit(CString* obj)] *)
Definition cstr_shrink_to_fit (obj : ptr) : M bool :=
  match obj with
  | None => mret false
  | Some o =>
      cstr_lock obj;;
      len ← get_length o;
      ok ← cstr_resize obj (wrap (len + 1));
      if negb ok then cstr_unlock obj;; mret false
      else cstr_unlock obj;; mret true
  end.

(** [bool cstr_clear(CString* obj)] *)
Definition cstr_clear (obj : ptr) : M bool :=
  match obj with
  | None => mret false
  | Some o =>
      cstr_lock obj;;
      d ← get_data o;
      cap ← get_capacity o;
      SecureZeroMemory d cap;;
      assign o (with_length 0);;
      cstr_unlock obj;;
      mret true
  end.

(** [bool cstr_push_back_char(CString* obj, char chr)] *)
Definition cstr_push_back_char (obj : ptr) (chr : ascii) : M bool :=
  match obj with
  | None => mret false
  | Some o =>
      cstr_lock obj;;
      len ← get_length o;
      cap ← get_capacity o;
      ok ← (if wrap (len + 1) >=? cap then cstr_resize obj (wrap (len + 2)) else mret true);
      if negb ok then cstr_unlock obj;; mret false
      else
        d ← get_data o;
        len ← get_length o;
        store d len chr;;
        store d (wrap (len + 1)) zero;;
        assign o (with_length (wrap (len + 1)));;
        cstr_unlock obj;;
        mret true
  end.

(** [bool cstr_pop_back(CString* obj)] *)
Definition cstr_pop_back (obj : ptr) : M bool :=
  match obj with
  | None => mret false
  | Some o =>
      cstr_lock obj;;
      len ← get_length o;
      if len =? 0 then cstr_unlock obj;; mret false
      else
        d ← get_data o;
        store d (wrap (len - 1)) zero;;
        assign o (with_length (wrap (len - 1)));;
        cstr_unlock obj;;
        mret true
  end.

(** [bool cstr_append_cstr(CString* obj, CString* obj2)] *)
Definition cstr_append_cstr (obj obj2 : ptr) : M bool :=
  match obj, obj2 with
  | Some o, Some o2 =>
      cstr_lock obj;;
      len ← get_length o;
      len2 ← get_length o2;
      let new_length := wrap (len + len2) in
      let required_capacity := wrap (new_length + 1) in
      cap ← get_capacity o;
      ok ← (if required_capacity >? cap then cstr_resize obj required_capacity else mret true);
      if negb ok then cstr_unlock obj;; mret false
      else
        d ← get_data o;
        len ← get_length o;
        d2 ← get_data o2;
        len2 ← get_length o2;
        memcpy d len d2 0 len2;;
        store d new_length zero;;
        assign o (with_length new_length);;
        cstr_unlock obj;;
        mret true
  | _, _ => mret false
  end.

(** [bool cstr_append_chars(CString* obj, const char* data)] *)
Definition cstr_append_chars (obj : ptr) (str : ptr) : M bool :=
  match obj, str with
  | Some o, Some _ =>
      cstr_lock obj;;
      data_len ← strlen str;
      len ← get_length o;
      let new_length := wrap (len + data_len) in
      let required_capacity := wrap (new_length + 1) in
      cap ← get_capacity o;
      ok ← (if required_capacity >? cap then cstr_resize obj required_capacity else mret true);
      if negb ok then cstr_unlock obj;; mret false
      else
        d ← get_data o;
        len ← get_length o;
        memcpy d len str 0 data_len;;
        store d new_length zero;;
        assign o (with_length new_length);;
        cstr_unlock obj;;
        mret true
  | _, _ => mret false
  end.

(** [bool cstr_erase(CString* obj, size_t index, size_t size)] *)
Definition cstr_erase (obj : ptr) (index size : Z) : M bool :=
  match obj with
  | None => mret false
  | Some o =>
      cstr_lock obj;;
      len ← get_length o;
      if (index >=? len) || (size =? 0) then cstr_unlock obj;; mret false
      else
        let size := if size >? wrap (len - index) then wrap (len - index) else size in
        let new_length := wrap (len - size) in
        let move_size := wrap (wrap (len - wrap (index + size)) + 1) in
        d ← get_data o;
        memmove d index d (wrap (index + size)) move_size;;
        assign o (with_length new_length);;
        cstr_unlock obj;;
        mret true
  end.

(** [bool cstr_insert(CString* obj, size_t index, char chr)] *)
Definition cstr_insert (obj : ptr) (index : Z) (chr : ascii) : M bool :=
  match obj with
  | None => mret false
  | Some o =>
      cstr_lock obj;;
      len ← get_length o;
      if index >? len then cstr_unlock obj;; mret false
      else
        let new_length := wrap (len + 1) in
        let required_capacity := wrap (new_length + 1) in
        cap ← get_capacity o;
        ok ← (if required_capacity >? cap then cstr_resize obj required_capacity else mret true);
        if negb ok then cstr_unlock obj;; mret false
        else
          d ← get_data o;
          len ← get_length o;
          memmove d (wrap (index + 1)) d index (wrap (wrap (len - index) + 1));;
          store d index chr;;
          assign o (with_length new_length);;
          cstr_unlock obj;;
          mret true
  end.

(** [bool cstr_swap(CString* obj, CString* obj2)] *)
Definition cstr_swap (obj obj2 : ptr) : M bool :=
  match obj, obj2 with
  | Some o, Some o2 =>
      cstr_lock obj;;
      cstr_lock obj2;;
      temp_data ← get_data o;
      d2 ← get_data o2;
      assign o (with_data d2);;
      assign o2 (with_data temp_data);;
      temp_length ← get_length o;
      len2 ← get_length o2;
      assign o (with_length len2);;
      assign o2 (with_length temp_length);;
      temp_capacity ← get_capacity o;
      cap2 ← get_capacity o2;
      assign o (with_capacity cap2);;
      assign o2 (with_capacity temp_capacity);;
      cstr_unlock obj2;;
      cstr_unlock obj;;
      mret true
  | _, _ => mret false
  end.

(** The two scanning loops of [cstr_trim]:
    [while (start <= end && isspace(data[start])) start++;] and
    [while (end >= start && isspace(data[end])) end--;] *)
Fixpoint trim_front (fuel : nat) (d : ptr) (start end_ : Z) : M Z :=
  match fuel with
  | O => raise OutOfFuel
  | S fuel' =>
      if start <=? end_ then
        c ← load d start;
        if isspace c then trim_front fuel' d (wrap (start + 1)) end_
        else mret start
      else mret start
  end.

Fixpoint trim_back (fuel : nat) (d : ptr) (start end_ : Z) : M Z :=
  match fuel with
  | O => raise OutOfFuel
  | S fuel' =>
      if end_ >=? start then
        c ← load d end_;
        if isspace c then trim_back fuel' d start (wrap (end_ - 1))
        else mret end_
      else mret end_
  end.

(** [bool cstr_trim(CString* obj)] *)
Definition cstr_trim (obj : ptr) : M bool :=
  match obj with
  | None => mret false
  | Some o =>
      cstr_lock obj;;
      len ← get_length o;
      if len =? 0 then cstr_unlock obj;; mret false
      else
        d ← get_data o;
        let fuel := S (Z.to_nat len) in
        start ← trim_front fuel d 0 (wrap (len - 1));
        end_ ← trim_back fuel d start (wrap (len - 1));
        let new_length := if start <=? end_ then wrap (wrap (end_ - start) + 1) else 0 in
        (if start >? 0 then memmove d 0 d start new_length else mret ());;
        store d new_length zero;;
        assign o (with_length new_length);;
        cstr_unlock obj;;
        mret true
  end.

(** *** Tokenizers *)

(** [while (pos < len && strchr(delimiters, obj->data[pos]) != NULL) pos++;] *)
Fixpoint skip_delimiters (fuel : nat) (d : ptr) (delimiters : list ascii) (len pos : Z) : M Z :=
  match fuel with
  | O => raise OutOfFuel
  | S fuel' =>
      if pos <? len then
        c ← load d pos;
        r ← strchr delimiters c;
        match r with
        | Some _ => skip_delimiters fuel' d delimiters len (wrap (pos + 1))
        | None => mret pos
        end
      else mret pos
  end.

(** [while (pos < len && strchr(delimiters, obj->data[pos]) == NULL) pos++;] *)
Fixpoint skip_token (fuel : nat) (d : ptr) (delimiters : list ascii) (len pos : Z) : M Z :=
  match fuel with
  | O => raise OutOfFuel
  | S fuel' =>
      if pos <? len then
        c ← load d pos;
        r ← strchr delimiters c;
        match r with
        | None => skip_token fuel' d delimiters len (wrap (pos + 1))
        | Some _ => mret pos
        end
      else mret pos
  end.

(** [bool cstr_tokenize(CString* obj, CString* token, const char* delimiters,
    size_t* start_pos)].  The cursor cell is passed by value ([None] for a
    null pointer); the result pairs the returned flag with the value
    written to the cursor, [None] when the call does not write it. *)
Definition cstr_tokenize (obj token : ptr) (delimiters : option (list ascii))
    (start_pos : option Z) : M (bool * option Z) :=
  match obj, delimiters, start_pos with
  | Some o, Some delims, Some start =>
      len0 ← get_length o;
      if start >=? len0 then mret (false, None)
      else
        cstr_lock obj;;
        len ← get_length o;
        d ← get_data o;
        let fuel := S (Z.to_nat len) in
        pos ← skip_delimiters fuel d delims len start;
        if pos >=? len then cstr_unlock obj;; mret (false, Some pos)
        else
          let token_start := pos in
          pos ← skip_token fuel d delims len pos;
          let token_end := pos in
          let token_len := wrap (token_end - token_start) in
          temp ← malloc (wrap (token_len + 1));
          match temp with
          | None => cstr_unlock obj;; mret (false, None)
          | Some _ =>
              memcpy temp 0 d token_start token_len;;
              store temp token_len zero;;
              ok ← cstr_create_from_chars token temp;
              if negb ok then free temp;; cstr_unlock obj;; mret (false, None)
              else
                free temp;;
                let start_pos := if token_end <? len then wrap (token_end + 1) else len in
                cstr_unlock obj;;
                mret (true, Some start_pos)
          end
  | _, _, _ => mret (false, None)
  end.

(** Scanner state of [cstr_tokenize_ex]. *)
Record scan : Type := mkScan {
  in_zone : bool;
  zone_end : ascii;
  escape : bool;
  token_end : Z
}.

Inductive flow : Type :=
  | Continue (s : scan)
  | Break (s : scan).

(** [for (int z = 0; zone_pairs[z] != '\0'; z += 2) { if (zone_pairs[z + 1]
    == '\0') break; if (c == zone_pairs[z]) { ...; zone_end = zone_pairs[z
    + 1]; break; } }]: the closer paired with [c], if [c] opens a zone. *)
Fixpoint zone_open (zone_pairs : list ascii) (c : ascii) : option (option ascii) :=
  match zone_pairs with
  | [] => None
  | a :: rest =>
      if bool_decide (a = zero) then Some None
      else match rest with
           | [] => None
           | b :: rest' =>
               if bool_decide (b = zero) then Some None
               else if bool_decide (c = a) then Some (Some b)
               else zone_open rest' c
           end
  end.

(** The body of the scanning loop for the character [c] at [pos]; [None]
    when a [strchr] or the zone table reads past its storage. *)
Definition scan_char (delimiters : list ascii) (zone_pairs escape_chars : option (list ascii))
    (pos : Z) (c : ascii) (s : scan) : option flow :=
  if escape s then
    Some (Continue (mkScan (in_zone s) (zone_end s) false (token_end s)))
  else if in_zone s then
    if bool_decide (c = zone_end s)
    then Some (Continue (mkScan false zero (escape s) (token_end s)))
    else Some (Continue s)
  else
    r ← strchr_bytes delimiters c;
    match r with
    | Some _ => Some (Break (mkScan (in_zone s) (zone_end s) (escape s) pos))
    | None =>
        s1 ← match zone_pairs with
             | Some zp =>
                 z ← zone_open zp c;
                 match z with
                 | Some e => Some (mkScan true e (escape s) (token_end s))
                 | None => Some s
                 end
             | None => Some s
             end;
        s2 ← match escape_chars with
             | Some ec =>
                 r ← strchr_bytes ec c;
                 match r with
                 | Some _ => Some (mkScan (in_zone s1) (zone_end s1) true (token_end s1))
                 | None => Some s1
                 end
             | None => Some s1
             end;
        Some (Continue s2)
    end.

(** [for (; pos < len; pos++) { char c = obj->data[pos]; ... }] *)
Fixpoint scan_loop (fuel : nat) (d : ptr) (delimiters : list ascii)
    (zone_pairs escape_chars : option (list ascii)) (len pos : Z) (s : scan) : M (Z * scan) :=
  match fuel with
  | O => raise OutOfFuel
  | S fuel' =>
      if pos <? len then
        c ← load d pos;
        match scan_char delimiters zone_pairs escape_chars pos c s with
        | None => raise OutOfBounds
        | Some (Continue s') =>
            scan_loop fuel' d delimiters zone_pairs escape_chars len (wrap (pos + 1)) s'
        | Some (Break s') => mret (pos, s')
        end
      else mret (pos, s)
  end.

(** [bool cstr_tokenize_ex(CString* obj, CString* token, const char*
    delimiters, const char* zone_pairs, const char* escape_chars, size_t*
    start_pos)] *)
Definition cstr_tokenize_ex (obj token : ptr) (delimiters zone_pairs escape_chars : option (list ascii))
    (start_pos : option Z) : M (bool * option Z) :=
  match obj, delimiters, start_pos with
  | Some o, Some delims, Some start =>
      len0 ← get_length o;
      if start >=? len0 then mret (false, None)
      else
        cstr_lock obj;;
        len ← get_length o;
        d ← get_data o;
        let fuel := S (Z.to_nat len) in
        pos ← skip_delimiters fuel d delims len start;
        if pos >=? len then cstr_unlock obj;; mret (false, Some pos)
        else
          let token_start := pos in
          '(pos, s) ← scan_loop fuel d delims zone_pairs escape_chars len pos
                        (mkScan false zero false invalid);
          let token_end := if pos =? len then len else token_end s in
          let token_len := wrap (token_end - token_start) in
          temp ← malloc (wrap (token_len + 1));
          match temp with
          | None => cstr_unlock obj;; mret (false, None)
          | Some _ =>
              memcpy temp 0 d token_start token_len;;
              store temp token_len zero;;
              ok ← cstr_create_from_chars token temp;
              if negb ok then free temp;; cstr_unlock obj;; mret (false, None)
              else
                free temp;;
                let start_pos := if token_end <? len then wrap (token_end + 1) else len in
                cstr_unlock obj;;
                mret (true, Some start_pos)
          end
  | _, _, _ => mret (false, None)
  end.

(** *** Checked access, emptiness *)

(** [boolean cstr_at(CString* obj, size_t index, char* chr)]; [chr] points
    to the caller's character cell. *)
Definition cstr_at (obj : ptr) (index : Z) (chr : ptr) : M bool :=
  match obj with
  | None => mret false
  | Some o =>
      cstr_lock obj;;
      len ← get_length o;
      if index >=? len then cstr_unlock obj;; mret false
      else
        d ← get_data o;
        c ← load d index;
        store chr 0 c;;
        cstr_unlock obj;;
        mret true
  end.

(** [bool cstr_empty(CString* obj)] *)
Definition cstr_empty (obj : ptr) : M bool :=
  match obj with
  | None => mret false
  | Some o =>
      cstr_lock obj;;
      d ← get_data o;
      len ← get_length o;
      let out := bool_decide (d = NULL) || (len =? 0) in
      cstr_unlock obj;;
      mret out
  end.

(** *** Substring *)

(** [bool cstr_substring(CString* obj, CString* dest, size_t start, size_t length)] *)
Definition cstr_substring (obj dest : ptr) (start count : Z) : M bool :=
  match obj, dest with
  | Some o, Some _ =>
      cstr_lock obj;;
      len ← get_length o;
      if start >=? len then cstr_unlock obj;; mret false
      else
        let max_length := wrap (len - start) in
        let count := if count >? max_length then max_length else count in
        buffer ← malloc (wrap (count + 1));
        match buffer with
        | None => cstr_unlock obj;; mret false
        | Some _ =>
            d ← get_data o;
            memcpy buffer 0 d start count;;
            store buffer count zero;;
            ok ← cstr_create_from_chars dest buffer;
            if negb ok then free buffer;; cstr_unlock obj;; mret false
            else free buffer;; cstr_unlock obj;; mret true
        end
  | _, _ => mret false
  end.

(** *** Search *)

(** The C string stored in a block: the bytes before the first zero. *)
Fixpoint cstring_cells (blk : list (option ascii)) : fault + list ascii :=
  match blk with
  | [] => inl OutOfBounds
  | None :: _ => inl Indeterminate
  | Some c :: rest =>
      if bool_decide (c = zero) then inr []
      else match cstring_cells rest with
           | inr s => inr (c :: s)
           | inl e => inl e
           end
  end.

Fixpoint starts_with (needle hay : list ascii) : bool :=
  match needle, hay with
  | [], _ => true
  | c :: needle', d :: hay' => bool_decide (c = d) && starts_with needle' hay'
  | _ :: _, [] => false
  end.

(** [strstr] on the characters of two strings: the offset of the first
    occurrence of [needle] in [hay], offset 0 for an empty [needle]. *)
Fixpoint strstr_bytes (hay needle : list ascii) : option nat :=
  if starts_with needle hay then Some O
  else match hay with
       | [] => None
       | _ :: hay' => S <$> strstr_bytes hay' needle
       end.

(** [strstr(hay, needle)]: [Some i] is the pointer [hay + i], [None] the
    null pointer. *)
Definition strstr (hay needle : ptr) : M (option Z) :=
  hblk ← block_of hay;
  nblk ← block_of needle;
  match cstring_cells hblk, cstring_cells nblk with
  | inr h, inr n => mret (Z.of_nat <$> strstr_bytes h n)
  | inl e, _ => raise e
  | _, inl e => raise e
  end.

(** [size_t cstr_find_cstr(CString* obj, CString* obj2)] *)
Definition cstr_find_cstr (obj obj2 : ptr) : M Z :=
  match obj, obj2 with
  | Some o, Some o2 =>
      cstr_lock obj;;
      cstr_lock obj2;;
      d ← get_data o;
      d2 ← get_data o2;
      pos ← strstr d d2;
      let out := match pos with Some i => wrap i | None => invalid end in
      cstr_unlock obj2;;
      cstr_unlock obj;;
      mret out
  | _, _ => mret invalid
  end.

(** [size_t cstr_find_chars(CString* obj, const char* data)] *)
Definition cstr_find_chars (obj : ptr) (str : ptr) : M Z :=
  match obj, str with
  | Some o, Some _ =>
      cstr_lock obj;;
      d ← get_data o;
      pos ← strstr d str;
      let out := match pos with Some i => wrap i | None => invalid end in
      cstr_unlock obj;;
      mret out
  | _, _ => mret invalid
  end.

(** *** Case conversion *)

(** [toupper] and [tolower] in the "C" locale. *)
Definition toupper (c : ascii) : ascii :=
  let n := Z.of_N (N_of_ascii c) in
  if (97 <=? n) && (n <=? 122) then ascii_of_N (Z.to_N (n - 32)) else c.

Definition tolower (c : ascii) : ascii :=
  let n := Z.of_N (N_of_ascii c) in
  if (65 <=? n) && (n <=? 90) then ascii_of_N (Z.to_N (n + 32)) else c.

(** [for (size_t i = 0; i < obj->length; ++i) obj->data[i] =
    (char)f((unsigned char)obj->data[i]);], the loop of [cstr_to_upper]
    and [cstr_to_lower]. *)
Fixpoint convert_loop (fuel : nat) (f : ascii → ascii) (o : positive) (i : Z) : M unit :=
  match fuel with
  | O => raise OutOfFuel
  | S fuel' =>
      len ← get_length o;
      if i <? len then
        d ← get_data o;
        c ← load d i;
        store d i (f c);;
        convert_loop fuel' f o (wrap (i + 1))
      else mret ()
  end.

(** [bool cstr_to_upper(CString* obj)] *)
Definition cstr_to_upper (obj : ptr) : M bool :=
  match obj with
  | None => mret false
  | Some o =>
      cstr_lock obj;;
      len ← get_length o;
      convert_loop (S (Z.to_nat len)) toupper o 0;;
      cstr_unlock obj;;
      mret true
  end.

(** [bool cstr_to_lower(CString* obj)] *)
Definition cstr_to_lower (obj : ptr) : M bool :=
  match obj with
  | None => mret false
  | Some o =>
      cstr_lock obj;;
      len ← get_length o;
      convert_loop (S (Z.to_nat len)) tolower o 0;;
      cstr_unlock obj;;
      mret true
  end.

(** ** Specification vocabulary *)

(** Total correctness: [c] runs from [m] without fault, and its result and
    final memory satisfy [Q]. *)
Definition wp {A} (c : M A) (m : mem) (Q : A → mem → Prop) : Prop :=
  match c m with
  | Ok a m' => Q a m'
  | Fault _ => False
  end.

(** Object [o] owns block [b] of [cap] cells, which stores the content
    [bs] followed by the terminator. *)
Definition holds (m : mem) (o b : positive) (bs : list ascii) (cap : Z) : Prop :=
  objects m !! o = Some (mkCString (Some b) (Z.of_nat (List.length bs)) cap)
  ∧ cap < SIZE_MOD
  ∧ ∃ tl, blocks m !! b = Some ((Some <$> bs) ++ Some zero :: tl)
          ∧ cap = Z.of_nat (List.length bs + 1 + List.length tl).

(** The byte stored at offset [length] of [o]'s buffer is the terminator. *)
Definition terminated (m : mem) (o : positive) : Prop :=
  ∃ s b blk, objects m !! o = Some s ∧ data s = Some b ∧ blocks m !! b = Some blk
             ∧ 0 ≤ length s ∧ blk !! Z.to_nat (length s) = Some (Some zero).

(** What an operation on [o] (owning [b]) leaves alone: the other structs
    and the other blocks. *)
Definition frame (m m' : mem) (o b : positive) : Prop :=
  (∀ o2, o2 ≠ o → objects m' !! o2 = objects m !! o2)
  ∧ (∀ p blk, p ≠ b → blocks m !! p = Some blk → blocks m' !! p = Some blk).

(** Block [p] stores the C string [cs]. *)
Definition cstring_at (m : mem) (p : positive) (cs : list ascii) : Prop :=
  (zero ∉ cs) ∧ ∃ tl, blocks m !! p = Some ((Some <$> cs) ++ Some zero :: tl).

(** The next allocation request is granted. *)
Definition granted (m : mem) : Prop := (next_decision m).1 = true.

(** Re-insertion of the bytes [cs] with one [cstr_insert] per byte: in
    order at the successive indices from [index] on, ... *)
Fixpoint insert_bytes (obj : ptr) (index : Z) (cs : list ascii) : M bool :=
  match cs with
  | [] => mret true
  | c :: cs' =>
      cstr_insert obj index c ≫= λ ok : bool,
      if ok then insert_bytes obj (wrap (index + 1)) cs' else mret false
  end.

(** ... or every byte at the very same [index], in the order given. *)
Fixpoint insert_bytes_at (obj : ptr) (index : Z) (cs : list ascii) : M bool :=
  match cs with
  | [] => mret true
  | c :: cs' =>
      cstr_insert obj index c ≫= λ ok : bool,
      if ok then insert_bytes_at obj index cs' else mret false
  end.

(** Object [o] is a well-formed buffer. *)
Definition wf (m : mem) (o : positive) : Prop := ∃ b bs cap, holds m o b bs cap.

(** [strchr(delimiters, c) != NULL], for a terminated [delimiters]. *)
Definition is_delim (delimiters : list ascii) (c : ascii) : bool :=
  match strchr_bytes delimiters c with
  | Some (Some _) => true
  | _ => false
  end.

(** The bytes of [l] before its first zero byte: what a C string function
    sees of [l]. *)
Fixpoint cprefix (l : list ascii) : list ascii :=
  match l with
  | [] => []
  | c :: l' => if bool_decide (c = zero) then [] else c :: cprefix l'
  end.

(** The scanning loop of [cstr_tokenize_ex] run over a list of bytes, the
    first of them at position [pos]. *)
Fixpoint scan_list (delimiters : list ascii) (zone_pairs escape_chars : option (list ascii))
    (pos : Z) (s : scan) (l : list ascii) : option (Z * scan) :=
  match l with
  | [] => Some (pos, s)
  | c :: l' =>
      match scan_char delimiters zone_pairs escape_chars pos c s with
      | None => None
      | Some (Continue s') => scan_list delimiters zone_pairs escape_chars (pos + 1) s' l'
      | Some (Break s') => Some (pos, s')
      end
  end.

(** The tail that both tokenizers end with: copy [token_start, token_end)
    into a temporary, build the token from it, release the temporary and
    advance the cursor. *)
Definition emit_token (obj token : ptr) (d : ptr) (len token_start token_end : Z) : M (bool * option Z) :=
  let token_len := wrap (token_end - token_start) in
  temp ← malloc (wrap (token_len + 1));
  match temp with
  | None => cstr_unlock obj;; mret (false, None)
  | Some _ =>
      memcpy temp 0 d token_start token_len;;
      store temp token_len zero;;
      ok ← cstr_create_from_chars token temp;
      if negb ok then free temp;; cstr_unlock obj;; mret (false, None)
      else
        free temp;;
        let start_pos := if token_end <? len then wrap (token_end + 1) else len in
        cstr_unlock obj;;
        mret (true, Some start_pos)
  end.

(** The next [n] allocation requests are granted. *)
Definition grants (n : nat) (m : mem) : Prop := Forall (λ d, d = true) (take n (plan m)).

(** The bytes [from, to) of a content. *)
Definition segment (bs : list ascii) (from to : Z) : list ascii :=
  take (Z.to_nat (to - from)) (drop (Z.to_nat from) bs).

(** The configuration strings of the tokenizers are terminated. *)
Definition config_ok (delimiters : list ascii) (zone_pairs escape_chars : option (list ascii)) : Prop :=
  zero ∈ delimiters
  ∧ (∀ zp, zone_pairs = Some zp → zero ∈ zp)
  ∧ (∀ ec, escape_chars = Some ec → zero ∈ ec).

(** [bool in_zone = false; char zone_end = '\0'; bool escape = false;
    size_t token_end = invalid;] *)
Definition scan_init : scan := mkScan false zero false invalid.

(** ** Observations and test memories *)

(** Decision of [terminated]. *)
Definition terminated_dec (m : mem) (o : positive) : bool :=
  match objects m !! o with
  | Some s =>
      match data s with
      | Some b =>
          match blocks m !! b with
          | Some blk =>
              (0 <=? length s)
              && bool_decide (blk !! Z.to_nat (length s) = Some (Some zero))
          | None => false
          end
      | None => false
      end
  | None => false
  end.

(** The [length] content bytes of [o], when they are stored and
    initialised. *)
Definition content (m : mem) (o : positive) : option (list ascii) :=
  s ← objects m !! o;
  b ← data s;
  blk ← blocks m !! b;
  if (0 <=? length s) && (length s <=? Z.of_nat (List.length blk))
  then mapM id (take (Z.to_nat (length s)) blk)
  else None.

(** [printf("%s", cstr_data(obj))]: the C string read through the raw
    pointer. *)
Definition read_string (obj : ptr) : M (list ascii) :=
  d ← cstr_data obj;
  n ← strlen d;
  blk ← block_of d;
  mret (omap id (take (Z.to_nat n) blk)).

Definition src : positive := 1.
Definition tok : positive := 2.

(** A struct that no constructor has run on. *)
Definition blank : CString := mkCString NULL 0 0.

(** A memory in which [src] is a buffer with content [bytes] and capacity
    [length + 1], and [tok] is a struct yet to be constructed. *)
Definition mem_of (bytes : list ascii) : mem :=
  mkMem {[ 1%positive := (Some <$> bytes) ++ [Some zero] ]}
        {[ src := mkCString (Some 1%positive) (Z.of_nat (List.length bytes))
                    (Z.of_nat (List.length bytes) + 1);
           tok := blank ]}
        [] [].

(** A memory that holds a string literal with the characters [lit] in
    block 1, and two structs yet to be constructed. *)
Definition static_mem (lit : list ascii) : mem :=
  mkMem {[ 1%positive := Some <$> (lit ++ [zero]) ]} {[ src := blank; tok := blank ]} [] [].

(** The loop of the README: call the tokenizer until it returns false,
    print and destroy each token.  The result lists every token with the
    cursor after it, and the outcome of the last call. *)
Fixpoint tokenize_all (fuel : nat) (step : Z → M (bool * option Z)) (token : ptr) (pos : Z)
    : M (list (list ascii * Z) * (bool * option Z)) :=
  match fuel with
  | O => raise OutOfFuel
  | S fuel' =>
      step pos ≫= λ r : bool * option Z,
      if r.1 then
        read_string token ≫= λ t : list ascii,
        cstr_destroy token ≫= λ _ : bool,
        let pos' := default pos r.2 in
        tokenize_all fuel' step token pos' ≫= λ rest : list (list ascii * Z) * (bool * option Z),
        mret ((t, pos') :: rest.1, rest.2)
      else mret ([], r)
  end.

Definition quote : ascii := "034"%char.
Definition backslash : ascii := "092"%char.

(** The buffer [Hello, "my 'world!'"] of the README. *)
Definition hello_world : list ascii :=
  list_ascii_of_string "Hello, " ++ [quote] ++ list_ascii_of_string "my 'world!'" ++ [quote].

(** ** Actions of the scanner *)

Inductive action : Type :=
  | Suppress
  | ZoneClose
  | Delimiter
  | ZoneOpen
  | EscapeArm.

Definition flow_state (fl : flow) : scan :=
  match fl with
  | Continue s => s
  | Break s => s
  end.

(** What one run of the loop body did, read off the states before and
    after it. *)
Definition triggered (s : scan) (fl : flow) : list action :=
  let s' := flow_state fl in
  (if escape s then [Suppress] else [])
  ++ (if in_zone s && negb (in_zone s') then [ZoneClose] else [])
  ++ (match fl with Break _ => [Delimiter] | Continue _ => [] end)
  ++ (if negb (in_zone s) && in_zone s' then [ZoneOpen] else [])
  ++ (if negb (escape s) && escape s' then [EscapeArm] else []).

(** [c] opens a zone of [zone_pairs]; [c] is one of [escape_chars]. *)
Definition opens (zone_pairs : option (list ascii)) (c : ascii) : bool :=
  match zone_pairs with
  | Some zp => match zone_open zp c with Some (Some _) => true | _ => false end
  | None => false
  end.

(** The closing character paired with [c] in [zone_pairs], and [d] when
    [c] opens no zone. *)
Definition closer (zone_pairs : option (list ascii)) (c d : ascii) : ascii :=
  match zone_pairs with
  | Some zp => match zone_open zp c with Some (Some e) => e | _ => d end
  | None => d
  end.

Definition is_escape (escape_chars : option (list ascii)) (c : ascii) : bool :=
  match escape_chars with
  | Some ec => is_delim ec c
  | None => false
  end.

(** ** Critical sections under interleaving

    Each thread is the sequence of events its call leaves in the trace.
    A critical section is owned by one thread at a time and may be
    entered again by its owner; a field access never waits. *)

Definition lock_events {A} (c : M A) (m : mem) : list event :=
  match c m with
  | Ok _ m' => drop (List.length (trace m)) (trace m')
  | Fault _ => []
  end.

Record config : Type := mkConfig {
  owners : gmap positive (nat * nat);
  threads : list (list event)
}.

(** The effect of event [e] of thread [tid] on the owners, [None] when the
    thread has to wait. *)
Definition perform (tid : nat) (e : event) (own : gmap positive (nat * nat))
    : option (gmap positive (nat * nat)) :=
  match e with
  | Enter o =>
      match own !! o with
      | None => Some (<[o := (tid, 1%nat)]> own)
      | Some (t, n) => if bool_decide (t = tid) then Some (<[o := (tid, S n)]> own) else None
      end
  | Leave o =>
      match own !! o with
      | Some (t, S n) =>
          if bool_decide (t = tid)
          then Some (match n with O => delete o own | S _ => <[o := (tid, n)]> own end)
          else None
      | _ => None
      end
  | Init _ | Delete _ | Read _ | Write _ => Some own
  end.

(** One step of thread [tid]. *)
Definition step (tid : nat) (cfg : config) : option config :=
  match threads cfg !! tid with
  | Some (e :: rest) =>
      own ← perform tid e (owners cfg);
      Some (mkConfig own (<[tid := rest]> (threads cfg)))
  | _ => None
  end.

(** Run the threads in the order given by a schedule. *)
Fixpoint run_schedule (sch : list nat) (cfg : config) : option config :=
  match sch with
  | [] => Some cfg
  | tid :: sch' => cfg' ← step tid cfg; run_schedule sch' cfg'
  end.

(** Some thread has events left and no thread can take a step. *)
Definition deadlocked (cfg : config) : bool :=
  existsb (λ t, negb (bool_decide (t = []))) (threads cfg)
  && forallb (λ tid, bool_decide (step tid cfg = None)) (seq 0 (List.length (threads cfg))).

(** ** Further vocabulary *)

(** [needle] occurs in [hay] at offset [i]. *)
Definition occurs_at (needle hay : list ascii) (i : nat) : Prop :=
  take (List.length needle) (drop i hay) = needle.

(** The bytes a [get]-style read can see: the content and its terminator. *)
Definition readable (bs : list ascii) : list ascii := bs ++ [zero].

(** The effect of one event on the number of times the critical section
    of [x] is held. *)
Definition lock_delta (x : positive) (e : event) : Z :=
  match e with
  | Enter o => if bool_decide (o = x) then 1 else 0
  | Leave o => if bool_decide (o = x) then -1 else 0
  | _ => 0
  end.

(** How often the critical section of [x] is held after the events [tr]:
    entries minus exits. *)
Fixpoint held (x : positive) (tr : list event) : Z :=
  match tr with
  | [] => 0
  | e :: tr' => lock_delta x e + held x tr'
  end.

(** The reads and writes of struct fields. *)
Definition is_access (e : event) : bool :=
  match e with
  | Read _ | Write _ => true
  | _ => false
  end.

(** Every read and write of a field among the events [evs], which follow
    the events [before], happens while each critical section of [xs] is
    held. *)
Fixpoint under_locks (xs : list positive) (before evs : list event) : bool :=
  match evs with
  | [] => true
  | e :: rest =>
      (if is_access e then forallb (λ x, 0 <? held x before) xs else true)
      && under_locks xs (before ++ [e]) rest
  end.

(** [c] changes the number of times the critical section of [x] is held
    by [n], on every run that returns. *)
Definition shifts {A} (x : positive) (c : M A) (n : Z) : Prop :=
  ∀ m a m', c m = Ok a m' → held x (trace m') = held x (trace m) + n.

(** [c] leaves every critical section held as often as it found it. *)
Definition releases {A} (c : M A) : Prop := ∀ x, shifts x c 0.

(** ** Sample memories *)

(** [src] holds [bytes] in block 1 with [room] spare bytes after the
    terminator; [tok] is yet to be constructed. *)
Definition mem_with_room (bytes : list ascii) (room : nat) : mem :=
  mkMem {[ 1%positive := (Some <$> bytes) ++ Some zero :: replicate room None ]}
        {[ src := mkCString (Some 1%positive) (Z.of_nat (List.length bytes))
                    (Z.of_nat (List.length bytes + 1 + room));
           tok := blank ]}
        [] [].

(** [src] holds [a] in block 1 and [tok] holds [b] in block 2, each with
    capacity for its content and the terminator; block 3 is a character
    cell of the caller, struct 3 is yet to be constructed. *)
Definition mem_of2 (a b : list ascii) : mem :=
  mkMem {[ 1%positive := (Some <$> a) ++ [Some zero];
           2%positive := (Some <$> b) ++ [Some zero];
           3%positive := [None] ]}
        {[ src := mkCString (Some 1%positive) (Z.of_nat (List.length a))
                    (Z.of_nat (List.length a) + 1);
           tok := mkCString (Some 2%positive) (Z.of_nat (List.length b))
                    (Z.of_nat (List.length b) + 1);
           3%positive := blank ]}
        [] [].

(** The same memory with an allocator that denies the next request. *)
Definition denying (m : mem) : mem := set_plan [false] m.

(** ** Reasoning rules *)

Lemma wp_ok {A} (c : M A) m Q :
  wp c m Q ↔ ∃ a m', c m = Ok a m' ∧ Q a m'.
Proof.
  unfold wp. split.
  - destruct (c m) as [a m'|e]; [eauto | done].
  - intros (a & m' & -> & HQ). done.
Qed.

Lemma wp_ret {A} (a : A) m Q : Q a m → wp (mret a) m Q.
Proof. done. Qed.

Lemma wp_bind {A B} (c : M A) (k : A → M B) m Q :
  wp c m (λ a m', wp (k a) m' Q) → wp (c ≫= k) m Q.
Proof. unfold wp, mbind, M_bind. by destruct (c m). Qed.

Lemma wp_mono {A} (c : M A) m (Q Q' : A → mem → Prop) :
  wp c m Q → (∀ a m', Q a m' → Q' a m') → wp c m Q'.
Proof. unfold wp. destruct (c m); eauto. Qed.

Lemma wp_seq {A B} (c : M A) (k : A → M B) m (Q : A → mem → Prop) (R : B → mem → Prop) :
  wp c m Q → (∀ a m', Q a m' → wp (k a) m' R) → wp (c ≫= k) m R.
Proof. intros Hc Hk. apply wp_bind. eapply wp_mono; eauto. Qed.

Lemma wp_lock o m Q :
  Q () (mkMem (blocks m) (objects m) (plan m) (trace m ++ [Enter o])) →
  wp (cstr_lock (Some o)) m Q.
Proof. done. Qed.

Lemma wp_unlock o m Q :
  Q () (mkMem (blocks m) (objects m) (plan m) (trace m ++ [Leave o])) →
  wp (cstr_unlock (Some o)) m Q.
Proof. done. Qed.

Lemma wp_emit e m Q :
  Q () (mkMem (blocks m) (objects m) (plan m) (trace m ++ [e])) → wp (emit e) m Q.
Proof. done. Qed.

Lemma wp_get_data o s m Q :
  objects m !! o = Some s → Q (data s) (note (Read o) m) → wp (get_data o) m Q.
Proof. unfold wp, get_data, mbind, M_bind, deref. by intros ->. Qed.

Lemma wp_get_length o s m Q :
  objects m !! o = Some s → Q (length s) (note (Read o) m) → wp (get_length o) m Q.
Proof. unfold wp, get_length, mbind, M_bind, deref. by intros ->. Qed.

Lemma wp_get_capacity o s m Q :
  objects m !! o = Some s → Q (capacity s) (note (Read o) m) → wp (get_capacity o) m Q.
Proof. unfold wp, get_capacity, mbind, M_bind, deref. by intros ->. Qed.

Lemma wp_assign o f s m Q :
  objects m !! o = Some s → Q () (set_objects <[o := f s]> (note (Write o) m)) →
  wp (assign o f) m Q.
Proof. unfold wp, assign. by intros ->. Qed.

Lemma wp_block_of b blk m Q :
  blocks m !! b = Some blk → Q blk m → wp (block_of (Some b)) m Q.
Proof. unfold wp, block_of. by intros ->. Qed.

Lemma in_range_true i n : 0 ≤ i < n → (0 <=? i) && (i <? n) = true.
Proof. intros. apply andb_true_intro. split; [apply Z.leb_le | apply Z.ltb_lt]; lia. Qed.

Lemma wp_load b blk i c m Q :
  blocks m !! b = Some blk → 0 ≤ i → blk !! Z.to_nat i = Some (Some c) →
  Q c m → wp (load (Some b) i) m Q.
Proof.
  intros Hb Hi Hc HQ. unfold load. apply wp_bind, (wp_block_of _ _ _ _ Hb).
  apply lookup_lt_Some in Hc as Hlt.
  rewrite in_range_true by lia. by rewrite Hc.
Qed.

Lemma wp_store b blk i c m Q :
  blocks m !! b = Some blk → 0 ≤ i < Z.of_nat (List.length blk) →
  Q () (set_blocks <[b := <[Z.to_nat i := Some c]> blk]> m) →
  wp (store (Some b) i c) m Q.
Proof.
  intros Hb Hi HQ. unfold store. apply wp_bind, (wp_block_of _ _ _ _ Hb).
  by rewrite in_range_true by lia.
Qed.

Lemma slice_eq (blk : list cell) i n :
  0 ≤ i → 0 ≤ n → i + n ≤ Z.of_nat (List.length blk) →
  slice blk i n = Some (take (Z.to_nat n) (drop (Z.to_nat i) blk)).
Proof.
  intros. unfold slice.
  by rewrite (proj2 (Z.leb_le 0 i)), (proj2 (Z.leb_le 0 n)), (proj2 (Z.leb_le (i + n) _)) by lia.
Qed.

Lemma splice_eq (blk : list cell) i src :
  0 ≤ i → i + Z.of_nat (List.length src) ≤ Z.of_nat (List.length blk) →
  splice blk i src
  = Some (take (Z.to_nat i) blk ++ src ++ drop (Z.to_nat i + List.length src) blk).
Proof.
  intros. unfold splice.
  by rewrite (proj2 (Z.leb_le 0 i)), (proj2 (Z.leb_le (i + _) _)) by lia.
Qed.

(** [memmove] from block [bsrc] into block [bdst] (possibly the same). *)
Lemma wp_memmove bdst bsrc dblk sblk di si n m Q :
  blocks m !! bsrc = Some sblk → blocks m !! bdst = Some dblk →
  0 ≤ si → 0 ≤ n → si + n ≤ Z.of_nat (List.length sblk) →
  0 ≤ di → di + n ≤ Z.of_nat (List.length dblk) →
  Q () (set_blocks <[bdst := take (Z.to_nat di) dblk
                              ++ take (Z.to_nat n) (drop (Z.to_nat si) sblk)
                              ++ drop (Z.to_nat di + Z.to_nat n) dblk]> m) →
  wp (memmove (Some bdst) di (Some bsrc) si n) m Q.
Proof.
  intros Hs Hd ? ? ? ? ? HQ. unfold memmove.
  apply wp_bind, (wp_block_of _ _ _ _ Hs).
  rewrite slice_eq by lia.
  apply wp_bind, (wp_block_of _ _ _ _ Hd).
  assert (List.length (take (Z.to_nat n) (drop (Z.to_nat si) sblk)) = Z.to_nat n) as Hlen.
  { rewrite length_take, length_drop. lia. }
  rewrite splice_eq by (rewrite ?Hlen; lia).
  by rewrite Hlen.
Qed.

Lemma wrap_small z : 0 ≤ z < SIZE_MOD → wrap z = z.
Proof. intros. unfold wrap. by apply Z.mod_small. Qed.

Lemma SIZE_MOD_eq : SIZE_MOD = 18446744073709551616.
Proof. reflexivity. Qed.

Lemma holds_frame m m' o b bs cap :
  holds m o b bs cap → objects m' = objects m → blocks m' = blocks m →
  holds m' o b bs cap.
Proof. unfold holds. by intros ? -> ->. Qed.

Lemma holds_terminated m o b bs cap : holds m o b bs cap → terminated m o.
Proof.
  intros (Ho & _ & tl & Hb & _). eexists _, b, _. split_and!; eauto; simpl; [lia|].
  rewrite Nat2Z.id, lookup_app_r, length_fmap, Nat.sub_diag; [done|].
  by rewrite length_fmap.
Qed.

(** Normalising comparisons and wrap-arounds whose outcome [lia] decides. *)
Ltac zb :=
  rewrite ?Z.geb_leb, ?Z.gtb_ltb;
  repeat match goal with
  | |- context [?a <=? ?b] =>
      first [rewrite (proj2 (Z.leb_le a b)) by lia | rewrite (proj2 (Z.leb_gt a b)) by lia]
  | |- context [?a <? ?b] =>
      first [rewrite (proj2 (Z.ltb_lt a b)) by lia | rewrite (proj2 (Z.ltb_ge a b)) by lia]
  | |- context [?a =? ?b] =>
      first [rewrite (proj2 (Z.eqb_eq a b)) by lia | rewrite (proj2 (Z.eqb_neq a b)) by lia]
  end.

Ltac unwrap :=
  repeat match goal with
  | |- context [wrap ?z] => rewrite (wrap_small z) by lia
  end.

Ltac norm := simpl; unwrap; zb; simpl.

Ltac lens :=
  repeat (rewrite ?length_app, ?length_fmap, ?length_take, ?length_drop, ?length_insert,
            ?length_replicate; simpl List.length).

(** Naming the memory a computation starts from. *)
Ltac name_mem m0 := match goal with |- wp _ ?mm _ => set (m0 := mm) end.

(** Looking through the trace entries of struct accesses. *)
Ltac unnote := cbn [note blocks objects plan trace] in *.

(** Lookups through a stack of inserts on distinct keys. *)
Ltac lk :=
  simpl;
  repeat first [rewrite lookup_insert_eq | rewrite lookup_insert_ne by done];
  try done; eauto.

(** ** Moving cells inside a block *)

(** Closing a gap: the cells [C] that follow [B] are moved onto [B]. *)
Lemma move_left {X} (A B C T : list X) (di si n : nat) :
  di = List.length A → si = (List.length A + List.length B)%nat → n = List.length C →
  take di (A ++ B ++ C ++ T) ++ take n (drop si (A ++ B ++ C ++ T))
    ++ drop (di + n) (A ++ B ++ C ++ T)
  = A ++ C ++ drop n (B ++ C ++ T).
Proof.
  intros -> -> ->.
  rewrite take_app_length.
  rewrite (app_assoc A B), drop_app_length' by (by rewrite length_app).
  rewrite take_app_length.
  rewrite <- (app_assoc A B), drop_app_add'; done.
Qed.

(** Opening a gap: the cells [C] move one place to the right and [x] is
    stored in front of them. *)
Lemma move_right {X} (A C T : list X) (x t : X) (i n : nat) :
  i = List.length A → n = List.length C →
  <[i := x]> (take (S i) (A ++ C ++ t :: T) ++ take n (drop i (A ++ C ++ t :: T))
                ++ drop (S i + n) (A ++ C ++ t :: T))
  = A ++ x :: C ++ T.
Proof.
  intros -> ->.
  rewrite drop_app_length, take_app_length.
  replace (S (List.length A) + List.length C)%nat
    with (List.length A + (List.length C + 1))%nat by lia.
  rewrite drop_app_add' by done.
  replace (C ++ t :: T) with ((C ++ [t]) ++ T) at 2 by (by rewrite <- app_assoc).
  rewrite drop_app_length' by (rewrite length_app; simpl; lia).
  destruct (C ++ t :: T) as [|y rest] eqn:E.
  { destruct C; discriminate. }
  replace (S (List.length A)) with (List.length A + 1)%nat by lia.
  rewrite take_app_add' by done. simpl. rewrite take_0.
  rewrite <- app_assoc. simpl.
  rewrite insert_app_r_alt by lia. rewrite Nat.sub_diag. done.
Qed.

(** ** The allocator *)

Lemma fresh_block_free (m : mem) : blocks m !! fresh (dom (blocks m)) = None.
Proof. apply not_elem_of_dom, is_fresh. Qed.

Lemma wp_realloc_grant b blk n m Q :
  blocks m !! b = Some blk → 0 < n → granted m →
  (∀ b' pl, b' = b ∨ blocks m !! b' = None →
     Q (Some b') (set_plan pl
        (set_blocks (λ h, <[b' := take (Z.to_nat n) (blk ++ replicate (Z.to_nat n) None)]>
                            (delete b h)) m))) →
  wp (realloc (Some b) n) m Q.
Proof.
  intros Hb Hn Hg HQ. unfold wp, realloc, granted in *. rewrite Hb.
  rewrite (proj2 (Z.eqb_neq n 0)) by lia.
  destruct (next_decision m) as [d pl]; simpl in *; subst d.
  destruct (next_decision (set_plan pl m)) as [[] pl'].
  - apply HQ. right. apply fresh_block_free.
  - specialize (HQ b pl' (or_introl eq_refl)).
    unfold set_blocks in *. simpl in *. by rewrite insert_delete_eq in HQ.
Qed.

Lemma wp_realloc_deny b blk n m Q :
  blocks m !! b = Some blk → 0 < n → ¬ granted m →
  Q NULL (set_plan (next_decision m).2 m) →
  wp (realloc (Some b) n) m Q.
Proof.
  intros Hb Hn Hg HQ. unfold wp, realloc, granted in *. rewrite Hb.
  rewrite (proj2 (Z.eqb_neq n 0)) by lia.
  destruct (next_decision m) as [[] pl]; simpl in *; done.
Qed.

Lemma wp_malloc_grant n m Q :
  granted m →
  (∀ b, blocks m !! b = None →
     Q (Some b) (set_plan (next_decision m).2
                   (set_blocks <[b := replicate (Z.to_nat n) None]> m))) →
  wp (malloc n) m Q.
Proof.
  intros Hg HQ. unfold wp, malloc, granted in *.
  destruct (next_decision m) as [d pl]; simpl in *; subst d.
  apply HQ, fresh_block_free.
Qed.

Lemma wp_malloc_deny n m Q :
  ¬ granted m → Q NULL (set_plan (next_decision m).2 m) → wp (malloc n) m Q.
Proof.
  intros Hg HQ. unfold wp, malloc, granted in *.
  destruct (next_decision m) as [[] pl]; simpl in *; done.
Qed.

Lemma granted_plan m m' :
  plan m' = plan m → bool_decide (granted m') = bool_decide (granted m).
Proof. intros H. apply bool_decide_ext. unfold granted, next_decision. by rewrite H. Qed.

Lemma granted_dec m : granted m ∨ ¬ granted m.
Proof. unfold granted. destruct (next_decision m).1; [by left | by right]. Qed.

(** ** Growing and shrinking *)

(** [cstr_resize] to a size that keeps the terminator: the content is kept,
    the capacity becomes [size] when the allocator grants the request,
    in the same block or in one that was free, and nothing changes when
    it does not. *)
Lemma cstr_resize_strong m o b bs cap size :
  holds m o b bs cap →
  Z.of_nat (List.length bs) < size < SIZE_MOD →
  wp (cstr_resize (Some o) size) m (λ r m',
    r = bool_decide (granted m)
    ∧ if r then ∃ b', holds m' o b' bs size ∧ (b' = b ∨ blocks m !! b' = None)
                      ∧ frame m m' o b
      else holds m' o b bs cap ∧ frame m m' o b).
Proof.
  intros (Ho & Hcap & tl & Hb & Hcapeq) Hsize.
  unfold cstr_resize.
  apply wp_bind, wp_lock.
  eapply wp_bind, wp_get_data; [exact Ho|]. simpl.
  destruct (granted_dec m) as [Hg|Hg].
  - rewrite (bool_decide_eq_true_2 _ Hg).
    eapply wp_bind, wp_realloc_grant; [exact Hb|lia|exact Hg|]. intros b' pl Hfresh.
    eapply wp_bind, wp_assign; [exact Ho|].
    eapply wp_bind, wp_assign; [simpl; apply lookup_insert_eq|].
    apply wp_bind, wp_unlock. apply wp_ret. simpl. split; [done|].
    simpl in Hfresh.
    exists b'. split; [|split; [done|]].
    + split; [|split; [lia|]].
      * simpl. rewrite insert_insert_eq. apply lookup_insert_eq.
      * exists (take (Z.to_nat size - (List.length bs + 1)) (tl ++ replicate (Z.to_nat size) None)).
        simpl. rewrite lookup_insert_eq. split.
        -- f_equal. rewrite <- app_assoc. rewrite take_app_ge by (lens; lia).
           f_equal. lens. simpl.
           replace (Z.to_nat size - List.length bs)%nat
             with (S (Z.to_nat size - (List.length bs + 1))) by lia.
           done.
        -- lens. lia.
    + split; simpl.
      * intros o2 Hne2. by rewrite insert_insert_eq, lookup_insert_ne.
      * intros p blk Hp Hblk.
        rewrite lookup_insert_ne, lookup_delete_ne; [done|done|].
        destruct Hfresh as [->|Hfresh]; congruence.
  - rewrite (bool_decide_eq_false_2 _ Hg).
    eapply wp_bind, wp_realloc_deny; [exact Hb|lia|exact Hg|].
    apply wp_bind, wp_unlock. apply wp_ret. simpl. split; [done|].
    split; [|by split].
    split; [done|split; [done|]]. by exists tl.
Qed.

Lemma cstr_resize_spec m o b bs cap size :
  holds m o b bs cap →
  Z.of_nat (List.length bs) < size < SIZE_MOD →
  wp (cstr_resize (Some o) size) m (λ r m',
    if r then ∃ b', holds m' o b' bs size ∧ (b' = b ∨ blocks m !! b' = None)
                    ∧ frame m m' o b
    else holds m' o b bs cap ∧ frame m m' o b).
Proof.
  intros Hh Hsize. eapply wp_mono; [by apply cstr_resize_strong|].
  by intros r m' [_ Hpost].
Qed.

Ltac solve_frame :=
  split; simpl;
  [ intros ? ?; rewrite ?lookup_insert_ne by done; done
  | intros ? ? ? ?; rewrite ?lookup_insert_ne by done; done ].

Lemma frame_trans m1 m2 m3 o b :
  frame m1 m2 o b → frame m2 m3 o b → frame m1 m3 o b.
Proof.
  intros [Ho1 Hb1] [Ho2 Hb2]. split.
  - intros o2 Hne. rewrite Ho2, Ho1; done.
  - intros p blk Hp Hblk. eauto.
Qed.

Lemma frame_refl m m' o b :
  objects m' = objects m → blocks m' = blocks m → frame m m' o b.
Proof. intros Ho Hb. split; intros; [by rewrite Ho | by rewrite Hb]. Qed.

(** The capacity check shared by the growing operations: it fails only
    when the buffer has to grow and the allocator denies the request. *)
Lemma ensure_capacity_strong m o b bs cap (cond : bool) need :
  holds m o b bs cap →
  Z.of_nat (List.length bs) < need < SIZE_MOD →
  (cond = false → need ≤ cap) →
  wp (if cond then cstr_resize (Some o) need else mret true) m (λ ok m',
    ok = negb cond || bool_decide (granted m)
    ∧ if ok then ∃ b' cap', holds m' o b' bs cap' ∧ need ≤ cap'
                   ∧ (cond = false → b' = b ∧ cap' = cap)
                   ∧ (b' = b ∨ blocks m !! b' = None) ∧ frame m m' o b
      else holds m' o b bs cap ∧ cond = true ∧ frame m m' o b).
Proof.
  intros Hh Hneed Hcond. destruct cond.
  - eapply wp_mono; [by apply cstr_resize_strong|].
    intros [] m'; simpl.
    + intros (Hr & b' & Hh' & Hfree & Hfr). split; [done|]. exists b', need.
      split_and!; [done|lia|done|done|done].
    + intros [Hr [??]]. done.
  - apply wp_ret. split; [done|].
    exists b, cap. split_and!; [done|by apply Hcond|done|by left|by apply frame_refl].
Qed.

Lemma ensure_capacity_spec m o b bs cap (cond : bool) need :
  holds m o b bs cap →
  Z.of_nat (List.length bs) < need < SIZE_MOD →
  (cond = false → need ≤ cap) →
  wp (if cond then cstr_resize (Some o) need else mret true) m (λ ok m',
    if ok then ∃ b' cap', holds m' o b' bs cap' ∧ need ≤ cap'
                 ∧ (cond = false → b' = b ∧ cap' = cap)
                 ∧ (b' = b ∨ blocks m !! b' = None) ∧ frame m m' o b
    else holds m' o b bs cap ∧ cond = true ∧ frame m m' o b).
Proof.
  intros Hh Hneed Hcond. eapply wp_mono; [by apply ensure_capacity_strong|].
  by intros ok m' [_ Hpost].
Qed.

(** The result of an operation that grows the buffer on demand: it fails
    exactly when there is no room and the allocator denies the request. *)
Lemma capacity_check_result (cond ok : bool) m m' (P : Prop) `{!Decision P} :
  plan m' = plan m → (cond = false ↔ P) →
  ok = negb cond || bool_decide (granted m') → ok = bool_decide (P ∨ granted m).
Proof.
  intros Hpl Hc ->. rewrite (granted_plan _ _ Hpl). destruct cond; simpl.
  - apply bool_decide_ext. split; [by right|]. intros [HP|]; [|done].
    by apply Hc in HP.
  - symmetry. apply bool_decide_eq_true_2. left. by apply Hc.
Qed.

(** ** Erase and insert *)

Lemma cstr_erase_spec m o b pre mid post cap index size :
  holds m o b (pre ++ mid ++ post) cap →
  index = Z.of_nat (List.length pre) →
  0 < size < SIZE_MOD →
  (0 < List.length mid)%nat →
  Z.of_nat (List.length mid) = Z.min size (Z.of_nat (List.length mid + List.length post)) →
  wp (cstr_erase (Some o) index size) m (λ r m',
    r = true ∧ holds m' o b (pre ++ post) cap ∧ frame m m' o b).
Proof.
  intros (Ho & Hcap & tl & Hb & Hcapeq) -> Hsize Hmid Hmin.
  pose proof SIZE_MOD_eq as HM. rewrite HM in *.
  rewrite !length_app in *.
  unfold cstr_erase.
  apply wp_bind, wp_lock.
  eapply wp_bind, wp_get_length; [exact Ho|]. norm.
  match goal with |- context [if ?c then ?a else size] =>
    replace (if c then a else size) with (Z.of_nat (List.length mid))
      by (destruct c eqn:E; [apply Z.ltb_lt in E|apply Z.ltb_ge in E]; lia)
  end.
  eapply wp_bind, wp_get_data; [exact Ho|]. norm.
  eapply wp_bind, wp_memmove; [exact Hb|exact Hb|lens; lia..|].
  eapply wp_bind, wp_assign; [exact Ho|].
  apply wp_bind, wp_unlock. apply wp_ret. split; [done|].
  split; [|solve_frame].
  split; [|split; [lia|]]; simpl.
  - rewrite lookup_insert_eq. unfold with_length; simpl. do 2 f_equal. lens. lia.
  - exists (drop (List.length post + 1) ((Some <$> mid) ++ ((Some <$> post) ++ [Some zero]) ++ tl)).
    rewrite lookup_insert_eq.
    replace ((Some <$> pre ++ mid ++ post) ++ Some zero :: tl)
      with ((Some <$> pre) ++ (Some <$> mid) ++ ((Some <$> post) ++ [Some zero]) ++ tl)
      by (by rewrite !fmap_app, <- !app_assoc).
    rewrite move_left by (lens; lia).
    split.
    + f_equal. rewrite !fmap_app, <- !app_assoc. simpl. do 3 f_equal. f_equal. lia.
    + lens. lia.
Qed.

Lemma cstr_insert_strong m o b pre post cap index c :
  holds m o b (pre ++ post) cap →
  index = Z.of_nat (List.length pre) →
  Z.of_nat (List.length pre + List.length post) + 2 < SIZE_MOD →
  wp (cstr_insert (Some o) index c) m (λ r m',
    r = bool_decide (Z.of_nat (List.length pre + List.length post) + 2 ≤ cap ∨ granted m)
    ∧ if r then ∃ b' cap', holds m' o b' (pre ++ c :: post) cap'
                ∧ (Z.of_nat (List.length pre + List.length post) + 2 ≤ cap → b' = b ∧ cap' = cap)
                ∧ (b' = b ∨ blocks m !! b' = None) ∧ frame m m' o b
    else holds m' o b (pre ++ post) cap ∧ frame m m' o b
         ∧ cap < Z.of_nat (List.length pre + List.length post) + 2).
Proof.
  intros Hh -> Hlen.
  pose proof Hh as (Ho & Hcap & tl & Hb & Hcapeq).
  pose proof SIZE_MOD_eq as HM. rewrite HM in *.
  rewrite !length_app in *.
  unfold cstr_insert.
  apply wp_bind, wp_lock.
  eapply wp_bind, wp_get_length; [exact Ho|]. norm.
  eapply wp_bind, wp_get_capacity; [exact Ho|]. simpl.
  eapply wp_seq.
  { eapply (ensure_capacity_strong _ o b (pre ++ post) cap).
    - eapply holds_frame; [exact Hh|done..].
    - rewrite length_app, HM. lia.
    - rewrite Z.gtb_ltb. intros ?%Z.ltb_ge. lia. }
  intros ok m1 [Hok Hpost].
  apply (capacity_check_result _ _ m _
           (Z.of_nat (List.length pre + List.length post) + 2 ≤ cap)) in Hok;
    [|done|rewrite Z.gtb_ltb, Z.ltb_ge; lia].
  revert Hpost. destruct ok; simpl.
  - intros (b' & cap' & Hh' & Hneed & Hsame & Hfresh & Hfr).
    destruct Hh' as (Ho' & Hcap' & tl' & Hb' & Hcapeq').
    rewrite HM, !length_app in *.
    eapply wp_bind, wp_get_data; [exact Ho'|].
    eapply wp_bind, wp_get_length; [exact Ho'|]. norm.
    eapply wp_bind, wp_memmove; [exact Hb'|exact Hb'|lens; lia..|].
    eapply wp_bind, wp_store; [simpl; apply lookup_insert_eq|lens; lia|].
    eapply wp_bind, wp_assign; [exact Ho'|].
    apply wp_bind, wp_unlock. apply wp_ret. simpl. split; [exact Hok|].
    exists b', cap'. split_and!.
    + split; [|split; [lia|]]; simpl.
      * rewrite lookup_insert_eq. unfold with_length; simpl. do 2 f_equal. lens. lia.
      * destruct tl' as [|t tl']; [simpl in *; lia|].
        exists tl'. rewrite insert_insert_eq, lookup_insert_eq. split.
        -- f_equal.
           replace ((Some <$> pre ++ post) ++ Some zero :: t :: tl')
             with ((Some <$> pre) ++ ((Some <$> post) ++ [Some zero]) ++ t :: tl')
             by (by rewrite !fmap_app, <- !app_assoc).
           replace (Z.to_nat (Z.of_nat (List.length pre) + 1))
             with (S (Z.to_nat (Z.of_nat (List.length pre)))) by lia.
           rewrite move_right by (lens; lia).
           rewrite fmap_app, fmap_cons, <- !app_assoc. done.
        -- rewrite length_app. simpl in *. lia.
    + intros Hle. apply Hsame. rewrite Z.gtb_ltb. apply Z.ltb_ge. lia.
    + done.
    + destruct Hfr as [Hfo Hfb]. split; simpl.
      * intros o2 Hne. rewrite lookup_insert_ne by done. by apply Hfo.
      * intros p blk Hp Hblk. apply Hfb in Hblk as Hblk'; [|done].
        rewrite !lookup_insert_ne; [done|..];
          (destruct Hfresh as [->|Hnone]; [done|congruence]).
  - intros (Hh' & Hcond & Hfr).
    eapply wp_bind, wp_unlock. apply wp_ret. split; [exact Hok|]. split_and!.
    + eapply holds_frame; [exact Hh'|done..].
    + destruct Hfr as [Hfo Hfb]. split; simpl; eauto.
    + rewrite Z.gtb_ltb in Hcond. apply Z.ltb_lt in Hcond. lia.
Qed.

Lemma cstr_insert_spec m o b pre post cap index c :
  holds m o b (pre ++ post) cap →
  index = Z.of_nat (List.length pre) →
  Z.of_nat (List.length pre + List.length post) + 2 < SIZE_MOD →
  wp (cstr_insert (Some o) index c) m (λ r m',
    if r then ∃ b' cap', holds m' o b' (pre ++ c :: post) cap'
                ∧ (Z.of_nat (List.length pre + List.length post) + 2 ≤ cap → b' = b ∧ cap' = cap)
                ∧ (b' = b ∨ blocks m !! b' = None) ∧ frame m m' o b
    else holds m' o b (pre ++ post) cap ∧ frame m m' o b
         ∧ cap < Z.of_nat (List.length pre + List.length post) + 2).
Proof.
  intros Hh Hi Hlen. eapply wp_mono; [by apply cstr_insert_strong|].
  by intros r m' [_ Hpost].
Qed.

Lemma insert_bytes_spec o b cap cs : ∀ pre post m,
  holds m o b (pre ++ post) cap →
  Z.of_nat (List.length pre + List.length cs + List.length post) + 1 ≤ cap →
  wp (insert_bytes (Some o) (Z.of_nat (List.length pre)) cs) m (λ r m',
    r = true ∧ holds m' o b (pre ++ cs ++ post) cap ∧ frame m m' o b).
Proof.
  induction cs as [|c cs IH]; intros pre post m Hh Hcap.
  - apply wp_ret. split_and!; [done|done|by apply frame_refl].
  - pose proof Hh as (_ & Hlt & _).
    pose proof SIZE_MOD_eq as HM. rewrite HM in Hlt. simpl in Hcap.
    simpl. eapply wp_seq.
    { eapply cstr_insert_spec; [exact Hh|done|rewrite HM; lia]. }
    intros [] m1.
    + intros (b' & cap' & Hh' & Hsame & _ & Hfr).
      destruct Hsame as [-> ->]; [lia|].
      rewrite wrap_small by lia.
      replace (Z.of_nat (List.length pre) + 1) with (Z.of_nat (List.length (pre ++ [c])))
        by (rewrite length_app; simpl; lia).
      eapply wp_mono.
      { apply (IH (pre ++ [c]) post).
        - by rewrite <- app_assoc.
        - rewrite length_app. simpl. lia. }
      intros r m2 (-> & Hh2 & Hfr2). rewrite <- app_assoc in Hh2.
      split_and!; [done|done|by eapply frame_trans].
    + intros (_ & _ & Hbad). lia.
Qed.

Lemma insert_bytes_at_spec o b cap pre cs : ∀ post m,
  holds m o b (pre ++ post) cap →
  Z.of_nat (List.length pre + List.length cs + List.length post) + 1 ≤ cap →
  wp (insert_bytes_at (Some o) (Z.of_nat (List.length pre)) cs) m (λ r m',
    r = true ∧ holds m' o b (pre ++ reverse cs ++ post) cap ∧ frame m m' o b).
Proof.
  induction cs as [|c cs IH]; intros post m Hh Hcap.
  - apply wp_ret. split_and!; [done|done|by apply frame_refl].
  - pose proof Hh as (_ & Hlt & _).
    pose proof SIZE_MOD_eq as HM. rewrite HM in Hlt. simpl in Hcap.
    simpl. eapply wp_seq.
    { eapply cstr_insert_spec; [exact Hh|done|rewrite HM; lia]. }
    intros [] m1.
    + intros (b' & cap' & Hh' & Hsame & _ & Hfr).
      destruct Hsame as [-> ->]; [lia|].
      eapply wp_mono.
      { apply (IH (c :: post)); [done|simpl; lia]. }
      intros r m2 (-> & Hh2 & Hfr2).
      rewrite reverse_cons, <- app_assoc. simpl.
      split_and!; [done|done|by eapply frame_trans].
    + intros (_ & _ & Hbad). lia.
Qed.

(** ** More primitives *)

Lemma wp_memcpy bdst bsrc dblk sblk di si n m Q :
  bdst ≠ bsrc →
  blocks m !! bsrc = Some sblk → blocks m !! bdst = Some dblk →
  0 ≤ si → 0 ≤ n → si + n ≤ Z.of_nat (List.length sblk) →
  0 ≤ di → di + n ≤ Z.of_nat (List.length dblk) →
  Q () (set_blocks <[bdst := take (Z.to_nat di) dblk
                              ++ take (Z.to_nat n) (drop (Z.to_nat si) sblk)
                              ++ drop (Z.to_nat di + Z.to_nat n) dblk]> m) →
  wp (memcpy (Some bdst) di (Some bsrc) si n) m Q.
Proof.
  intros Hne. intros. unfold memcpy.
  rewrite bool_decide_eq_false_2 by congruence. simpl.
  by eapply wp_memmove.
Qed.

Lemma wp_memcpy_self b blk di si n m Q :
  si + n ≤ di →
  blocks m !! b = Some blk →
  0 ≤ si → 0 ≤ n → di + n ≤ Z.of_nat (List.length blk) →
  Q () (set_blocks <[b := take (Z.to_nat di) blk
                           ++ take (Z.to_nat n) (drop (Z.to_nat si) blk)
                           ++ drop (Z.to_nat di + Z.to_nat n) blk]> m) →
  wp (memcpy (Some b) di (Some b) si n) m Q.
Proof.
  intros Hdis Hb ? ? ? HQ. unfold memcpy.
  rewrite (proj2 (Z.ltb_ge di (si + n))) by lia. rewrite andb_false_r. simpl.
  eapply wp_memmove; eauto; lia.
Qed.

Lemma wp_memcpy_bytes b blk di src n m Q :
  blocks m !! b = Some blk →
  0 ≤ n ≤ Z.of_nat (List.length src) →
  0 ≤ di → di + n ≤ Z.of_nat (List.length blk) →
  Q () (set_blocks <[b := take (Z.to_nat di) blk ++ (Some <$> take (Z.to_nat n) src)
                            ++ drop (Z.to_nat di + Z.to_nat n) blk]> m) →
  wp (memcpy_bytes (Some b) di src n) m Q.
Proof.
  intros Hb Hn Hdi Hfit HQ. unfold memcpy_bytes.
  rewrite (proj2 (Z.leb_le 0 n)), (proj2 (Z.leb_le n _)) by lia. simpl.
  apply wp_bind, (wp_block_of _ _ _ _ Hb).
  assert (List.length (Some <$> take (Z.to_nat n) src) = Z.to_nat n) as Hlen.
  { rewrite length_fmap, length_take. lia. }
  rewrite splice_eq by (rewrite ?Hlen; lia).
  by rewrite Hlen.
Qed.

Lemma wp_SecureZeroMemory b blk n m Q :
  blocks m !! b = Some blk → 0 ≤ n ≤ Z.of_nat (List.length blk) →
  Q () (set_blocks <[b := replicate (Z.to_nat n) (Some zero) ++ drop (Z.to_nat n) blk]> m) →
  wp (SecureZeroMemory (Some b) n) m Q.
Proof.
  intros Hb Hn HQ. unfold SecureZeroMemory.
  apply wp_bind, (wp_block_of _ _ _ _ Hb).
  by rewrite (proj2 (Z.leb_le 0 n)), (proj2 (Z.leb_le n _)) by lia.
Qed.

Lemma wp_free b blk m Q :
  blocks m !! b = Some blk → Q () (set_blocks (delete b) m) → wp (free (Some b)) m Q.
Proof. unfold wp, free. by intros ->. Qed.

Lemma strlen_cells_spec (cs : list ascii) (tl : list cell) :
  zero ∉ cs → strlen_cells ((Some <$> cs) ++ Some zero :: tl) = inr (Z.of_nat (List.length cs)).
Proof.
  induction cs as [|c cs IH]; intros Hz.
  - done.
  - apply not_elem_of_cons in Hz as [Hc Hcs]. specialize (IH Hcs).
    rewrite fmap_cons, <- app_comm_cons. cbn [strlen_cells].
    rewrite bool_decide_eq_false_2 by done.
    rewrite IH. f_equal. simpl List.length. lia.
Qed.

Lemma wp_strlen m p cs Q :
  cstring_at m p cs → Q (Z.of_nat (List.length cs)) m → wp (strlen (Some p)) m Q.
Proof.
  intros (Hz & tl & Hb) HQ. unfold strlen.
  apply wp_bind, (wp_block_of _ _ _ _ Hb).
  by rewrite strlen_cells_spec.
Qed.

(** ** Duplication and the constructors *)

Lemma cstr_strdup_spec m p cs :
  cstring_at m p cs → Z.of_nat (List.length cs) + 1 < SIZE_MOD →
  wp (cstr_strdup (Some p)) m (λ r m',
    objects m' = objects m ∧ trace m' = trace m ∧
    match r with
    | Some b' => granted m ∧ blocks m !! b' = None
                 ∧ blocks m' = <[b' := (Some <$> cs) ++ [Some zero]]> (blocks m)
    | None => ¬ granted m ∧ blocks m' = blocks m
    end).
Proof.
  intros Hcs Hlen. pose proof Hcs as (Hz & tl & Hb).
  pose proof SIZE_MOD_eq as HM. rewrite HM in *.
  unfold cstr_strdup.
  eapply wp_bind, wp_strlen; [exact Hcs|]. norm.
  destruct (granted_dec m) as [Hg|Hg].
  - eapply wp_bind, wp_malloc_grant; [exact Hg|]. intros b' Hfree.
    assert (b' ≠ p) as Hne by congruence.
    eapply wp_bind, wp_memcpy;
      [ exact Hne
      | simpl; rewrite lookup_insert_ne by done; exact Hb
      | simpl; apply lookup_insert_eq
      | lens; lia.. |].
    apply wp_ret. simpl. split_and!; [done..|].
    rewrite insert_insert_eq. f_equal.
    change (Z.to_nat 0) with 0%nat. rewrite drop_0.
    rewrite drop_ge by (lens; lia). rewrite app_nil_r.
    replace (Some zero :: tl) with ([Some zero] ++ tl) by done.
    rewrite app_assoc. apply take_app_length'. lens. lia.
  - eapply wp_bind, wp_malloc_deny; [exact Hg|].
    apply wp_ret. done.
Qed.

Lemma cstr_create_strong m o s0 :
  objects m !! o = Some s0 →
  wp (cstr_create (Some o)) m (λ r m',
    r = bool_decide (granted m)
    ∧ if r then ∃ b, holds m' o b [] 1 ∧ blocks m !! b = None ∧ frame m m' o b
      else objects m' = objects m ∧ blocks m' = blocks m).
Proof.
  intros Ho. unfold cstr_create.
  destruct (granted_dec m) as [Hg|Hg].
  - rewrite (bool_decide_eq_true_2 _ Hg).
    eapply wp_bind, wp_malloc_grant; [exact Hg|]. intros b Hfree.
    eapply wp_bind, wp_store; [simpl; apply lookup_insert_eq|simpl; lia|].
    eapply wp_bind, wp_assign; [exact Ho|].
    eapply wp_bind, wp_assign; [simpl; apply lookup_insert_eq|].
    eapply wp_bind, wp_assign; [simpl; apply lookup_insert_eq|].
    apply wp_bind, wp_emit. apply wp_ret. simpl. split; [done|].
    exists b. split_and!; [|done|].
    + split; [|split; [done|]]; simpl.
      * rewrite !insert_insert_eq. apply lookup_insert_eq.
      * exists []. rewrite insert_insert_eq, lookup_insert_eq. done.
    + split; simpl.
      * intros o2 Hne. by rewrite !lookup_insert_ne.
      * intros p blk Hp Hblk. by rewrite !lookup_insert_ne.
  - rewrite (bool_decide_eq_false_2 _ Hg).
    eapply wp_bind, wp_malloc_deny; [exact Hg|]. by apply wp_ret.
Qed.

Lemma cstr_create_spec m o s0 :
  objects m !! o = Some s0 →
  wp (cstr_create (Some o)) m (λ r m',
    if r then ∃ b, holds m' o b [] 1 ∧ blocks m !! b = None ∧ frame m m' o b
    else objects m' = objects m ∧ blocks m' = blocks m).
Proof.
  intros Ho. eapply wp_mono; [by eapply cstr_create_strong|].
  by intros r m' [_ Hpost].
Qed.

Lemma cstr_create_from_buffer_spec m o s0 bytes size :
  objects m !! o = Some s0 →
  0 ≤ size ≤ Z.of_nat (List.length bytes) → size + 1 < SIZE_MOD →
  wp (cstr_create_from_buffer (Some o) (Some bytes) size) m (λ r m',
    if r then ∃ b, holds m' o b (take (Z.to_nat size) bytes) (size + 1)
                   ∧ blocks m !! b = None ∧ frame m m' o b
    else objects m' = objects m ∧ blocks m' = blocks m).
Proof.
  intros Ho Hsize Hlt. pose proof SIZE_MOD_eq as HM. rewrite HM in *.
  unfold cstr_create_from_buffer. norm.
  destruct (granted_dec m) as [Hg|Hg].
  - eapply wp_bind, wp_malloc_grant; [exact Hg|]. intros b Hfree.
    eapply wp_bind, wp_memcpy_bytes; [simpl; apply lookup_insert_eq|lia|lia|lens; lia|].
    eapply wp_bind, wp_store; [simpl; apply lookup_insert_eq|lens; lia|].
    eapply wp_bind, wp_assign; [exact Ho|].
    eapply wp_bind, wp_assign; [simpl; apply lookup_insert_eq|].
    eapply wp_bind, wp_assign; [simpl; apply lookup_insert_eq|].
    apply wp_bind, wp_emit. apply wp_ret. simpl.
    exists b. split_and!; [|done|].
    + split; [|split; [lia|]]; simpl.
      * rewrite !insert_insert_eq, lookup_insert_eq. unfold with_capacity; simpl.
        do 2 f_equal. rewrite length_take. lia.
      * exists []. rewrite !insert_insert_eq, lookup_insert_eq. split.
        -- f_equal.
           rewrite drop_replicate.
           replace (Z.to_nat (size + 1) - Z.to_nat size)%nat with 1%nat by lia. simpl.
           rewrite insert_app_r_alt by (lens; lia).
           replace (Z.to_nat size - List.length (Some <$> take (Z.to_nat size) bytes))%nat
             with 0%nat by (lens; lia).
           done.
        -- rewrite length_take. simpl. lia.
    + split; simpl.
      * intros o2 Hne. by rewrite !lookup_insert_ne.
      * intros p blk Hp Hblk. by rewrite !lookup_insert_ne.
  - eapply wp_bind, wp_malloc_deny; [exact Hg|]. by apply wp_ret.
Qed.

Lemma cstr_create_from_chars_spec m o s0 p cs :
  objects m !! o = Some s0 →
  cstring_at m p cs → Z.of_nat (List.length cs) + 1 < SIZE_MOD →
  wp (cstr_create_from_chars (Some o) (Some p)) m (λ r m',
    r = true ∧
    if bool_decide (granted m)
    then ∃ b, holds m' o b cs (Z.of_nat (List.length cs) + 1)
              ∧ blocks m !! b = None
              ∧ blocks m' = <[b := (Some <$> cs) ++ [Some zero]]> (blocks m)
              ∧ objects m' = <[o := mkCString (Some b) (Z.of_nat (List.length cs))
                                      (Z.of_nat (List.length cs) + 1)]> (objects m)
    else blocks m' = blocks m
         ∧ objects m' = <[o := mkCString NULL (Z.of_nat (List.length cs))
                                 (Z.of_nat (List.length cs) + 1)]> (objects m)).
Proof.
  intros Ho Hcs Hlen. pose proof SIZE_MOD_eq as HM. rewrite HM in *.
  unfold cstr_create_from_chars.
  eapply wp_seq; [apply cstr_strdup_spec; [exact Hcs|rewrite HM; lia]|].
  intros d m1 (Hobj & Htr & Hd).
  assert (cstring_at m1 p cs) as Hcs1.
  { destruct Hcs as (Hz & tl & Hb). split; [done|]. exists tl.
    destruct d as [b'|].
    - destruct Hd as (_ & Hfree & ->). rewrite lookup_insert_ne; [done|congruence].
    - destruct Hd as [_ ->]. done. }
  eapply wp_bind, wp_assign; [by rewrite Hobj|].
  eapply wp_bind, wp_strlen; [exact Hcs1|].
  eapply wp_bind, wp_assign; [simpl; apply lookup_insert_eq|].
  eapply wp_bind, wp_get_length; [simpl; apply lookup_insert_eq|]. norm.
  eapply wp_bind, wp_assign; [simpl; apply lookup_insert_eq|].
  apply wp_bind, wp_emit. apply wp_ret. simpl. split; [done|].
  rewrite !insert_insert_eq, Hobj.
  destruct d as [b'|].
  - destruct Hd as (Hg & Hfree & Hbl). rewrite bool_decide_eq_true_2 by done.
    exists b'. split_and!; [|done..].
    split; [|split; [lia|]]; simpl.
    + rewrite lookup_insert_eq. do 2 f_equal; lia.
    + exists []. rewrite Hbl, lookup_insert_eq. split; [done|simpl; lia].
  - destruct Hd as [Hg Hbl]. rewrite bool_decide_eq_false_2 by done. done.
Qed.

(** Copy-construction from a source whose content has no zero byte, when
    the duplicate is allocated. *)
Lemma cstr_create_from_cstr_spec m o s0 o2 b2 bs2 cap2 :
  objects m !! o = Some s0 → o ≠ o2 →
  holds m o2 b2 bs2 cap2 → zero ∉ bs2 → granted m →
  wp (cstr_create_from_cstr (Some o) (Some o2)) m (λ r m',
    r = true ∧ ∃ b, blocks m !! b = None
      ∧ objects m' !! o = Some (mkCString (Some b) (Z.of_nat (List.length bs2)) cap2)
      ∧ blocks m' !! b = Some ((Some <$> bs2) ++ [Some zero])
      ∧ holds m' o2 b2 bs2 cap2).
Proof.
  intros Ho Hne Hh Hz Hg. pose proof Hh as (Ho2 & Hcap & tl & Hb & Hcapeq).
  pose proof SIZE_MOD_eq as HM. rewrite HM in *.
  unfold cstr_create_from_cstr.
  eapply wp_bind, wp_get_data; [exact Ho2|]. simpl.
  eapply wp_seq.
  { apply (cstr_strdup_spec _ b2 bs2); [split; eauto|rewrite HM; lia]. }
  intros d m1 (Hobj & Htr & Hd).
  destruct d as [b'|]; [|by destruct Hd].
  destruct Hd as (_ & Hfree & Hbl). unnote.
  eapply wp_bind, wp_assign; [by rewrite Hobj|].
  eapply wp_bind, wp_get_length; [simpl; rewrite lookup_insert_ne, Hobj by done; exact Ho2|].
  eapply wp_bind, wp_assign; [simpl; apply lookup_insert_eq|].
  eapply wp_bind, wp_get_capacity; [simpl; rewrite !lookup_insert_ne, Hobj by done; exact Ho2|].
  eapply wp_bind, wp_assign; [simpl; apply lookup_insert_eq|].
  apply wp_bind, wp_emit. apply wp_ret. simpl. split; [done|].
  exists b'. split_and!; [done| | |].
  - rewrite !insert_insert_eq. apply lookup_insert_eq.
  - rewrite Hbl. apply lookup_insert_eq.
  - split; [|split; [lia|]]; simpl.
    + rewrite !lookup_insert_ne, Hobj by done. exact Ho2.
    + exists tl. rewrite Hbl, lookup_insert_ne by congruence. done.
Qed.

(** When the allocator refuses the duplicate, copy-construction still
    returns true and stores the null pointer. *)
Lemma cstr_create_from_cstr_denied m o s0 o2 b2 bs2 cap2 :
  objects m !! o = Some s0 → o ≠ o2 →
  holds m o2 b2 bs2 cap2 → zero ∉ bs2 → ¬ granted m →
  wp (cstr_create_from_cstr (Some o) (Some o2)) m (λ r m',
    r = true
    ∧ objects m' !! o = Some (mkCString NULL (Z.of_nat (List.length bs2)) cap2)
    ∧ blocks m' = blocks m).
Proof.
  intros Ho Hne Hh Hz Hg. pose proof Hh as (Ho2 & Hcap & tl & Hb & Hcapeq).
  pose proof SIZE_MOD_eq as HM. rewrite HM in *.
  unfold cstr_create_from_cstr.
  eapply wp_bind, wp_get_data; [exact Ho2|]. simpl.
  eapply wp_seq.
  { apply (cstr_strdup_spec _ b2 bs2); [split; eauto|rewrite HM; lia]. }
  intros d m1 (Hobj & Htr & Hd).
  destruct d as [b'|]; [by destruct Hd|].
  destruct Hd as (_ & Hbl).
  eapply wp_bind, wp_assign; [by rewrite Hobj|].
  eapply wp_bind, wp_get_length; [simpl; rewrite lookup_insert_ne, Hobj by done; exact Ho2|].
  eapply wp_bind, wp_assign; [simpl; apply lookup_insert_eq|].
  eapply wp_bind, wp_get_capacity; [simpl; rewrite !lookup_insert_ne, Hobj by done; exact Ho2|].
  eapply wp_bind, wp_assign; [simpl; apply lookup_insert_eq|].
  apply wp_bind, wp_emit. apply wp_ret. simpl.
  split_and!; [done| |done].
  rewrite !insert_insert_eq. apply lookup_insert_eq.
Qed.

(** ** Unchecked access *)

Lemma bind_ok {A B} (c : M A) (k : A → M B) m a m' :
  c m = Ok a m' → (c ≫= k) m = k a m'.
Proof. unfold mbind, M_bind. by intros ->. Qed.

Lemma bind_fault {A B} (c : M A) (k : A → M B) m e :
  c m = Fault e → (c ≫= k) m = Fault e.
Proof. unfold mbind, M_bind. by intros ->. Qed.

Lemma load_out_of_bounds m b (blk : list cell) i :
  blocks m !! b = Some blk → Z.of_nat (List.length blk) ≤ i →
  load (Some b) i m = Fault OutOfBounds.
Proof.
  intros Hb Hi. unfold load. erewrite bind_ok; [|unfold block_of; by rewrite Hb].
  rewrite (proj2 (Z.ltb_ge _ _)) by done. by rewrite andb_false_r.
Qed.

(** [cstr_get] reads [data[index]] whatever the index is. *)
Lemma cstr_get_out_of_bounds m o s b (blk : list cell) index :
  objects m !! o = Some s → data s = Some b → blocks m !! b = Some blk →
  Z.of_nat (List.length blk) ≤ index →
  cstr_get (Some o) index m = Fault OutOfBounds.
Proof.
  intros Ho Hd Hb Hi. unfold cstr_get.
  erewrite bind_ok; [|reflexivity].
  erewrite bind_ok; [|unfold get_data; erewrite bind_ok; [reflexivity|unfold deref; simpl; by rewrite Ho]].
  rewrite Hd. erewrite bind_fault; [done|]. by eapply load_out_of_bounds.
Qed.

(** On an empty buffer [cstr_back] reads offset [SIZE_MAX]. *)
Lemma cstr_back_empty m o b cap :
  holds m o b [] cap → cstr_back (Some o) m = Fault OutOfBounds.
Proof.
  intros (Ho & Hcap & tl & Hb & Hcapeq). rewrite SIZE_MOD_eq in Hcap.
  unfold cstr_back.
  erewrite bind_ok; [|reflexivity].
  erewrite bind_ok; [|unfold get_length; erewrite bind_ok; [reflexivity|unfold deref; simpl; by rewrite Ho]].
  erewrite bind_fault; [done|].
  eapply cstr_get_out_of_bounds; [exact Ho|done|exact Hb|].
  change (wrap (length _ - 1)) with 18446744073709551615.
  subst cap. revert Hcap. simpl List.length. lia.
Qed.

(** ** Shrink, clear, push and pop *)

Lemma cstr_shrink_to_fit_spec m o b bs cap :
  holds m o b bs cap →
  wp (cstr_shrink_to_fit (Some o)) m (λ r m',
    if r then ∃ b', holds m' o b' bs (Z.of_nat (List.length bs) + 1) ∧ frame m m' o b
    else holds m' o b bs cap ∧ frame m m' o b).
Proof.
  intros Hh. pose proof Hh as (Ho & Hcap & tl & Hb & Hcapeq).
  pose proof SIZE_MOD_eq as HM. rewrite HM in *.
  unfold cstr_shrink_to_fit.
  apply wp_bind, wp_lock.
  eapply wp_bind, wp_get_length; [exact Ho|]. norm.
  eapply wp_seq.
  { apply (cstr_resize_spec _ o b bs cap).
    - eapply holds_frame; [exact Hh|done..].
    - rewrite HM. lia. }
  intros [] m1; simpl.
  - intros (b' & Hh' & _ & [Hfo Hfb]).
    apply wp_bind, wp_unlock. apply wp_ret.
    exists b'. split; [by eapply holds_frame|split; simpl; eauto].
  - intros (Hh' & [Hfo Hfb]).
    apply wp_bind, wp_unlock. apply wp_ret.
    split; [by eapply holds_frame|split; simpl; eauto].
Qed.

Lemma cstr_clear_spec m o b bs cap :
  holds m o b bs cap →
  wp (cstr_clear (Some o)) m (λ r m', r = true ∧ holds m' o b [] cap ∧ frame m m' o b).
Proof.
  intros Hh. pose proof Hh as (Ho & Hcap & tl & Hb & Hcapeq).
  unfold cstr_clear.
  apply wp_bind, wp_lock.
  eapply wp_bind, wp_get_data; [exact Ho|].
  eapply wp_bind, wp_get_capacity; [exact Ho|]. simpl.
  eapply wp_bind, wp_SecureZeroMemory; [exact Hb|lens; lia|].
  eapply wp_bind, wp_assign; [exact Ho|].
  apply wp_bind, wp_unlock. apply wp_ret. simpl.
  split_and!; [done| |solve_frame].
  split; [|split; [done|]]; simpl.
  - by rewrite lookup_insert_eq.
  - exists (replicate (List.length bs + List.length tl) (Some zero)).
    rewrite lookup_insert_eq. split.
    + f_equal. rewrite drop_ge by (lens; lia). rewrite app_nil_r.
      subst cap. rewrite Nat2Z.id.
      by replace (List.length bs + 1 + List.length tl)%nat
        with (S (List.length bs + List.length tl)) by lia.
    + lens. lia.
Qed.

Lemma cstr_push_back_char_strong m o b bs cap c :
  holds m o b bs cap → Z.of_nat (List.length bs) + 2 < SIZE_MOD →
  wp (cstr_push_back_char (Some o) c) m (λ r m',
    r = bool_decide (Z.of_nat (List.length bs) + 2 ≤ cap ∨ granted m)
    ∧ if r then ∃ b' cap', holds m' o b' (bs ++ [c]) cap' ∧ frame m m' o b
      else holds m' o b bs cap ∧ frame m m' o b).
Proof.
  intros Hh Hlen. pose proof Hh as (Ho & Hcap & tl & Hb & Hcapeq).
  pose proof SIZE_MOD_eq as HM. rewrite HM in *.
  unfold cstr_push_back_char.
  apply wp_bind, wp_lock.
  eapply wp_bind, wp_get_length; [exact Ho|].
  eapply wp_bind, wp_get_capacity; [exact Ho|]. norm.
  eapply wp_seq.
  { eapply (ensure_capacity_strong _ o b bs cap).
    - eapply holds_frame; [exact Hh|done..].
    - rewrite HM. lia.
    - intros ?%Z.leb_gt. lia. }
  intros ok m1 [Hok Hpost].
  apply (capacity_check_result _ _ m _ (Z.of_nat (List.length bs) + 2 ≤ cap)) in Hok;
    [|done|rewrite Z.leb_gt; lia].
  revert Hpost. destruct ok; simpl.
  - intros (b' & cap' & Hh' & Hneed & _ & Hfresh & Hfo & Hfb).
    destruct Hh' as (Ho' & Hcap' & tl' & Hb' & Hcapeq'). rewrite HM in *.
    eapply wp_bind, wp_get_data; [exact Ho'|].
    eapply wp_bind, wp_get_length; [exact Ho'|]. simpl.
    eapply wp_bind, wp_store; [exact Hb'|lens; lia|]. norm.
    eapply wp_bind, wp_store; [simpl; apply lookup_insert_eq|lens; lia|].
    eapply wp_bind, wp_assign; [exact Ho'|].
    apply wp_bind, wp_unlock. apply wp_ret. simpl. split; [exact Hok|].
    exists b', cap'. split.
    + split; [|split; [lia|]]; simpl.
      * rewrite lookup_insert_eq. unfold with_length; simpl. do 2 f_equal; lens; lia.
      * destruct tl' as [|t tl']; [simpl in *; lia|].
        exists tl'. rewrite insert_insert_eq, lookup_insert_eq. split.
        -- f_equal. rewrite Nat2Z.id.
           rewrite insert_app_r_alt by (lens; lia).
           rewrite length_fmap, Nat.sub_diag. simpl.
           rewrite insert_app_r_alt by (lens; lia).
           replace (Z.to_nat (Z.of_nat (List.length bs) + 1) - List.length (Some <$> bs))%nat
             with 1%nat by (lens; lia).
           simpl. rewrite fmap_app, <- app_assoc. done.
        -- rewrite length_app. simpl in *. lia.
    + split; simpl.
      * intros o2 Hne. rewrite lookup_insert_ne by done. by apply Hfo.
      * intros p blk Hp Hblk. apply Hfb in Hblk as Hblk'; [|done].
        rewrite !lookup_insert_ne; [done|..];
          (destruct Hfresh as [->|Hnone]; [done|congruence]).
  - intros (Hh' & _ & Hfo & Hfb).
    apply wp_bind, wp_unlock. apply wp_ret. split; [exact Hok|].
    split; [by eapply holds_frame|split; simpl; eauto].
Qed.

Lemma cstr_push_back_char_spec m o b bs cap c :
  holds m o b bs cap → Z.of_nat (List.length bs) + 2 < SIZE_MOD →
  wp (cstr_push_back_char (Some o) c) m (λ r m',
    if r then ∃ b' cap', holds m' o b' (bs ++ [c]) cap' ∧ frame m m' o b
    else holds m' o b bs cap ∧ frame m m' o b).
Proof.
  intros Hh Hlen. eapply wp_mono; [by apply cstr_push_back_char_strong|].
  by intros r m' [_ Hpost].
Qed.

Lemma cstr_pop_back_spec m o b bs cap :
  holds m o b bs cap →
  wp (cstr_pop_back (Some o)) m (λ r m',
    if r then ∃ bs' c, bs = bs' ++ [c] ∧ holds m' o b bs' cap ∧ frame m m' o b
    else bs = [] ∧ holds m' o b bs cap ∧ frame m m' o b).
Proof.
  intros Hh. pose proof Hh as (Ho & Hcap & tl & Hb & Hcapeq).
  pose proof SIZE_MOD_eq as HM. rewrite HM in *.
  unfold cstr_pop_back.
  apply wp_bind, wp_lock.
  eapply wp_bind, wp_get_length; [exact Ho|]. simpl.
  destruct bs as [|c0 bs0] using rev_ind.
  - norm. apply wp_bind, wp_unlock. apply wp_ret.
    split_and!; [done|by eapply holds_frame|by apply frame_refl].
  - clear IHbs0. rewrite length_app in *. simpl in *. norm.
    eapply wp_bind, wp_get_data; [exact Ho|]. simpl.
    eapply wp_bind, wp_store; [exact Hb|lens; lia|].
    eapply wp_bind, wp_assign; [exact Ho|].
    apply wp_bind, wp_unlock. apply wp_ret. simpl.
    exists bs0, c0. split_and!; [done| |solve_frame].
    split; [|split; [lia|]]; simpl.
    + rewrite lookup_insert_eq. unfold with_length; simpl. do 2 f_equal; lia.
    + exists (Some zero :: tl). rewrite lookup_insert_eq. split.
      * f_equal. rewrite fmap_app, <- app_assoc. simpl.
        rewrite insert_app_r_alt by (lens; lia).
        replace (Z.to_nat (Z.of_nat (List.length bs0 + 1) - 1) - List.length (Some <$> bs0))%nat
          with 0%nat by (lens; lia).
        done.
      * simpl. lia.
Qed.

(** ** Append *)

(** Copying [C] behind the content [A] and terminating it again. *)
Lemma append_cells {X} (A C T : list X) (x z : X) (i n : nat) :
  i = List.length A → n = List.length C → (n ≤ List.length T)%nat →
  <[(i + n)%nat := z]> (take i (A ++ x :: T) ++ C ++ drop (i + n)%nat (A ++ x :: T))
  = A ++ C ++ z :: drop n T.
Proof.
  intros -> -> Hn.
  rewrite take_app_length, drop_app_add' by done.
  rewrite insert_app_r_alt by lia.
  replace (List.length A + List.length C - List.length A)%nat with (List.length C) by lia.
  f_equal.
  rewrite insert_app_r_alt by lia. rewrite Nat.sub_diag. f_equal.
  destruct C as [|c C]; simpl; [done|].
  simpl in Hn. destruct (drop (List.length C) T) as [|t T'] eqn:E.
  { apply (f_equal List.length) in E. rewrite length_drop in E. simpl in E. lia. }
  simpl. f_equal.
  replace (S (List.length C)) with (List.length C + 1)%nat by lia.
  rewrite <- drop_drop, E. done.
Qed.

Lemma cstr_append_chars_strong m o b bs cap p cs :
  holds m o b bs cap → cstring_at m p cs → p ≠ b →
  Z.of_nat (List.length bs + List.length cs) + 1 < SIZE_MOD →
  wp (cstr_append_chars (Some o) (Some p)) m (λ r m',
    r = bool_decide (Z.of_nat (List.length bs + List.length cs) + 1 ≤ cap ∨ granted m)
    ∧ if r then ∃ b' cap', holds m' o b' (bs ++ cs) cap' ∧ frame m m' o b
      else holds m' o b bs cap ∧ frame m m' o b).
Proof.
  intros Hh Hcs Hpb Hlen. pose proof Hh as (Ho & Hcap & tl & Hb & Hcapeq).
  pose proof Hcs as (Hz & tlp & Hp).
  pose proof SIZE_MOD_eq as HM. rewrite HM in *.
  unfold cstr_append_chars.
  apply wp_bind, wp_lock.
  eapply wp_bind, wp_strlen; [split; [exact Hz|exists tlp; exact Hp]|].
  eapply wp_bind, wp_get_length; [exact Ho|].
  eapply wp_bind, wp_get_capacity; [exact Ho|]. norm.
  eapply wp_seq.
  { eapply (ensure_capacity_strong _ o b bs cap).
    - eapply holds_frame; [exact Hh|done..].
    - rewrite HM. lia.
    - intros ?%Z.ltb_ge. lia. }
  intros ok m1 [Hok Hpost].
  apply (capacity_check_result _ _ m _
           (Z.of_nat (List.length bs + List.length cs) + 1 ≤ cap)) in Hok;
    [|done|rewrite Z.ltb_ge; lia].
  revert Hpost. destruct ok; simpl.
  - intros (b' & cap' & Hh' & Hneed & _ & Hfresh & Hfo & Hfb).
    destruct Hh' as (Ho' & Hcap' & tl' & Hb' & Hcapeq'). rewrite HM in *.
    assert (b' ≠ p) as Hne by (destruct Hfresh as [->|Hnone]; [done|simpl in *; congruence]).
    apply Hfb in Hp as Hp'; [|done].
    eapply wp_bind, wp_get_data; [exact Ho'|].
    eapply wp_bind, wp_get_length; [exact Ho'|]. simpl.
    eapply wp_bind, wp_memcpy; [exact Hne|exact Hp'|exact Hb'|lens; lia..|].
    eapply wp_bind, wp_store; [simpl; apply lookup_insert_eq|lens; lia|].
    eapply wp_bind, wp_assign; [exact Ho'|].
    apply wp_bind, wp_unlock. apply wp_ret. simpl. split; [exact Hok|].
    exists b', cap'. split.
    + split; [|split; [lia|]]; simpl.
      * rewrite lookup_insert_eq. unfold with_length; simpl. do 2 f_equal; lens; lia.
      * exists (drop (List.length cs) tl'). rewrite insert_insert_eq, lookup_insert_eq. split.
        -- f_equal. rewrite drop_0.
           rewrite (take_app_length' (Some <$> cs)) by (lens; lia).
           replace (Z.to_nat (Z.of_nat (List.length bs) + Z.of_nat (List.length cs)))
             with (Z.to_nat (Z.of_nat (List.length bs)) + Z.to_nat (Z.of_nat (List.length cs)))%nat
             by lia.
           rewrite append_cells by (lens; lia).
           rewrite Nat2Z.id, fmap_app, <- app_assoc. done.
        -- lens. lia.
    + split; simpl.
      * intros o2 Hne2. rewrite lookup_insert_ne by done. by apply Hfo.
      * intros q blk Hq Hblk. apply Hfb in Hblk as Hblk'; [|done].
        rewrite !lookup_insert_ne; [done|..];
          (destruct Hfresh as [->|Hnone]; [done|simpl in *; congruence]).
  - intros (Hh' & _ & Hfo & Hfb).
    apply wp_bind, wp_unlock. apply wp_ret. split; [exact Hok|].
    split; [by eapply holds_frame|split; simpl; eauto].
Qed.

Lemma cstr_append_chars_spec m o b bs cap p cs :
  holds m o b bs cap → cstring_at m p cs → p ≠ b →
  Z.of_nat (List.length bs + List.length cs) + 1 < SIZE_MOD →
  wp (cstr_append_chars (Some o) (Some p)) m (λ r m',
    if r then ∃ b' cap', holds m' o b' (bs ++ cs) cap' ∧ frame m m' o b
    else holds m' o b bs cap ∧ frame m m' o b).
Proof.
  intros Hh Hcs Hpb Hlen. eapply wp_mono; [by apply cstr_append_chars_strong|].
  by intros r m' [_ Hpost].
Qed.

Lemma holds_framed m m' o b o2 b2 bs2 cap2 :
  frame m m' o b → o2 ≠ o → b2 ≠ b → holds m o2 b2 bs2 cap2 → holds m' o2 b2 bs2 cap2.
Proof.
  intros [Hfo Hfb] Hno Hnb (Ho & Hcap & tl & Hb & Hcapeq).
  split; [by rewrite Hfo|split; [done|]]. exists tl. split; [by apply Hfb|done].
Qed.

Lemma cstr_append_cstr_spec m o b bs cap o2 b2 bs2 cap2 :
  holds m o b bs cap → holds m o2 b2 bs2 cap2 → o2 ≠ o → b2 ≠ b →
  Z.of_nat (List.length bs + List.length bs2) + 1 < SIZE_MOD →
  wp (cstr_append_cstr (Some o) (Some o2)) m (λ r m',
    (if r then ∃ b' cap', holds m' o b' (bs ++ bs2) cap'
     else holds m' o b bs cap) ∧ holds m' o2 b2 bs2 cap2).
Proof.
  intros Hh Hh2 Hno Hnb Hlen. pose proof Hh as (Ho & Hcap & tl & Hb & Hcapeq).
  pose proof Hh2 as (Ho2 & _).
  pose proof SIZE_MOD_eq as HM. rewrite HM in *.
  unfold cstr_append_cstr.
  apply wp_bind, wp_lock.
  eapply wp_bind, wp_get_length; [exact Ho|].
  eapply wp_bind, wp_get_length; [exact Ho2|].
  eapply wp_bind, wp_get_capacity; [exact Ho|]. norm.
  eapply wp_seq.
  { eapply (ensure_capacity_spec _ o b bs cap).
    - eapply holds_frame; [exact Hh|done..].
    - rewrite HM. lia.
    - intros ?%Z.ltb_ge. lia. }
  intros [] m1; simpl.
  - intros (b' & cap' & Hh' & Hneed & _ & Hfresh & Hfr).
    assert (holds m1 o2 b2 bs2 cap2) as Hh2'.
    { eapply holds_framed; [exact Hfr|done..|]. eapply holds_frame; [exact Hh2|done..]. }
    destruct Hh' as (Ho' & Hcap' & tl' & Hb' & Hcapeq'). rewrite HM in *.
    destruct Hh2' as (Ho2' & Hcap2' & tl2 & Hb2' & Hcapeq2').
    assert (b' ≠ b2) as Hne.
    { destruct Hfresh as [->|Hnone]; [done|]. destruct Hh2 as (_ & _ & ? & ? & _).
      simpl in *. congruence. }
    eapply wp_bind, wp_get_data; [exact Ho'|].
    eapply wp_bind, wp_get_length; [exact Ho'|].
    eapply wp_bind, wp_get_data; [exact Ho2'|].
    eapply wp_bind, wp_get_length; [exact Ho2'|]. simpl.
    eapply wp_bind, wp_memcpy; [exact Hne|exact Hb2'|exact Hb'|lens; lia..|].
    eapply wp_bind, wp_store; [simpl; apply lookup_insert_eq|lens; lia|].
    eapply wp_bind, wp_assign; [exact Ho'|].
    apply wp_bind, wp_unlock. apply wp_ret. simpl.
    split.
    + exists b', cap'.
      split; [|split; [lia|]]; simpl.
      * rewrite lookup_insert_eq. unfold with_length; simpl. do 2 f_equal; lens; lia.
      * exists (drop (List.length bs2) tl'). rewrite insert_insert_eq, lookup_insert_eq. split.
        -- f_equal. rewrite drop_0.
           rewrite (take_app_length' (Some <$> bs2)) by (lens; lia).
           replace (Z.to_nat (Z.of_nat (List.length bs) + Z.of_nat (List.length bs2)))
             with (Z.to_nat (Z.of_nat (List.length bs)) + Z.to_nat (Z.of_nat (List.length bs2)))%nat
             by lia.
           rewrite append_cells by (lens; lia).
           rewrite Nat2Z.id, fmap_app, <- app_assoc. done.
        -- lens. lia.
    + split; [|split; [done|]]; simpl.
      * by rewrite lookup_insert_ne.
      * exists tl2. rewrite !lookup_insert_ne by done. done.
  - intros (Hh' & _ & Hfr).
    apply wp_bind, wp_unlock. apply wp_ret. split.
    + by eapply holds_frame.
    + eapply holds_frame; [|done..].
      eapply holds_framed; [exact Hfr|done..|]. eapply holds_frame; [exact Hh2|done..].
Qed.

Lemma cstr_append_self_spec m o b bs cap :
  holds m o b bs cap →
  Z.of_nat (List.length bs + List.length bs) + 1 < SIZE_MOD →
  wp (cstr_append_cstr (Some o) (Some o)) m (λ r m',
    if r then ∃ b' cap', holds m' o b' (bs ++ bs) cap' ∧ frame m m' o b
    else holds m' o b bs cap ∧ frame m m' o b).
Proof.
  intros Hh Hlen. pose proof Hh as (Ho & Hcap & tl & Hb & Hcapeq).
  pose proof SIZE_MOD_eq as HM. rewrite HM in *.
  unfold cstr_append_cstr.
  apply wp_bind, wp_lock.
  eapply wp_bind, wp_get_length; [exact Ho|].
  eapply wp_bind, wp_get_length; [exact Ho|].
  eapply wp_bind, wp_get_capacity; [exact Ho|]. norm.
  eapply wp_seq.
  { eapply (ensure_capacity_spec _ o b bs cap).
    - eapply holds_frame; [exact Hh|done..].
    - rewrite HM. lia.
    - intros ?%Z.ltb_ge. lia. }
  intros [] m1; simpl.
  - intros (b' & cap' & Hh' & Hneed & _ & Hfresh & Hfo & Hfb).
    destruct Hh' as (Ho' & Hcap' & tl' & Hb' & Hcapeq'). rewrite HM in *.
    eapply wp_bind, wp_get_data; [exact Ho'|].
    eapply wp_bind, wp_get_length; [exact Ho'|].
    eapply wp_bind, wp_get_data; [exact Ho'|].
    eapply wp_bind, wp_get_length; [exact Ho'|]. simpl.
    eapply wp_bind, wp_memcpy_self; [lia|exact Hb'|lens; lia..|].
    eapply wp_bind, wp_store; [simpl; apply lookup_insert_eq|lens; lia|].
    eapply wp_bind, wp_assign; [exact Ho'|].
    apply wp_bind, wp_unlock. apply wp_ret. simpl.
    exists b', cap'. split.
    + split; [|split; [lia|]]; simpl.
      * rewrite lookup_insert_eq. unfold with_length; simpl. do 2 f_equal; lens; lia.
      * exists (drop (List.length bs) tl'). rewrite insert_insert_eq, lookup_insert_eq. split.
        -- f_equal. rewrite drop_0.
           rewrite (take_app_length' (Some <$> bs) (Some zero :: tl')) at 2 by (lens; lia).
           replace (Z.to_nat (Z.of_nat (List.length bs) + Z.of_nat (List.length bs)))
             with (Z.to_nat (Z.of_nat (List.length bs)) + Z.to_nat (Z.of_nat (List.length bs)))%nat
             by lia.
           rewrite append_cells by (lens; lia).
           rewrite Nat2Z.id, fmap_app, <- app_assoc. done.
        -- lens. lia.
    + split; simpl.
      * intros o2 Hne2. rewrite lookup_insert_ne by done. by apply Hfo.
      * intros q blk Hq Hblk. apply Hfb in Hblk as Hblk'; [|done].
        rewrite !lookup_insert_ne; [done|..];
          (destruct Hfresh as [->|Hnone]; [done|simpl in *; congruence]).
  - intros (Hh' & _ & Hfo & Hfb).
    apply wp_bind, wp_unlock. apply wp_ret.
    split; [by eapply holds_frame|split; simpl; eauto].
Qed.

(** ** Swap *)

Lemma cstr_swap_spec m o o2 s s2 :
  objects m !! o = Some s → objects m !! o2 = Some s2 → o ≠ o2 →
  wp (cstr_swap (Some o) (Some o2)) m (λ r m',
    r = true
    ∧ objects m' = <[o2 := s]> (<[o := s2]> (objects m))
    ∧ blocks m' = blocks m ∧ plan m' = plan m
    ∧ trace m' = trace m ++ [Enter o; Enter o2;
                             Read o; Read o2; Write o; Write o2;
                             Read o; Read o2; Write o; Write o2;
                             Read o; Read o2; Write o; Write o2;
                             Leave o2; Leave o]).
Proof.
  intros Ho Ho2 Hne. unfold cstr_swap.
  apply wp_bind, wp_lock. apply wp_bind, wp_lock.
  eapply wp_bind, wp_get_data; [exact Ho|].
  eapply wp_bind, wp_get_data; [exact Ho2|].
  eapply wp_bind, wp_assign; [exact Ho|].
  eapply wp_bind, wp_assign; [lk|].
  eapply wp_bind, wp_get_length; [lk|].
  eapply wp_bind, wp_get_length; [lk|].
  eapply wp_bind, wp_assign; [lk|].
  eapply wp_bind, wp_assign; [lk|].
  eapply wp_bind, wp_get_capacity; [lk|].
  eapply wp_bind, wp_get_capacity; [lk|].
  eapply wp_bind, wp_assign; [lk|].
  eapply wp_bind, wp_assign; [lk|].
  apply wp_bind, wp_unlock. apply wp_bind, wp_unlock. apply wp_ret. simpl.
  split_and!; [done| |done|done|by rewrite <- !app_assoc].
  destruct s, s2. unfold with_data, with_length, with_capacity. simpl.
  apply map_eq. intros k.
  destruct (decide (k = o2)) as [->|Hk2]; [by lk|].
  destruct (decide (k = o)) as [->|Hk]; by lk.
Qed.

Lemma cstr_swap_self_spec m o s :
  objects m !! o = Some s →
  wp (cstr_swap (Some o) (Some o)) m (λ r m',
    r = true ∧ objects m' = objects m ∧ blocks m' = blocks m ∧ plan m' = plan m
    ∧ trace m' = trace m ++ [Enter o; Enter o;
                             Read o; Read o; Write o; Write o;
                             Read o; Read o; Write o; Write o;
                             Read o; Read o; Write o; Write o;
                             Leave o; Leave o]).
Proof.
  intros Ho. unfold cstr_swap.
  apply wp_bind, wp_lock. apply wp_bind, wp_lock.
  eapply wp_bind, wp_get_data; [exact Ho|].
  eapply wp_bind, wp_get_data; [exact Ho|].
  eapply wp_bind, wp_assign; [exact Ho|].
  eapply wp_bind, wp_assign; [lk|].
  eapply wp_bind, wp_get_length; [lk|].
  eapply wp_bind, wp_get_length; [lk|].
  eapply wp_bind, wp_assign; [lk|].
  eapply wp_bind, wp_assign; [lk|].
  eapply wp_bind, wp_get_capacity; [lk|].
  eapply wp_bind, wp_get_capacity; [lk|].
  eapply wp_bind, wp_assign; [lk|].
  eapply wp_bind, wp_assign; [lk|].
  apply wp_bind, wp_unlock. apply wp_bind, wp_unlock. apply wp_ret. simpl.
  split_and!; [done| |done|done|by rewrite <- !app_assoc].
  rewrite !insert_insert_eq. destruct s. by apply insert_id.
Qed.

(** ** Trim *)

Lemma cells_lookup (bs : list ascii) (rest : list cell) i c :
  bs !! i = Some c → ((Some <$> bs) ++ rest) !! i = Some (Some c).
Proof.
  intros Hc. rewrite lookup_app_l by (rewrite length_fmap; by eapply lookup_lt_Some).
  by rewrite list_lookup_fmap, Hc.
Qed.

Lemma trim_front_spec m b bs rest e fuel : ∀ start,
  blocks m !! b = Some ((Some <$> bs) ++ rest) →
  0 ≤ start ≤ e + 1 → e + 1 ≤ Z.of_nat (List.length bs) → e + 1 < SIZE_MOD →
  (Z.to_nat (e + 1 - start) < fuel)%nat →
  wp (trim_front fuel (Some b) start e) m (λ r m',
    m' = m ∧ start ≤ r ≤ e + 1
    ∧ (r ≤ e → ∃ c, bs !! Z.to_nat r = Some c ∧ isspace c = false)).
Proof.
  induction fuel as [|fuel IH]; intros start Hb Hs He Hmod Hfuel; [lia|].
  simpl. destruct (Z.leb_spec start e) as [Hle|Hgt].
  - destruct (lookup_lt_is_Some_2 bs (Z.to_nat start)) as [c Hc]; [lia|].
    eapply wp_bind, wp_load; [exact Hb|lia|by apply cells_lookup|].
    destruct (isspace c) eqn:Hsp.
    + rewrite wrap_small by lia.
      eapply wp_mono; [apply IH; [done|lia..]|].
      intros r m' (-> & Hr & Hns). split; [done|split; [lia|done]].
    + apply wp_ret. split; [done|split; [lia|eauto]].
  - apply wp_ret. split; [done|split; [lia|lia]].
Qed.

Lemma trim_back_spec m b bs rest start c0 fuel : ∀ e,
  blocks m !! b = Some ((Some <$> bs) ++ rest) →
  0 ≤ start ≤ e → e < Z.of_nat (List.length bs) → e < SIZE_MOD →
  bs !! Z.to_nat start = Some c0 → isspace c0 = false →
  (Z.to_nat (e - start) < fuel)%nat →
  wp (trim_back fuel (Some b) start e) m (λ r m', m' = m ∧ start ≤ r ≤ e).
Proof.
  induction fuel as [|fuel IH]; intros e Hb Hs He Hmod Hc0 Hns Hfuel; [lia|].
  simpl. rewrite Z.geb_leb, (proj2 (Z.leb_le start e)) by lia.
  destruct (lookup_lt_is_Some_2 bs (Z.to_nat e)) as [c Hc]; [lia|].
  eapply wp_bind, wp_load; [exact Hb|lia|by apply cells_lookup|].
  destruct (isspace c) eqn:Hsp.
  - assert (start ≠ e) as Hne by (intros ->; congruence).
    rewrite wrap_small by lia.
    eapply wp_mono; [apply IH; [done|lia..|done|done|lia]|].
    intros r m' (-> & Hr). split; [done|lia].
  - apply wp_ret. split; [done|lia].
Qed.

(** The cells after the optional move and the new terminator. *)
Lemma trim_cells (bs : list ascii) (tl : list cell) (s nl : nat) :
  (s + nl ≤ List.length bs)%nat →
  <[nl := Some zero]> (take nl (drop s ((Some <$> bs) ++ Some zero :: tl))
                         ++ drop nl ((Some <$> bs) ++ Some zero :: tl))
  = (Some <$> take nl (drop s bs))
      ++ Some zero :: drop (S nl) ((Some <$> bs) ++ Some zero :: tl).
Proof.
  intros Hle. set (blk := (Some <$> bs) ++ Some zero :: tl).
  assert (take nl (drop s blk) = Some <$> take nl (drop s bs)) as ->.
  { subst blk. rewrite drop_app_le by (rewrite length_fmap; lia).
    rewrite take_app_le by (rewrite length_drop, length_fmap; lia).
    by rewrite fmap_take, fmap_drop. }
  rewrite insert_app_r_alt by (rewrite length_fmap, length_take, length_drop; lia).
  replace (nl - List.length (Some <$> take nl (drop s bs)))%nat with 0%nat
    by (rewrite length_fmap, length_take, length_drop; lia).
  f_equal.
  destruct (drop nl blk) as [|x rest] eqn:E.
  { apply (f_equal List.length) in E. subst blk.
    rewrite length_drop, length_app, length_fmap in E. simpl in E. lia. }
  simpl. f_equal.
  replace (S nl) with (nl + 1)%nat by lia. by rewrite <- drop_drop, E.
Qed.

Lemma cstr_trim_spec m o b bs cap :
  holds m o b bs cap →
  wp (cstr_trim (Some o)) m (λ r m',
    r = negb (bool_decide (bs = []))
    ∧ ∃ s n, holds m' o b (take n (drop s bs)) cap ∧ frame m m' o b).
Proof.
  intros Hh. pose proof Hh as (Ho & Hcap & tl & Hb & Hcapeq).
  pose proof SIZE_MOD_eq as HM.
  unfold cstr_trim.
  apply wp_bind, wp_lock.
  eapply wp_bind, wp_get_length; [exact Ho|]. cbn [length].
  destruct bs as [|c0 bs0] eqn:Ebs.
  { simpl. apply wp_bind, wp_unlock. apply wp_ret. split; [done|].
    exists 0%nat, 0%nat. split; [by eapply holds_frame|by apply frame_refl]. }
  rewrite <- Ebs in *. assert (0 < List.length bs)%nat as Hpos by (subst bs; simpl; lia).
  replace (bool_decide (bs = [])) with false by (subst bs; done).
  clear Ebs c0 bs0.
  rewrite (proj2 (Z.eqb_neq _ 0)) by lia.
  eapply wp_bind, wp_get_data; [exact Ho|]. cbn [data].
  rewrite (wrap_small (Z.of_nat (List.length bs) - 1)) by lia.
  name_mem m0.
  eapply wp_seq.
  { apply (trim_front_spec m0 b bs (Some zero :: tl) (Z.of_nat (List.length bs) - 1));
      [exact Hb|lia..]. }
  intros start m1 (-> & Hstart & Hns).
  (* the result of the backward scan and the new length *)
  eapply (wp_seq _ _ _ (λ e m1, m1 = m0
            ∧ ∃ nl : Z, 0 ≤ nl ∧ start + nl ≤ Z.of_nat (List.length bs)
                ∧ (if start <=? e then wrap (wrap (e - start) + 1) else 0) = nl)).
  { destruct (Z.le_gt_cases start (Z.of_nat (List.length bs) - 1)) as [Hle|Hgt].
    - destruct (Hns Hle) as (c & Hc & Hsp).
      eapply wp_mono.
      { eapply trim_back_spec; [exact Hb|lia|lia|lia|exact Hc|exact Hsp|lia]. }
      intros e m1 (-> & He). split; [done|].
      exists (e - start + 1). rewrite (proj2 (Z.leb_le start e)) by lia.
      unwrap. lia.
    - assert (∀ f, trim_back (S f) (Some b) start (Z.of_nat (List.length bs) - 1)
                   = mret (Z.of_nat (List.length bs) - 1)) as Heq.
      { intros f. simpl. by rewrite Z.geb_leb, (proj2 (Z.leb_gt _ _)) by lia. }
      rewrite Heq. apply wp_ret. split; [done|].
      exists 0. rewrite (proj2 (Z.leb_gt _ _)) by lia. lia. }
  intros e m1 (-> & nl & Hnl0 & Hnl & ->).
  set (blk := (Some <$> bs) ++ Some zero :: tl) in *.
  assert (Z.of_nat (List.length blk) = cap) as Hblk by (subst blk; lens; lia).
  eapply (wp_seq _ _ _ (λ _ m1, objects m1 = objects m ∧
            blocks m1 = <[b := take (Z.to_nat nl) (drop (Z.to_nat start) blk)
                                 ++ drop (Z.to_nat nl) blk]> (blocks m))).
  { destruct (Z.ltb_spec 0 start) as [Hlt|Hge]; rewrite Z.gtb_ltb.
    - rewrite (proj2 (Z.ltb_lt 0 start)) by lia.
      eapply wp_memmove; [exact Hb|exact Hb|lia..|]. simpl. done.
    - rewrite (proj2 (Z.ltb_ge 0 start)) by lia.
      apply wp_ret. split; [done|]. simpl.
      replace start with 0 by lia. change (Z.to_nat 0) with 0%nat.
      rewrite drop_0, take_drop. by rewrite insert_id. }
  intros _ m1 (Hobj & Hbl).
  eapply wp_bind, wp_store; [rewrite Hbl; apply lookup_insert_eq|lens; lia|].
  eapply wp_bind, wp_assign; [simpl; rewrite Hobj; exact Ho|].
  apply wp_bind, wp_unlock. apply wp_ret. simpl. split; [done|].
  exists (Z.to_nat start), (Z.to_nat nl). split.
  - split; [|split; [done|]]; simpl.
    + rewrite lookup_insert_eq. unfold with_length; simpl.
      do 2 f_equal; rewrite length_take, length_drop; lia.
    + exists (drop (S (Z.to_nat nl)) blk). rewrite lookup_insert_eq. split.
      * f_equal. subst blk. apply trim_cells. lia.
      * rewrite length_take, !length_drop. lia.
  - split; simpl.
    + intros o2 Hne. rewrite lookup_insert_ne by done. by rewrite Hobj.
    + intros p blk' Hp Hblk'. by rewrite lookup_insert_ne, Hbl, lookup_insert_ne.
Qed.

(** ** Tokenizers *)

Lemma strchr_cases ds c :
  zero ∈ ds →
  (∃ i, strchr_bytes ds c = Some (Some i) ∧ is_delim ds c = true)
  ∨ (strchr_bytes ds c = Some None ∧ is_delim ds c = false).
Proof.
  unfold is_delim. induction ds as [|x ds IH]; intros Hz.
  - by apply elem_of_nil in Hz.
  - simpl. case_bool_decide as Hx; [left; eauto|].
    case_bool_decide as Hx0; [by right|].
    apply elem_of_cons in Hz as [Hz|Hz]; [congruence|].
    destruct (IH Hz) as [(i & -> & _)|[-> _]]; [left; eauto|by right].
Qed.

(** The terminator of the delimiter string makes the zero byte a
    delimiter, whatever the string holds. *)
Lemma zero_is_delim ds : zero ∈ ds → is_delim ds zero = true.
Proof.
  unfold is_delim. induction ds as [|x ds IH]; intros Hz.
  - by apply elem_of_nil in Hz.
  - simpl. case_bool_decide as Hx; [done|].
    apply elem_of_cons in Hz as [Hz|Hz]; [congruence|].
    specialize (IH Hz). by destruct (strchr_bytes ds zero) as [[?|]|].
Qed.

Lemma wp_strchr ds c m Q :
  zero ∈ ds →
  (∀ r, bool_decide (is_Some r) = is_delim ds c → Q r m) → wp (strchr ds c) m Q.
Proof.
  intros Hz HQ. unfold strchr.
  destruct (strchr_cases ds c Hz) as [(i & -> & Hd)|[-> Hd]]; apply wp_ret, HQ; by rewrite Hd.
Qed.

Lemma skip_delimiters_spec m b bs rest ds len fuel : ∀ pos,
  blocks m !! b = Some ((Some <$> bs) ++ rest) → zero ∈ ds →
  len = Z.of_nat (List.length bs) → len < SIZE_MOD →
  0 ≤ pos ≤ len → (Z.to_nat (len - pos) < fuel)%nat →
  wp (skip_delimiters fuel (Some b) ds len pos) m (λ r m',
    m' = m ∧ pos ≤ r ≤ len
    ∧ (∀ i c, pos ≤ i < r → bs !! Z.to_nat i = Some c → is_delim ds c = true)
    ∧ (r < len → ∃ c, bs !! Z.to_nat r = Some c ∧ is_delim ds c = false)).
Proof.
  induction fuel as [|fuel IH]; intros pos Hb Hz Hlen Hmod Hpos Hfuel; [lia|].
  simpl. destruct (Z.ltb_spec pos len) as [Hlt|Hge].
  - destruct (lookup_lt_is_Some_2 bs (Z.to_nat pos)) as [c Hc]; [lia|].
    eapply wp_bind, wp_load; [exact Hb|lia|by apply cells_lookup|].
    eapply wp_bind, wp_strchr; [done|]. intros r Hr.
    destruct r as [i|]; simpl in Hr.
    + rewrite wrap_small by lia.
      eapply wp_mono; [apply IH; [done..|lia|lia]|].
      intros r m' (-> & Hr' & Hall & Hstop).
      split; [done|]. split; [lia|]. split; [|done].
      intros j cj Hj Hcj. destruct (decide (j = pos)) as [->|Hne].
      * by simplify_eq.
      * apply (Hall j cj); [lia|done].
    + apply wp_ret. split; [done|]. split; [lia|]. split; [intros; lia|]. eauto.
  - apply wp_ret. split; [done|]. split; [lia|]. split; intros; lia.
Qed.

Lemma skip_token_spec m b bs rest ds len fuel : ∀ pos,
  blocks m !! b = Some ((Some <$> bs) ++ rest) → zero ∈ ds →
  len = Z.of_nat (List.length bs) → len < SIZE_MOD →
  0 ≤ pos ≤ len → (Z.to_nat (len - pos) < fuel)%nat →
  wp (skip_token fuel (Some b) ds len pos) m (λ r m',
    m' = m ∧ pos ≤ r ≤ len
    ∧ (∀ i c, pos ≤ i < r → bs !! Z.to_nat i = Some c → is_delim ds c = false)
    ∧ (r < len → ∃ c, bs !! Z.to_nat r = Some c ∧ is_delim ds c = true)).
Proof.
  induction fuel as [|fuel IH]; intros pos Hb Hz Hlen Hmod Hpos Hfuel; [lia|].
  simpl. destruct (Z.ltb_spec pos len) as [Hlt|Hge].
  - destruct (lookup_lt_is_Some_2 bs (Z.to_nat pos)) as [c Hc]; [lia|].
    eapply wp_bind, wp_load; [exact Hb|lia|by apply cells_lookup|].
    eapply wp_bind, wp_strchr; [done|]. intros r Hr.
    destruct r as [i|]; simpl in Hr.
    + apply wp_ret. split; [done|]. split; [lia|]. split; [intros; lia|]. eauto.
    + rewrite wrap_small by lia.
      eapply wp_mono; [apply IH; [done..|lia|lia]|].
      intros r m' (-> & Hr' & Hall & Hstop).
      split; [done|]. split; [lia|]. split; [|done].
      intros j cj Hj Hcj. destruct (decide (j = pos)) as [->|Hne].
      * by simplify_eq.
      * apply (Hall j cj); [lia|done].
  - apply wp_ret. split; [done|]. split; [lia|]. split; intros; lia.
Qed.

(** What the C string functions see of a terminated copy of [l]. *)
Lemma cprefix_no_zero l : zero ∉ cprefix l.
Proof.
  induction l as [|c l IH]; simpl; [apply not_elem_of_nil|].
  case_bool_decide; [apply not_elem_of_nil|].
  apply not_elem_of_cons. split; [congruence|done].
Qed.

Lemma cprefix_cells l :
  ∃ tl, (Some <$> l) ++ [Some zero] = (Some <$> cprefix l) ++ Some zero :: tl.
Proof.
  induction l as [|c l [tl IH]]; simpl; [by exists []|].
  case_bool_decide as Hc.
  - subst c. by exists ((Some <$> l) ++ [Some zero]).
  - exists tl. simpl. f_equal. exact IH.
Qed.

Lemma cprefix_id l : zero ∉ l → cprefix l = l.
Proof.
  induction l as [|c l IH]; intros Hz; simpl; [done|].
  apply not_elem_of_cons in Hz as [Hc Hl].
  rewrite bool_decide_eq_false_2 by done. by rewrite IH.
Qed.

Lemma cprefix_length l : (List.length (cprefix l) ≤ List.length l)%nat.
Proof.
  induction l as [|c l IH]; simpl; [done|]. case_bool_decide; simpl; lia.
Qed.

Lemma grants_granted n m : grants (S n) m → granted m.
Proof.
  unfold grants, granted, next_decision. destruct (plan m) as [|d pl]; [done|].
  simpl. by intros [? _]%Forall_cons.
Qed.

Lemma grants_next n m m' :
  grants (S n) m → plan m' = (next_decision m).2 → grants n m'.
Proof.
  unfold grants, next_decision. intros H ->. destruct (plan m) as [|d pl]; simpl.
  - rewrite take_nil. constructor.
  - simpl in H. by apply Forall_cons in H as [_ ?].
Qed.

Lemma segment_length bs from to :
  0 ≤ from ≤ to → to ≤ Z.of_nat (List.length bs) →
  Z.of_nat (List.length (segment bs from to)) = to - from.
Proof. intros. unfold segment. rewrite length_take, length_drop. lia. Qed.

Lemma segment_cells (bs : list ascii) (rest : list cell) from to :
  0 ≤ from ≤ to → to ≤ Z.of_nat (List.length bs) →
  take (Z.to_nat (to - from)) (drop (Z.to_nat from) ((Some <$> bs) ++ rest))
  = Some <$> segment bs from to.
Proof.
  intros. unfold segment.
  rewrite drop_app_le by (rewrite length_fmap; lia).
  rewrite take_app_le by (rewrite length_drop, length_fmap; lia).
  by rewrite fmap_take, fmap_drop.
Qed.

(** The token is the C string stored in the temporary: the bytes of
    [token_start, token_end) up to their first zero byte. *)
Lemma emit_token_spec m o b bs cap ot s0 ts te :
  holds m o b bs cap → objects m !! ot = Some s0 → ot ≠ o → grants 2 m →
  0 ≤ ts ≤ te → te ≤ Z.of_nat (List.length bs) →
  wp (emit_token (Some o) (Some ot) (Some b) (Z.of_nat (List.length bs)) ts te) m (λ r m',
    r = (true, Some (if te <? Z.of_nat (List.length bs) then te + 1
                     else Z.of_nat (List.length bs)))
    ∧ ∃ bt, holds m' ot bt (cprefix (segment bs ts te))
              (Z.of_nat (List.length (cprefix (segment bs ts te))) + 1)
            ∧ holds m' o b bs cap ∧ blocks m !! bt = None).
Proof.
  intros Hh Hot Hne Hg Hts Hte. pose proof Hh as (Ho & Hcap & tl & Hb & Hcapeq).
  pose proof SIZE_MOD_eq as HM. rewrite HM in *.
  pose proof (segment_length bs ts te Hts Hte) as Hseg.
  pose proof (cprefix_length (segment bs ts te)) as Hpre.
  unfold emit_token. unwrap.
  eapply wp_bind, wp_malloc_grant; [by eapply grants_granted|]. intros tb Htb.
  assert (tb ≠ b) as Htbb by congruence.
  eapply wp_bind, wp_memcpy;
    [ exact Htbb
    | simpl; rewrite lookup_insert_ne by done; exact Hb
    | simpl; apply lookup_insert_eq
    | lens; lia.. |].
  eapply wp_bind, wp_store; [simpl; apply lookup_insert_eq|lens; lia|].
  set (m1 := set_blocks _ _).
  assert (blocks m1 = <[tb := (Some <$> segment bs ts te) ++ [Some zero]]> (blocks m)) as Hbl1.
  { subst m1. simpl. rewrite !insert_insert_eq. f_equal.
    rewrite segment_cells by lia.
    rewrite drop_replicate.
    replace (Z.to_nat (te - ts + 1) - Z.to_nat (te - ts))%nat with 1%nat by lia. simpl.
    rewrite insert_app_r_alt by (rewrite length_fmap; lia).
    replace (Z.to_nat (te - ts) - List.length (Some <$> segment bs ts te))%nat with 0%nat
      by (rewrite length_fmap; lia).
    done. }
  assert (objects m1 = objects m) as Hob1 by done.
  assert (granted m1) as Hg1.
  { eapply grants_granted, (grants_next 1 m m1); [exact Hg|done]. }
  destruct (cprefix_cells (segment bs ts te)) as [ctl Hcells].
  eapply wp_seq.
  { apply (cstr_create_from_chars_spec m1 ot s0 tb (cprefix (segment bs ts te))).
    - by rewrite Hob1.
    - split; [apply cprefix_no_zero|]. exists ctl.
      by rewrite Hbl1, lookup_insert_eq, Hcells.
    - rewrite HM. lia. }
  intros ok m2 (-> & Hpost). rewrite bool_decide_eq_true_2 in Hpost by done.
  destruct Hpost as (bt & Hht & Hbt & Hbl2 & Hob2). simpl.
  assert (bt ≠ tb) as Hbttb.
  { intros ->. rewrite Hbl1, lookup_insert_eq in Hbt. done. }
  eapply wp_bind, wp_free; [rewrite Hbl2, lookup_insert_ne, Hbl1 by done; apply lookup_insert_eq|].
  apply wp_bind, wp_unlock. apply wp_ret. split; [done|].
  exists bt. split_and!.
  - destruct Hht as (Ho' & Hcap' & tl' & Hb' & Hcapeq').
    split; [done|split; [done|]]. exists tl'. split; [|done]. simpl.
    by rewrite lookup_delete_ne.
  - split; [|split; [lia|]]; simpl.
    + rewrite Hob2, lookup_insert_ne, Hob1 by done. exact Ho.
    + exists tl. split; [|done].
      rewrite lookup_delete_ne, Hbl2, lookup_insert_ne, Hbl1, lookup_insert_ne; [done|done| |done].
      intros ->. rewrite Hbl1, lookup_insert_ne, Hb in Hbt; done.
  - rewrite Hbl1, lookup_insert_ne in Hbt; done.
Qed.

Lemma elem_of_segment bs from to c :
  0 ≤ from → c ∈ segment bs from to →
  ∃ i, from ≤ i < to ∧ bs !! Z.to_nat i = Some c.
Proof.
  intros Hfrom Hc. unfold segment in Hc.
  apply list_elem_of_lookup in Hc as [k Hk].
  apply lookup_take_Some in Hk as [Hk Hlt].
  rewrite lookup_drop in Hk.
  exists (from + Z.of_nat k). split; [lia|].
  by replace (Z.to_nat (from + Z.of_nat k)) with (Z.to_nat from + k)%nat by lia.
Qed.

Lemma segment_no_zero bs ds from to :
  0 ≤ from → zero ∈ ds →
  (∀ i c, from ≤ i < to → bs !! Z.to_nat i = Some c → is_delim ds c = false) →
  zero ∉ segment bs from to.
Proof.
  intros Hfrom Hz Hnd Hin.
  apply elem_of_segment in Hin as (i & Hi & Hc); [|done].
  apply Hnd in Hc; [|done]. by rewrite zero_is_delim in Hc.
Qed.

(** What one call of the simple tokenizer does. *)
Lemma cstr_tokenize_spec m o b bs cap ot s0 ds start :
  holds m o b bs cap → objects m !! ot = Some s0 → ot ≠ o →
  zero ∈ ds → grants 2 m → 0 ≤ start →
  let len := Z.of_nat (List.length bs) in
  wp (cstr_tokenize (Some o) (Some ot) (Some ds) (Some start)) m (λ r m',
    holds m' o b bs cap ∧
    if r.1 then
      ∃ ts te bt, start ≤ ts < te ∧ te ≤ len
        ∧ (∀ i c, start ≤ i < ts → bs !! Z.to_nat i = Some c → is_delim ds c = true)
        ∧ (∀ i c, ts ≤ i < te → bs !! Z.to_nat i = Some c → is_delim ds c = false)
        ∧ (te < len → ∃ c, bs !! Z.to_nat te = Some c ∧ is_delim ds c = true)
        ∧ r.2 = Some (if te <? len then te + 1 else len)
        ∧ holds m' ot bt (segment bs ts te) (te - ts + 1)
    else
      (len ≤ start ∧ r.2 = None)
      ∨ (start < len ∧ r.2 = Some len
         ∧ ∀ i c, start ≤ i < len → bs !! Z.to_nat i = Some c → is_delim ds c = true)).
Proof.
  intros Hh Hot Hne Hz Hg Hstart len.
  pose proof Hh as (Ho & Hcap & tl & Hb & Hcapeq).
  pose proof SIZE_MOD_eq as HM.
  unfold cstr_tokenize.
  eapply wp_bind, wp_get_length; [exact Ho|]. cbn [length]. fold len.
  rewrite Z.geb_leb. destruct (Z.leb_spec len start) as [Hge|Hlt].
  { apply wp_ret. split; [done|]. simpl. left. done. }
  apply wp_bind, wp_lock.
  eapply wp_bind, wp_get_length; [exact Ho|].
  eapply wp_bind, wp_get_data; [exact Ho|]. cbn [length data]. fold len.
  name_mem m0.
  assert (holds m0 o b bs cap) as Hh0 by (eapply holds_frame; [exact Hh|done..]).
  eapply wp_seq.
  { apply (skip_delimiters_spec m0 b bs (Some zero :: tl) ds len); [exact Hb|done|done|lia..]. }
  intros ts m1 (-> & Hts & Hdl & Hstop).
  rewrite Z.geb_leb. destruct (Z.leb_spec len ts) as [Hge|Hlt2].
  { apply wp_bind, wp_unlock. apply wp_ret. split; [by eapply holds_frame|].
    simpl. right. split; [done|]. assert (ts = len) as -> by lia. split; [done|].
    intros i c Hi Hc. by eapply Hdl. }
  destruct (Hstop Hlt2) as (c0 & Hc0 & Hnd0).
  eapply wp_seq.
  { apply (skip_token_spec m0 b bs (Some zero :: tl) ds len); [exact Hb|done|done|lia..]. }
  intros te m1 (-> & Hte & Htok & Hend).
  assert (ts < te) as Hlt3.
  { destruct (decide (ts = te)) as [->|]; [|lia].
    destruct (Hend Hlt2) as (c & Hc & Hd). congruence. }
  eapply wp_mono.
  { eapply (emit_token_spec m0 o b bs cap ot s0 ts te); [done|done|done|done|lia|lia]. }
  intros r m' (-> & bt & Hht & Hho & _). split; [done|]. simpl.
  exists ts, te, bt. split_and!; try done; try lia.
  rewrite cprefix_id in Hht by (eapply segment_no_zero; [lia|done|done]).
  rewrite segment_length in Hht by lia. done.
Qed.

Lemma zone_open_total zp c : zero ∈ zp → is_Some (zone_open zp c).
Proof.
  revert c. induction zp as [zp IH] using (induction_ltof1 _ (@List.length ascii)).
  intros c Hz. destruct zp as [|a [|b rest]].
  - by apply elem_of_nil in Hz.
  - simpl. apply list_elem_of_singleton in Hz as <-. by rewrite bool_decide_eq_true_2.
  - simpl. repeat case_bool_decide; try done.
    apply IH; [unfold ltof; simpl; lia|].
    do 2 (apply elem_of_cons in Hz as [Hz|Hz]; [congruence|]). done.
Qed.

Lemma scan_char_total ds zp ec pos c s :
  config_ok ds zp ec → is_Some (scan_char ds zp ec pos c s).
Proof.
  intros (Hds & Hzp & Hec). unfold scan_char.
  destruct (escape s); [done|]. destruct (in_zone s); [by case_bool_decide|].
  destruct (strchr_cases ds c Hds) as [(i & -> & _)|[-> _]]; simpl; [done|].
  destruct zp as [zp|]; simpl.
  - destruct (zone_open_total zp c) as [z ->]; [by apply Hzp|]. simpl.
    destruct ec as [ec|]; simpl; [|by destruct z].
    destruct z; simpl;
      (destruct (strchr_cases ec c) as [(i & -> & _)|[-> _]]; [by apply Hec|done..]).
  - destruct ec as [ec|]; simpl; [|done].
    destruct (strchr_cases ec c) as [(i & -> & _)|[-> _]]; [by apply Hec|done..].
Qed.

Lemma scan_list_total ds zp ec l : ∀ pos s,
  config_ok ds zp ec → is_Some (scan_list ds zp ec pos s l).
Proof.
  induction l as [|c l IH]; intros pos s Hok; simpl; [done|].
  destruct (scan_char_total ds zp ec pos c s Hok) as [[s'|s'] ->]; [by apply IH|done].
Qed.

(** Where the scan stops: inside the bytes at a delimiter, which it
    records as the token end, or behind the last byte. *)
Lemma scan_list_bounds ds zp ec l : ∀ pos s p s',
  scan_list ds zp ec pos s l = Some (p, s') →
  pos ≤ p ≤ pos + Z.of_nat (List.length l)
  ∧ (p < pos + Z.of_nat (List.length l) → token_end s' = p).
Proof.
  induction l as [|c l IH]; intros pos s p s' Hrun; simpl in *.
  - simplify_eq. lia.
  - destruct (scan_char ds zp ec pos c s) as [[s1|s1]|] eqn:Hstep; [| |done].
    + apply IH in Hrun. lia.
    + simplify_eq. split; [lia|]. intros _.
      unfold scan_char in Hstep.
      destruct (escape s); [done|]. destruct (in_zone s); [by case_bool_decide|].
      destruct (strchr_bytes ds c) as [[i|]|]; simpl in Hstep; [by simplify_eq| |done].
      destruct zp as [zp|], ec as [ec|]; simpl in Hstep;
        repeat (match type of Hstep with
                | context [zone_open ?a ?b] => destruct (zone_open a b) as [[?|]|]
                | context [strchr_bytes ?a ?b] => destruct (strchr_bytes a b) as [[?|]|]
                end; simpl in Hstep); done.
Qed.

Lemma scan_loop_spec m b bs rest ds zp ec len fuel : ∀ pos s,
  blocks m !! b = Some ((Some <$> bs) ++ rest) → config_ok ds zp ec →
  len = Z.of_nat (List.length bs) → len < SIZE_MOD →
  0 ≤ pos ≤ len → (Z.to_nat (len - pos) < fuel)%nat →
  wp (scan_loop fuel (Some b) ds zp ec len pos s) m (λ r m',
    m' = m ∧ scan_list ds zp ec pos s (drop (Z.to_nat pos) bs) = Some r).
Proof.
  induction fuel as [|fuel IH]; intros pos s Hb Hok Hlen Hmod Hpos Hfuel; [lia|].
  simpl. destruct (Z.ltb_spec pos len) as [Hlt|Hge].
  - destruct (lookup_lt_is_Some_2 bs (Z.to_nat pos)) as [c Hc]; [lia|].
    eapply wp_bind, wp_load; [exact Hb|lia|by apply cells_lookup|].
    rewrite (drop_S _ _ _ Hc). simpl.
    destruct (scan_char_total ds zp ec pos c s Hok) as [[s'|s'] ->].
    + rewrite wrap_small by lia.
      eapply wp_mono; [apply IH; [done..|lia|lia]|].
      intros r m' [-> Hrun]. split; [done|].
      by replace (Z.to_nat (pos + 1)) with (S (Z.to_nat pos)) in Hrun by lia.
    + by apply wp_ret.
  - apply wp_ret. split; [done|]. by rewrite drop_ge by lia.
Qed.

(** What one call of the zone- and escape-aware tokenizer does. *)
Lemma cstr_tokenize_ex_spec m o b bs cap ot s0 ds zp ec start :
  holds m o b bs cap → objects m !! ot = Some s0 → ot ≠ o →
  config_ok ds zp ec → grants 2 m → 0 ≤ start →
  let len := Z.of_nat (List.length bs) in
  wp (cstr_tokenize_ex (Some o) (Some ot) (Some ds) zp ec (Some start)) m (λ r m',
    holds m' o b bs cap ∧
    if r.1 then
      ∃ ts te s bt, start ≤ ts ≤ te ∧ te ≤ len ∧ ts < len
        ∧ (∀ i c, start ≤ i < ts → bs !! Z.to_nat i = Some c → is_delim ds c = true)
        ∧ (∃ c, bs !! Z.to_nat ts = Some c ∧ is_delim ds c = false)
        ∧ scan_list ds zp ec ts scan_init (drop (Z.to_nat ts) bs) = Some (te, s)
        ∧ r.2 = Some (if te <? len then te + 1 else len)
        ∧ holds m' ot bt (cprefix (segment bs ts te))
            (Z.of_nat (List.length (cprefix (segment bs ts te))) + 1)
    else
      (len ≤ start ∧ r.2 = None)
      ∨ (start < len ∧ r.2 = Some len
         ∧ ∀ i c, start ≤ i < len → bs !! Z.to_nat i = Some c → is_delim ds c = true)).
Proof.
  intros Hh Hot Hne Hok Hg Hstart len.
  pose proof Hh as (Ho & Hcap & tl & Hb & Hcapeq).
  pose proof Hok as (Hz & _).
  pose proof SIZE_MOD_eq as HM.
  unfold cstr_tokenize_ex.
  eapply wp_bind, wp_get_length; [exact Ho|]. cbn [length]. fold len.
  rewrite Z.geb_leb. destruct (Z.leb_spec len start) as [Hge|Hlt].
  { apply wp_ret. split; [done|]. simpl. left. done. }
  apply wp_bind, wp_lock.
  eapply wp_bind, wp_get_length; [exact Ho|].
  eapply wp_bind, wp_get_data; [exact Ho|]. cbn [length data]. fold len.
  name_mem m0.
  assert (holds m0 o b bs cap) as Hh0 by (eapply holds_frame; [exact Hh|done..]).
  eapply wp_seq.
  { apply (skip_delimiters_spec m0 b bs (Some zero :: tl) ds len); [exact Hb|done|done|lia..]. }
  intros ts m1 (-> & Hts & Hdl & Hstop).
  rewrite Z.geb_leb. destruct (Z.leb_spec len ts) as [Hge|Hlt2].
  { apply wp_bind, wp_unlock. apply wp_ret. split; [by eapply holds_frame|].
    simpl. right. split; [done|]. assert (ts = len) as -> by lia. split; [done|].
    intros i c Hi Hc. by eapply Hdl. }
  destruct (Hstop Hlt2) as (c0 & Hc0 & Hnd0).
  eapply wp_seq.
  { apply (scan_loop_spec m0 b bs (Some zero :: tl) ds zp ec len); [exact Hb|done|done|lia..]. }
  intros [p s] m1 (-> & Hrun). fold scan_init in Hrun.
  pose proof (scan_list_bounds _ _ _ _ _ _ _ _ Hrun) as [Hp Hbreak].
  rewrite length_drop in Hp, Hbreak.
  assert ((if p =? len then len else token_end s) = p) as ->.
  { destruct (Z.eqb_spec p len) as [->|Hpl]; [done|]. apply Hbreak. lia. }
  eapply wp_mono.
  { eapply (emit_token_spec m0 o b bs cap ot s0 ts p); [done|done|done|done|lia|lia]. }
  intros r m' (-> & bt & Hht & Hho & _). split; [done|]. simpl.
  exists ts, p, s, bt. split_and!; try done; try lia. eauto.
Qed.

(** * The properties of the specification, claim by claim *)

Lemma terminated_dec_spec m o : terminated m o ↔ terminated_dec m o = true.
Proof.
  unfold terminated, terminated_dec. split.
  - intros (s & b & blk & -> & -> & -> & Hlen & Hz).
    rewrite (proj2 (Z.leb_le _ _)) by done. by rewrite bool_decide_eq_true_2.
  - destruct (objects m !! o) as [s|]; [|done].
    destruct (data s) as [b|] eqn:Hd; [|done].
    destruct (blocks m !! b) as [blk|] eqn:Hb; [|done].
    intros [Hlen Hz%bool_decide_eq_true]%andb_true_iff.
    apply Z.leb_le in Hlen. by eexists s, b, blk.
Qed.

(** C1, at the inputs on which the code departs from it.  The source holds
    "hi" and the allocator refuses the duplicate: [cstr_create_from_cstr]
    reports success, and leaves in the destination a null [data] next to
    the length and capacity of the source.  And the source holds the three
    bytes [a], zero, [b]: the duplicate is granted and stops at the zero
    byte, two cells for a length of 3 and a capacity of 4. *)
Theorem copy_construct_ignores_failed_duplication :
  wp (cstr_create_from_cstr (Some tok) (Some src))
     (set_plan [false] (mem_of (list_ascii_of_string "hi")))
     (λ r m', r = true ∧ objects m' !! tok = Some (mkCString NULL 2 3))
  ∧ wp (cstr_create_from_cstr (Some tok) (Some src))
       (mem_of ["a"; zero; "b"]%char)
       (λ r m', r = true
                ∧ ∃ b, objects m' !! tok = Some (mkCString (Some b) 3 4)
                       ∧ blocks m' !! b = Some [Some "a"%char; Some zero]).
Proof.
  split; [by vm_compute|].
  unfold wp.
  destruct (cstr_create_from_cstr (Some tok) (Some src) (mem_of ["a"; zero; "b"]%char))
    as [r m'|e] eqn:E; vm_compute in E; [|discriminate].
  injection E as <- <-. split; [done|]. exists 2%positive. by vm_compute.
Qed.

(** C2, at the inputs on which the code departs from it.  A constructor
    completes and returns true, and the struct it leaves has no zero
    byte at offset [length]: [cstr_create_from_chars] on "hi" when the
    allocator refuses the duplicate (a null [data] with length 2);
    [cstr_create_from_cstr] in the same situation; and
    [cstr_create_from_cstr] from a terminated source that
    [cstr_create_from_buffer] built from the bytes [a], zero, [b] (a
    block of two bytes with length 3). *)
Theorem constructors_return_true_without_a_terminator :
  wp (cstr_create_from_chars (Some src) (Some 1%positive))
     (set_plan [false] (static_mem (list_ascii_of_string "hi")))
     (λ r m', r = true ∧ ¬ terminated m' src)
  ∧ wp (cstr_create_from_cstr (Some tok) (Some src))
       (set_plan [false] (mem_of (list_ascii_of_string "hi")))
       (λ r m', r = true ∧ terminated m' src ∧ ¬ terminated m' tok)
  ∧ wp (cstr_create_from_buffer (Some src) (Some ["a"; zero; "b"]%char) 3 ≫= λ _ : bool,
        cstr_create_from_cstr (Some tok) (Some src))
       (static_mem [])
       (λ r m', r = true ∧ terminated m' src ∧ ¬ terminated m' tok).
Proof.
  split_and!.
  - unfold wp.
    destruct (cstr_create_from_chars (Some src) (Some 1%positive)
                (set_plan [false] (static_mem (list_ascii_of_string "hi"))))
      as [r m'|e] eqn:E; vm_compute in E; [|discriminate].
    injection E as <- <-. split; [done|].
    rewrite terminated_dec_spec. by vm_compute.
  - unfold wp.
    destruct (cstr_create_from_cstr (Some tok) (Some src)
                (set_plan [false] (mem_of (list_ascii_of_string "hi"))))
      as [r m'|e] eqn:E; vm_compute in E; [|discriminate].
    injection E as <- <-. split; [done|].
    rewrite !terminated_dec_spec. by vm_compute.
  - unfold wp.
    destruct ((cstr_create_from_buffer (Some src) (Some ["a"; zero; "b"]%char) 3 ≫= λ _ : bool,
               cstr_create_from_cstr (Some tok) (Some src)) (static_mem []))
      as [r m'|e] eqn:E; vm_compute in E; [|discriminate].
    injection E as <- <-. split; [done|].
    rewrite !terminated_dec_spec. by vm_compute.
Qed.

(** C3, as the code has it.  The loop body runs exactly one of four
    branches, in this order.  A pending escape is consumed: the flag is
    reset, nothing else is looked at and nothing else changes.  Inside a
    zone only the closing character is looked for, which ends the zone;
    escape characters are not looked for and the state stays as it is.
    Outside a zone a delimiter ends the token at this position.  Any
    other character is checked both for opening a zone and for being an
    escape character, so one that is both does both.  The state after
    the character is given in full, with the actions read off it. *)
Theorem scan_char_precedence ds zp ec pos c s :
  config_ok ds zp ec →
  ∃ fl, scan_char ds zp ec pos c s = Some fl
    ∧ fl = (if escape s then
              Continue (mkScan (in_zone s) (zone_end s) false (token_end s))
            else if in_zone s then
              Continue (if bool_decide (c = zone_end s)
                        then mkScan false zero false (token_end s)
                        else mkScan true (zone_end s) false (token_end s))
            else if is_delim ds c then
              Break (mkScan false (zone_end s) false pos)
            else
              Continue (mkScan (opens zp c) (closer zp c (zone_end s)) (is_escape ec c)
                          (token_end s)))
    ∧ triggered s fl =
        if escape s then [Suppress]
        else if in_zone s then (if bool_decide (c = zone_end s) then [ZoneClose] else [])
        else if is_delim ds c then [Delimiter]
        else (if opens zp c then [ZoneOpen] else [])
             ++ (if is_escape ec c then [EscapeArm] else []).
Proof.
  intros (Hds & Hzp & Hec).
  unfold scan_char, triggered, opens, closer, is_escape, is_delim.
  destruct s as [iz ze esc te]; simpl.
  destruct esc; [eexists; split; [done|]; by destruct iz|].
  destruct iz.
  { case_bool_decide; eexists; (split; [done|]); done. }
  destruct (strchr_cases ds c Hds) as [(i & -> & _)|[-> _]]; simpl.
  { eexists; split; done. }
  destruct zp as [zp|]; simpl.
  - destruct (zone_open_total zp c) as [z ->]; [by apply Hzp|]. simpl.
    destruct ec as [ec|]; simpl.
    + destruct (strchr_cases ec c) as [(i & -> & _)|[-> _]]; [by apply Hec|..];
        destruct z; simpl; eexists; split; done.
    + destruct z; simpl; eexists; split; done.
  - destruct ec as [ec|]; simpl.
    + destruct (strchr_cases ec c) as [(i & -> & _)|[-> _]]; [by apply Hec|..];
        simpl; eexists; split; done.
    + eexists; split; done.
Qed.

Lemma scan_char_precedence_witness :
  ∃ fl, scan_char (literal " ") (Some [quote; quote; zero]) (Some [backslash; zero])
          7 quote (mkScan false zero true invalid) = Some fl
    ∧ fl = Continue (mkScan false zero false invalid)
    ∧ triggered (mkScan false zero true invalid) fl = [Suppress].
Proof.
  apply (scan_char_precedence (literal " ") (Some [quote; quote; zero])
           (Some [backslash; zero]) 7 quote (mkScan false zero true invalid)).
  split; [apply (bool_decide_unpack _); vm_compute; exact I|].
  split; intros l [= <-]; apply (bool_decide_unpack _); vm_compute; exact I.
Defined.

(** C3 as stated fails twice.  With the zone pair of square brackets and
    the opening bracket as escape character, the opening bracket both
    opens the zone and arms the escape; and inside a zone of double
    quotes the backslash, an escape character, leaves the escape flag
    unset, so the character behind it closes the zone if it is the
    closing quote. *)
Lemma scan_char_double_trigger :
  (∃ fl, scan_char (literal " ") (Some (literal "[]")) (Some (literal "[")) 0 "["%char
           scan_init = Some fl
         ∧ triggered scan_init fl = [ZoneOpen; EscapeArm])
  ∧ scan_char (literal " ") (Some [quote; quote; zero]) (Some [backslash; zero]) 3 backslash
      (mkScan true quote false invalid)
    = Some (Continue (mkScan true quote false invalid)).
Proof. split; [eexists; split|]; by vm_compute. Qed.

(** C4. The loop of the README on the buffer [Hello, "my 'world!'"], with
    the delimiter set of one space, the zone pair of two double quotes and
    the backslash as escape character: the first call yields [Hello,] and
    moves the cursor to 7, the second yields ["my 'world!'"] with its
    quotes and moves the cursor to 20, the end of the buffer, and the
    third call returns false.  The same holds call by call in every
    memory in which the buffer has this content. *)
Theorem readme_zone_tokens :
  wp (cstr_create_from_chars (Some src) (Some 1%positive) ≫= λ _ : bool,
      tokenize_all 3 (λ pos, cstr_tokenize_ex (Some src) (Some tok) (Some (literal " "))
                                (Some [quote; quote; zero]) (Some [backslash; zero])
                                (Some pos))
                   (Some tok) 0)
     (static_mem hello_world)
     (λ r m', r = ([(list_ascii_of_string "Hello,", 7);
                    ([quote] ++ list_ascii_of_string "my 'world!'" ++ [quote], 20)],
                   (false, None))
              ∧ (objects m' !! src) ≫= (λ s, Some (length s)) = Some 20)
  ∧ ∀ m o b cap ot s0,
      holds m o b hello_world cap → objects m !! ot = Some s0 → ot ≠ o → grants 2 m →
      let tokenize := cstr_tokenize_ex (Some o) (Some ot) (Some (literal " "))
                        (Some [quote; quote; zero]) (Some [backslash; zero]) in
      wp (tokenize (Some 0)) m (λ r m',
        r = (true, Some 7) ∧ holds m' o b hello_world cap
        ∧ ∃ bt, holds m' ot bt (list_ascii_of_string "Hello,") 7)
      ∧ wp (tokenize (Some 7)) m (λ r m',
          r = (true, Some 20) ∧ holds m' o b hello_world cap
          ∧ ∃ bt, holds m' ot bt
                    ([quote] ++ list_ascii_of_string "my 'world!'" ++ [quote]) 14)
      ∧ wp (tokenize (Some 20)) m (λ r m',
          r = (false, None) ∧ holds m' o b hello_world cap).
Proof.
  split; [by vm_compute|].
  intros m o b cap ot s0 Hh Hot Hne Hg tokenize.
  assert (config_ok (literal " ") (Some [quote; quote; zero]) (Some [backslash; zero])) as Hok.
  { split; [apply (bool_decide_unpack _); vm_compute; exact I|].
    split; intros l [= <-]; apply (bool_decide_unpack _); vm_compute; exact I. }
  assert (∀ start ts te cur,
            (start = 0 ∧ te = 6 ∧ cur = 7) ∨ (start = 7 ∧ te = 20 ∧ cur = 20) →
            ts = start →
            wp (tokenize (Some start)) m (λ r m',
              holds m' o b hello_world cap ∧
              if r.1 then
                ∃ ts' te' s bt, start ≤ ts' ≤ te' ∧ te' ≤ 20 ∧ ts' < 20
                  ∧ (∀ i c, start ≤ i < ts' → hello_world !! Z.to_nat i = Some c
                            → is_delim (literal " ") c = true)
                  ∧ (∃ c, hello_world !! Z.to_nat ts' = Some c
                          ∧ is_delim (literal " ") c = false)
                  ∧ scan_list (literal " ") (Some [quote; quote; zero])
                      (Some [backslash; zero]) ts' scan_init
                      (drop (Z.to_nat ts') hello_world) = Some (te', s)
                  ∧ r.2 = Some (if te' <? 20 then te' + 1 else 20)
                  ∧ holds m' ot bt (cprefix (segment hello_world ts' te'))
                      (Z.of_nat (List.length (cprefix (segment hello_world ts' te'))) + 1)
              else
                (20 ≤ start ∧ r.2 = None)
                ∨ (start < 20 ∧ r.2 = Some 20
                   ∧ ∀ i c, start ≤ i < 20 → hello_world !! Z.to_nat i = Some c
                            → is_delim (literal " ") c = true))) as Hcall.
  { intros start ts te cur Hcase ->.
    apply (cstr_tokenize_ex_spec m o b hello_world cap ot s0); [done..|].
    destruct Hcase as [(-> & _)|(-> & _)]; lia. }
  split_and!.
  - eapply wp_mono; [apply (Hcall 0 0 6 7); [by left|done]|].
    intros [ok cur] m' [Hsrc Hpost]. simpl in Hpost. destruct ok.
    + destruct Hpost as (ts & te & s & bt & Hts & Hte & Hlt & Hdl & _ & Hrun & Hcur & Hht).
      assert (ts = 0) as ->.
      { destruct (decide (ts = 0)) as [|Hnz]; [done|].
        specialize (Hdl 0 "H"%char). discriminate Hdl; [lia|done]. }
      vm_compute in Hrun. injection Hrun as <- <-.
      simpl in Hcur. subst cur. split_and!; [done..|]. by exists bt.
    + destruct Hpost as [[? _]|(_ & _ & Hall)]; [lia|].
      specialize (Hall 0 "H"%char). discriminate Hall; [lia|done].
  - eapply wp_mono; [apply (Hcall 7 7 20 20); [by right|done]|].
    intros [ok cur] m' [Hsrc Hpost]. simpl in Hpost. destruct ok.
    + destruct Hpost as (ts & te & s & bt & Hts & Hte & Hlt & Hdl & _ & Hrun & Hcur & Hht).
      assert (ts = 7) as ->.
      { destruct (decide (ts = 7)) as [|Hnz]; [done|].
        specialize (Hdl 7 quote). discriminate Hdl; [lia|done]. }
      vm_compute in Hrun. injection Hrun as <- <-.
      simpl in Hcur. subst cur. split_and!; [done..|]. by exists bt.
    + destruct Hpost as [[? _]|(_ & _ & Hall)]; [lia|].
      specialize (Hall 7 quote). discriminate Hall; [lia|done].
  - eapply wp_mono; [apply (cstr_tokenize_ex_spec m o b hello_world cap ot s0); [done..|lia]|].
    intros [ok cur] m' [Hsrc Hpost]. simpl in Hpost. destruct ok.
    + destruct Hpost as (ts & te & s & bt & Hts & Hte & Hlt & _). lia.
    + destruct Hpost as [[_ ->]|(? & _)]; [done|lia].
Qed.

Lemma readme_zone_tokens_witness :
  wp (cstr_tokenize_ex (Some src) (Some tok) (Some (literal " "))
        (Some [quote; quote; zero]) (Some [backslash; zero]) (Some 0))
     (mem_of hello_world) (λ r m',
       r = (true, Some 7) ∧ holds m' src 1%positive hello_world 21
       ∧ ∃ bt, holds m' tok bt (list_ascii_of_string "Hello,") 7).
Proof.
  apply (proj2 readme_zone_tokens (mem_of hello_world) src 1%positive 21 tok blank).
  - split; [reflexivity|split; [reflexivity|exists []; split; reflexivity]].
  - reflexivity.
  - discriminate.
  - apply (bool_decide_unpack _). vm_compute. exact I.
Defined.

(** C5. On the buffer [a,b,,c] with the delimiter set [,], the calls of
    [cstr_tokenize] from cursor 0 yield [a], [b] and [c], with the cursor
    at 2, 4 and 6 after them, and the fourth call returns false.  In
    general a call that returns true has skipped the run of delimiters
    from the cursor on, emits the bytes from there up to the next
    delimiter, at least one, and leaves the cursor one behind that
    delimiter, or at the end of the buffer when no delimiter follows. *)
Theorem simple_tokenizer_tokens :
  wp (tokenize_all 4 (λ pos, cstr_tokenize (Some src) (Some tok) (Some (literal ","))
                               (Some pos))
                   (Some tok) 0)
     (mem_of (list_ascii_of_string "a,b,,c"))
     (λ r _, r = ([(list_ascii_of_string "a", 2); (list_ascii_of_string "b", 4);
                   (list_ascii_of_string "c", 6)], (false, None)))
  ∧ ∀ m o b bs cap ot s0 ds start,
      holds m o b bs cap → objects m !! ot = Some s0 → ot ≠ o →
      zero ∈ ds → grants 2 m → 0 ≤ start →
      let len := Z.of_nat (List.length bs) in
      wp (cstr_tokenize (Some o) (Some ot) (Some ds) (Some start)) m (λ r m',
        r.1 = true →
        ∃ ts te bt,
          holds m' ot bt (segment bs ts te) (te - ts + 1)
          ∧ start ≤ ts < te ∧ te ≤ len
          ∧ (∀ i c, start ≤ i < ts → bs !! Z.to_nat i = Some c → is_delim ds c = true)
          ∧ (∀ i c, ts ≤ i < te → bs !! Z.to_nat i = Some c → is_delim ds c = false)
          ∧ ((te < len ∧ (∃ c, bs !! Z.to_nat te = Some c ∧ is_delim ds c = true)
                ∧ r.2 = Some (te + 1))
             ∨ (te = len ∧ r.2 = Some len))).
Proof.
  split; [by vm_compute|].
  intros m o b bs cap ot s0 ds start Hh Hot Hne Hz Hg Hstart len.
  eapply wp_mono; [by eapply cstr_tokenize_spec|].
  intros [ok cur] m' [_ Hpost] Hok. simpl in *. subst ok.
  destruct Hpost as (ts & te & bt & Hts & Hte & Hdl & Htok & Hend & Hcur & Hht).
  exists ts, te, bt. split_and!; try done; try lia.
  fold len in Hcur. destruct (Z.ltb_spec te len) as [Hlt|Hge].
  - left. split_and!; [done|by apply Hend|done].
  - right. split; [lia|done].
Qed.

Lemma simple_tokenizer_tokens_witness :
  wp (cstr_tokenize (Some src) (Some tok) (Some (literal ",")) (Some 0))
     (mem_of (list_ascii_of_string "a,b,,c")) (λ r m',
        r.1 = true →
        ∃ ts te bt,
          holds m' tok bt (segment (list_ascii_of_string "a,b,,c") ts te) (te - ts + 1)
          ∧ 0 ≤ ts < te ∧ te ≤ 6
          ∧ (∀ i c, 0 ≤ i < ts → list_ascii_of_string "a,b,,c" !! Z.to_nat i = Some c
                     → is_delim (literal ",") c = true)
          ∧ (∀ i c, ts ≤ i < te → list_ascii_of_string "a,b,,c" !! Z.to_nat i = Some c
                     → is_delim (literal ",") c = false)
          ∧ ((te < 6 ∧ (∃ c, list_ascii_of_string "a,b,,c" !! Z.to_nat te = Some c
                             ∧ is_delim (literal ",") c = true)
                ∧ r.2 = Some (te + 1))
             ∨ (te = 6 ∧ r.2 = Some 6))).
Proof.
  apply (proj2 simple_tokenizer_tokens (mem_of (list_ascii_of_string "a,b,,c"))
           src 1%positive (list_ascii_of_string "a,b,,c") 7 tok blank (literal ",") 0).
  - split; [reflexivity|split; [reflexivity|exists []; split; reflexivity]].
  - reflexivity.
  - discriminate.
  - apply (bool_decide_unpack _). vm_compute. exact I.
  - apply (bool_decide_unpack _). vm_compute. exact I.
  - lia.
Defined.

(** C6, at the input on which the code departs from it: trimming "x"
    removes no byte, the content is "x" before and after, and the call
    returns true. *)
Theorem trim_reports_true_without_trimming :
  content (mem_of (list_ascii_of_string "x")) src = Some (list_ascii_of_string "x")
  ∧ wp (cstr_trim (Some src)) (mem_of (list_ascii_of_string "x"))
       (λ r m', r = true ∧ content m' src = Some (list_ascii_of_string "x")).
Proof. by vm_compute. Qed.

(** C7. Erasing [count] bytes at [index] and inserting the removed bytes
    again with [cstr_insert], one byte per call, restores the content, the
    length and the capacity of the buffer: both when the bytes go back in
    order at the indices [index], [index + 1], ..., and when every call
    uses the very same [index] and the bytes are supplied last to first. *)
Theorem erase_insert_roundtrip m o b bs cap index count :
  holds m o b bs cap →
  0 ≤ index < Z.of_nat (List.length bs) →
  0 < count ≤ Z.of_nat (List.length bs) - index →
  let removed := take (Z.to_nat count) (drop (Z.to_nat index) bs) in
  wp (cstr_erase (Some o) index count ≫= λ _ : bool,
      insert_bytes (Some o) index removed) m
     (λ r m', r = true ∧ holds m' o b bs cap)
  ∧ wp (cstr_erase (Some o) index count ≫= λ _ : bool,
        insert_bytes_at (Some o) index (reverse removed)) m
     (λ r m', r = true ∧ holds m' o b bs cap).
Proof.
  intros Hh Hi Hc removed.
  pose proof Hh as (_ & Hlt & tl & _ & Hcapeq).
  pose proof SIZE_MOD_eq as HM. rewrite HM in Hlt.
  set (pre := take (Z.to_nat index) bs).
  set (post := drop (Z.to_nat index + Z.to_nat count) bs).
  assert (bs = pre ++ removed ++ post) as Hbs.
  { subst pre removed post. rewrite <- drop_drop, take_drop, take_drop. done. }
  assert (List.length pre = Z.to_nat index) as Hpre by (subst pre; rewrite length_take; lia).
  assert (List.length removed = Z.to_nat count) as Hrem
    by (subst removed; rewrite length_take, length_drop; lia).
  assert (List.length post = (List.length bs - Z.to_nat index - Z.to_nat count)%nat) as Hpost
    by (subst post; rewrite length_drop; lia).
  assert (index = Z.of_nat (List.length pre)) as Hidx by lia.
  assert (wp (cstr_erase (Some o) index count) m (λ r m1,
            r = true ∧ holds m1 o b (pre ++ post) cap ∧ frame m m1 o b)) as Herase.
  { eapply cstr_erase_spec; [by rewrite <- Hbs|done|rewrite HM; lia|lia|lia]. }
  split.
  - eapply wp_seq; [exact Herase|]. intros r m1 (_ & Hh1 & _).
    rewrite Hidx. eapply wp_mono.
    { apply insert_bytes_spec; [exact Hh1|lia]. }
    intros r' m2 (-> & Hh2 & _). by rewrite <- Hbs in Hh2.
  - eapply wp_seq; [exact Herase|]. intros r m1 (_ & Hh1 & _).
    rewrite Hidx. eapply wp_mono.
    { apply insert_bytes_at_spec; [exact Hh1|rewrite length_reverse; lia]. }
    intros r' m2 (-> & Hh2 & _). by rewrite reverse_involutive, <- Hbs in Hh2.
Qed.

Lemma erase_insert_roundtrip_witness :
  wp (cstr_erase (Some src) 1 3 ≫= λ _ : bool,
      insert_bytes (Some src) 1 (list_ascii_of_string "ell"))
     (mem_of (list_ascii_of_string "hello"))
     (λ r m', r = true ∧ holds m' src 1%positive (list_ascii_of_string "hello") 6)
  ∧ wp (cstr_erase (Some src) 1 3 ≫= λ _ : bool,
        insert_bytes_at (Some src) 1 (list_ascii_of_string "lle"))
     (mem_of (list_ascii_of_string "hello"))
     (λ r m', r = true ∧ holds m' src 1%positive (list_ascii_of_string "hello") 6).
Proof.
  apply (erase_insert_roundtrip (mem_of (list_ascii_of_string "hello")) src 1%positive
           (list_ascii_of_string "hello") 6 1 3).
  - split; [reflexivity|split; [reflexivity|exists []; split; reflexivity]].
  - simpl. lia.
  - simpl. lia.
Defined.

(** C8, at the inputs on which the code departs from it: on an empty
    buffer [cstr_back] reads offset [SIZE_MAX] of its storage, outside the
    one allocated byte; and [cstr_get] returns the byte stored at an
    index behind the terminator, not the sentinel: after trimming the
    buffer of two spaces, "x" and "y", index 3 still holds "y". *)
Theorem back_and_get_do_not_check_the_index :
  (cstr_create (Some src) ≫= λ _ : bool, cstr_back (Some src)) (static_mem [])
    = Fault OutOfBounds
  ∧ wp (cstr_trim (Some src) ≫= λ _ : bool,
        cstr_length (Some src) ≫= λ n : Z,
        cstr_get (Some src) 3 ≫= λ c : ascii, mret (n, c))
       (mem_of (list_ascii_of_string "  xy"))
       (λ r _, r = (2, "y"%char)).
Proof. by vm_compute. Qed.

(** C9, as the code has it.  [cstr_swap] on two distinct structs exchanges
    their storage pointer, length and capacity, touches no other struct
    and no block.  It enters the critical section of its first argument,
    then that of its second, reads and writes the fields of the two
    structs, and leaves the critical sections in the opposite order:
    every access to a field happens while both critical sections are
    held. *)
Theorem swap_locks_in_argument_order m o o2 s s2 :
  objects m !! o = Some s → objects m !! o2 = Some s2 → o ≠ o2 →
  wp (cstr_swap (Some o) (Some o2)) m (λ r m',
    r = true
    ∧ objects m' !! o = Some s2 ∧ objects m' !! o2 = Some s
    ∧ (∀ o3, o3 ≠ o → o3 ≠ o2 → objects m' !! o3 = objects m !! o3)
    ∧ blocks m' = blocks m
    ∧ trace m' = trace m ++ [Enter o; Enter o2;
                             Read o; Read o2; Write o; Write o2;
                             Read o; Read o2; Write o; Write o2;
                             Read o; Read o2; Write o; Write o2;
                             Leave o2; Leave o]
    ∧ under_locks [o; o2] [] (drop (List.length (trace m)) (trace m')) = true).
Proof.
  intros Ho Ho2 Hne.
  eapply wp_mono; [by eapply cstr_swap_spec|].
  intros r m' (-> & Hobj & Hblk & _ & Htr). rewrite Hobj.
  split_and!; [done|by lk|by lk| |done|done|].
  - intros o3 H1 H2. by lk.
  - rewrite Htr, drop_app_length. cbn.
    rewrite !(bool_decide_eq_true_2 (o = o)), !(bool_decide_eq_true_2 (o2 = o2)) by done.
    rewrite ?(bool_decide_eq_false_2 (o = o2)), ?(bool_decide_eq_false_2 (o2 = o)) by done.
    done.
Qed.

Lemma swap_locks_in_argument_order_witness :
  wp (cstr_swap (Some src) (Some tok))
     (mem_of2 (list_ascii_of_string "a") (list_ascii_of_string "bc")) (λ r m',
    r = true
    ∧ objects m' !! src = Some (mkCString (Some 2%positive) 2 3)
    ∧ objects m' !! tok = Some (mkCString (Some 1%positive) 1 2)
    ∧ (∀ o3, o3 ≠ src → o3 ≠ tok →
         objects m' !! o3
         = objects (mem_of2 (list_ascii_of_string "a") (list_ascii_of_string "bc")) !! o3)
    ∧ blocks m' = blocks (mem_of2 (list_ascii_of_string "a") (list_ascii_of_string "bc"))
    ∧ trace m' = trace (mem_of2 (list_ascii_of_string "a") (list_ascii_of_string "bc"))
                 ++ [Enter src; Enter tok;
                     Read src; Read tok; Write src; Write tok;
                     Read src; Read tok; Write src; Write tok;
                     Read src; Read tok; Write src; Write tok;
                     Leave tok; Leave src]
    ∧ under_locks [src; tok] []
        (drop (List.length (trace (mem_of2 (list_ascii_of_string "a")
                                     (list_ascii_of_string "bc"))))
           (trace m')) = true).
Proof.
  apply (swap_locks_in_argument_order
           (mem_of2 (list_ascii_of_string "a") (list_ascii_of_string "bc")) src tok
           (mkCString (Some 1%positive) 1 2) (mkCString (Some 2%positive) 2 3)).
  - reflexivity.
  - reflexivity.
  - discriminate.
Defined.

(** C9 as stated fails: the order of the two locks follows the order of
    the arguments.  Two buffers are constructed, holding [a] and [bc];
    of two threads that then swap the pair in opposite orders each can
    enter its first critical section, after which neither can take
    another step. *)
Lemma opposite_swaps_deadlock :
  ∃ m, (cstr_create_from_buffer (Some src) (Some (list_ascii_of_string "a")) 1 ≫= λ _ : bool,
        cstr_create_from_buffer (Some tok) (Some (list_ascii_of_string "bc")) 2)
         (static_mem []) = Ok true m
       ∧ wf m src ∧ wf m tok
       ∧ let t1 := lock_events (cstr_swap (Some src) (Some tok)) m in
         let t2 := lock_events (cstr_swap (Some tok) (Some src)) m in
         head t1 = Some (Enter src) ∧ head t2 = Some (Enter tok)
         ∧ ∃ cfg, run_schedule [0%nat; 1%nat] (mkConfig ∅ [t1; t2]) = Some cfg
                  ∧ deadlocked cfg = true.
Proof.
  eexists. split; [by vm_compute|]. split; [|split].
  - exists 2%positive, (list_ascii_of_string "a"), 2.
    split; [by vm_compute|]. split; [by vm_compute|]. exists []. split; by vm_compute.
  - exists 3%positive, (list_ascii_of_string "bc"), 3.
    split; [by vm_compute|]. split; [by vm_compute|]. exists []. split; by vm_compute.
  - cbv zeta. split; [by vm_compute|]. split; [by vm_compute|].
    eexists. split; by vm_compute.
Qed.

Lemma scan_list_app ds zp ec l1 l2 : ∀ pos s s1,
  scan_list ds zp ec pos s l1 = Some (pos + Z.of_nat (List.length l1), s1) →
  scan_list ds zp ec pos s (l1 ++ l2)
  = scan_list ds zp ec (pos + Z.of_nat (List.length l1)) s1 l2.
Proof.
  induction l1 as [|c l1 IH]; intros pos s s1 Hrun; simpl in *.
  - simplify_eq. by rewrite Z.add_0_r.
  - destruct (scan_char ds zp ec pos c s) as [[s'|s']|]; [| |done].
    + replace (pos + Z.of_nat (S (List.length l1)))
        with (pos + 1 + Z.of_nat (List.length l1)) in * by lia.
      by apply IH.
    + simplify_eq. lia.
Qed.

Lemma segment_split bs from to c :
  0 ≤ from ≤ to → bs !! Z.to_nat to = Some c →
  drop (Z.to_nat from) bs = segment bs from to ++ c :: drop (S (Z.to_nat to)) bs.
Proof.
  intros Hft Hc. unfold segment.
  rewrite <- (take_drop (Z.to_nat (to - from)) (drop (Z.to_nat from) bs)) at 1.
  f_equal. rewrite drop_drop.
  replace (Z.to_nat from + Z.to_nat (to - from))%nat with (Z.to_nat to) by lia.
  by apply drop_S.
Qed.

(** C10, as the code has it.  The terminator of the delimiter string makes
    the zero byte a delimiter for every delimiter string.  In
    [cstr_tokenize] an embedded zero byte behind the start of a token ends
    that token and the cursor moves one behind it.  [cstr_tokenize_ex] does
    the same for a zero byte that the scanner reaches outside a zone and
    with no escape pending.  At a zero byte that the scanner reaches
    inside a zone or with an escape pending the scan goes on: the scanned
    range of the token extends beyond the zero byte.  In both cases the
    token emitted is the C string held in the scanned bytes. *)
Theorem zero_byte_ends_token m o b bs cap ot s0 ds start ts i c0 :
  holds m o b bs cap → objects m !! ot = Some s0 → ot ≠ o → grants 2 m →
  zero ∈ ds →
  0 ≤ start ≤ ts → ts < i < Z.of_nat (List.length bs) →
  (∀ j c, start ≤ j < ts → bs !! Z.to_nat j = Some c → is_delim ds c = true) →
  bs !! Z.to_nat ts = Some c0 → is_delim ds c0 = false →
  bs !! Z.to_nat i = Some zero →
  let len := Z.of_nat (List.length bs) in
  is_delim ds zero = true
  ∧ ((∀ j c, ts ≤ j < i → bs !! Z.to_nat j = Some c → is_delim ds c = false) →
     wp (cstr_tokenize (Some o) (Some ot) (Some ds) (Some start)) m (λ r m',
       r = (true, Some (i + 1))
       ∧ ∃ bt, holds m' ot bt (segment bs ts i) (i - ts + 1)))
  ∧ (∀ zp ec s,
       config_ok ds zp ec →
       scan_list ds zp ec ts scan_init (segment bs ts i) = Some (i, s) →
       (in_zone s = false → escape s = false →
        wp (cstr_tokenize_ex (Some o) (Some ot) (Some ds) zp ec (Some start)) m (λ r m',
          r = (true, Some (i + 1))
          ∧ ∃ bt, holds m' ot bt (cprefix (segment bs ts i))
                    (Z.of_nat (List.length (cprefix (segment bs ts i))) + 1)))
       ∧ (in_zone s = true ∨ escape s = true →
          (∃ s', scan_char ds zp ec i zero s = Some (Continue s'))
          ∧ wp (cstr_tokenize_ex (Some o) (Some ot) (Some ds) zp ec (Some start)) m (λ r m',
              ∃ te, i < te ≤ len
                ∧ r = (true, Some (if te <? len then te + 1 else len))
                ∧ ∃ bt, holds m' ot bt (cprefix (segment bs ts te))
                          (Z.of_nat (List.length (cprefix (segment bs ts te))) + 1)))).
Proof.
  intros Hh Hot Hne Hg Hz Hstart Hi Hdl Hc0 Hnd0 Hzero len.
  pose proof (zero_is_delim ds Hz) as Hzd.
  assert (∀ ts', start ≤ ts' < Z.of_nat (List.length bs) →
            (∀ j c, start ≤ j < ts' → bs !! Z.to_nat j = Some c → is_delim ds c = true) →
            (∃ c, bs !! Z.to_nat ts' = Some c ∧ is_delim ds c = false) → ts' = ts) as Hstart_unique.
  { intros ts' Hts' Hdl' (c' & Hc' & Hnd').
    destruct (Z.lt_trichotomy ts' ts) as [Hlt|[->|Hgt]]; [|done|].
    - apply Hdl in Hc'; [congruence|lia].
    - apply Hdl' in Hc0; [congruence|lia]. }
  split; [done|]. split.
  - intros Htok.
    eapply wp_mono; [eapply cstr_tokenize_spec; [done..|lia]|].
    intros [ok cur] m' [_ Hpost]. simpl in Hpost.
    destruct ok.
    + destruct Hpost as (ts' & te & bt & Hts' & Hte & Hdl' & Htok' & Hend & Hcur & Hht).
      assert (ts' = ts) as ->.
      { apply Hstart_unique; [lia|done|].
        destruct (lookup_lt_is_Some_2 bs (Z.to_nat ts')) as [c' Hc']; [lia|].
        exists c'. split; [done|]. apply (Htok' ts'); [lia|done]. }
      assert (te = i) as ->.
      { destruct (Z.lt_trichotomy te i) as [Hlt|[->|Hgt]]; [|done|].
        - destruct Hend as (c' & Hc' & Hd'); [lia|].
          apply Htok in Hc'; [congruence|lia].
        - apply Htok' in Hzero; [congruence|lia]. }
      rewrite (proj2 (Z.ltb_lt _ _)) in Hcur by lia. simpl in Hcur. subst cur.
      split; [done|]. by exists bt.
    + destruct Hpost as [[Hge _]|(_ & _ & Hall)]; [lia|].
      apply Hall in Hc0; [congruence|lia].
  - intros zp ec s Hok Hscan.
    assert (∀ te s',
      scan_list ds zp ec ts scan_init (drop (Z.to_nat ts) bs) = Some (te, s') →
      scan_list ds zp ec i s (zero :: drop (S (Z.to_nat i)) bs) = Some (te, s')) as Hcut.
    { intros te s' Hrun.
      rewrite (segment_split bs ts i zero) in Hrun by (done || lia).
      replace i with (ts + Z.of_nat (List.length (segment bs ts i))) in Hscan at 2
        by (rewrite segment_length; lia).
      rewrite (scan_list_app _ _ _ _ _ _ _ _ Hscan) in Hrun.
      rewrite segment_length in Hrun by lia.
      by replace (ts + (i - ts)) with i in Hrun by lia. }
    split.
    + intros Hiz Hesc.
      eapply wp_mono; [eapply cstr_tokenize_ex_spec; [done..|lia]|].
      intros [ok cur] m' [_ Hpost]. simpl in Hpost.
      destruct ok.
      * destruct Hpost as (ts' & te & s' & bt & Hts' & Hte & Htl & Hdl' & Hfirst & Hrun & Hcur & Hht).
        assert (ts' = ts) as -> by (apply Hstart_unique; [lia|done|done]).
        assert (te = i) as ->.
        { apply Hcut in Hrun.
          simpl in Hrun. unfold scan_char in Hrun. rewrite Hesc, Hiz in Hrun.
          destruct (strchr_cases ds zero Hz) as [(k & Hk & _)|[_ ?]]; [|congruence].
          rewrite Hk in Hrun. simpl in Hrun. by simplify_eq. }
        rewrite (proj2 (Z.ltb_lt _ _)) in Hcur by lia. simpl in Hcur. subst cur.
        split; [done|]. by exists bt.
      * destruct Hpost as [[Hge _]|(_ & _ & Hall)]; [lia|].
        apply Hall in Hc0; [congruence|lia].
    + intros Hdirty.
      assert (∃ s', scan_char ds zp ec i zero s = Some (Continue s')) as [s1 Hs1].
      { unfold scan_char. destruct (escape s); [by eexists|].
        destruct Hdirty as [->|?]; [|done]. case_bool_decide; by eexists. }
      split; [by exists s1|].
      eapply wp_mono; [eapply cstr_tokenize_ex_spec; [done..|lia]|].
      intros [ok cur] m' [_ Hpost]. simpl in Hpost.
      destruct ok.
      * destruct Hpost as (ts' & te & s' & bt & Hts' & Hte & Htl & Hdl' & Hfirst & Hrun & Hcur & Hht).
        assert (ts' = ts) as -> by (apply Hstart_unique; [lia|done|done]).
        apply Hcut in Hrun. simpl in Hrun. rewrite Hs1 in Hrun.
        apply scan_list_bounds in Hrun as [Hlo _].
        exists te. split; [subst len; lia|]. split; [by destruct cur; simplify_eq|].
        by exists bt.
      * destruct Hpost as [[Hge _]|(_ & _ & Hall)]; [lia|].
        apply Hall in Hc0; [congruence|lia].
Qed.

Lemma zero_byte_ends_token_witness :
  let zones := Some [quote; quote; zero] in
  let escapes := Some [backslash; zero] in
  let clean := [backslash; backslash; zero; "b"%char] in
  let escaped := ["a"%char; backslash; zero; "b"%char] in
  let quoted := [quote; zero; quote; "b"%char] in
  wp (cstr_tokenize (Some src) (Some tok) (Some (literal " ")) (Some 0)) (mem_of clean)
     (λ r m', r = (true, Some (2 + 1))
              ∧ ∃ bt, holds m' tok bt (segment clean 0 2) (2 - 0 + 1))
  ∧ wp (cstr_tokenize_ex (Some src) (Some tok) (Some (literal " ")) zones escapes (Some 0))
       (mem_of clean)
       (λ r m', r = (true, Some (2 + 1))
                ∧ ∃ bt, holds m' tok bt (cprefix (segment clean 0 2))
                          (Z.of_nat (List.length (cprefix (segment clean 0 2))) + 1))
  ∧ wp (cstr_tokenize_ex (Some src) (Some tok) (Some (literal " ")) zones escapes (Some 0))
       (mem_of escaped)
       (λ r m', ∃ te, 2 < te ≤ Z.of_nat (List.length escaped)
          ∧ r = (true, Some (if te <? Z.of_nat (List.length escaped) then te + 1
                             else Z.of_nat (List.length escaped)))
          ∧ ∃ bt, holds m' tok bt (cprefix (segment escaped 0 te))
                    (Z.of_nat (List.length (cprefix (segment escaped 0 te))) + 1))
  ∧ wp (cstr_tokenize_ex (Some src) (Some tok) (Some (literal " ")) zones escapes (Some 0))
       (mem_of quoted)
       (λ r m', ∃ te, 1 < te ≤ Z.of_nat (List.length quoted)
          ∧ r = (true, Some (if te <? Z.of_nat (List.length quoted) then te + 1
                             else Z.of_nat (List.length quoted)))
          ∧ ∃ bt, holds m' tok bt (cprefix (segment quoted 0 te))
                    (Z.of_nat (List.length (cprefix (segment quoted 0 te))) + 1)).
Proof.
  cbv zeta.
  assert (config_ok (literal " ") (Some [quote; quote; zero]) (Some [backslash; zero])) as Hcfg.
  { split; [apply (bool_decide_unpack _); vm_compute; exact I|].
    split; intros l [= <-]; apply (bool_decide_unpack _); vm_compute; exact I. }
  split_and!.
  - pose proof (zero_byte_ends_token (mem_of [backslash; backslash; zero; "b"%char]) src
                  1%positive [backslash; backslash; zero; "b"%char] 5 tok blank (literal " ")
                  0 0 2 backslash) as H.
    destruct H as (_ & Hsimple & _).
    + split; [reflexivity|split; [reflexivity|exists []; split; reflexivity]].
    + reflexivity.
    + discriminate.
    + apply (bool_decide_unpack _). vm_compute. exact I.
    + apply (bool_decide_unpack _). vm_compute. exact I.
    + lia.
    + simpl. lia.
    + intros j c Hj. lia.
    + reflexivity.
    + reflexivity.
    + reflexivity.
    + apply Hsimple. intros j c Hj Hc.
      assert (j = 0 ∨ j = 1) as [-> | ->] by lia; simpl in Hc; by simplify_eq.
  - pose proof (zero_byte_ends_token (mem_of [backslash; backslash; zero; "b"%char]) src
                  1%positive [backslash; backslash; zero; "b"%char] 5 tok blank (literal " ")
                  0 0 2 backslash) as H.
    destruct H as (_ & _ & Hex).
    + split; [reflexivity|split; [reflexivity|exists []; split; reflexivity]].
    + reflexivity.
    + discriminate.
    + apply (bool_decide_unpack _). vm_compute. exact I.
    + apply (bool_decide_unpack _). vm_compute. exact I.
    + lia.
    + simpl. lia.
    + intros j c Hj. lia.
    + reflexivity.
    + reflexivity.
    + reflexivity.
    + apply (Hex (Some [quote; quote; zero]) (Some [backslash; zero])
               (mkScan false zero false invalid) Hcfg); reflexivity.
  - pose proof (zero_byte_ends_token (mem_of ["a"%char; backslash; zero; "b"%char]) src
                  1%positive ["a"%char; backslash; zero; "b"%char] 5 tok blank (literal " ")
                  0 0 2 "a"%char) as H.
    destruct H as (_ & _ & Hex).
    + split; [reflexivity|split; [reflexivity|exists []; split; reflexivity]].
    + reflexivity.
    + discriminate.
    + apply (bool_decide_unpack _). vm_compute. exact I.
    + apply (bool_decide_unpack _). vm_compute. exact I.
    + lia.
    + simpl. lia.
    + intros j c Hj. lia.
    + reflexivity.
    + reflexivity.
    + reflexivity.
    + apply (Hex (Some [quote; quote; zero]) (Some [backslash; zero])
               (mkScan false zero true invalid) Hcfg); [reflexivity|]. by right.
  - pose proof (zero_byte_ends_token (mem_of [quote; zero; quote; "b"%char]) src
                  1%positive [quote; zero; quote; "b"%char] 5 tok blank (literal " ")
                  0 0 1 quote) as H.
    destruct H as (_ & _ & Hex).
    + split; [reflexivity|split; [reflexivity|exists []; split; reflexivity]].
    + reflexivity.
    + discriminate.
    + apply (bool_decide_unpack _). vm_compute. exact I.
    + apply (bool_decide_unpack _). vm_compute. exact I.
    + lia.
    + simpl. lia.
    + intros j c Hj. lia.
    + reflexivity.
    + reflexivity.
    + reflexivity.
    + apply (Hex (Some [quote; quote; zero]) (Some [backslash; zero])
               (mkScan true quote false invalid) Hcfg); [reflexivity|]. by left.
Defined.

(** C10 as stated fails for [cstr_tokenize_ex]: in the buffer made of
    the bytes [a], backslash, zero, [b], with the backslash as escape
    character, the zero byte is passed over as an escaped character, the
    only token is [a] with the backslash, and the cursor goes to the end
    of the buffer; [cstr_tokenize] on the same buffer stops at the zero
    byte and yields [b] as a second token. *)
Lemma escaped_zero_byte_does_not_end_token :
  wp (cstr_create_from_buffer (Some src) (Some ["a"%char; backslash; zero; "b"%char]) 4
        ≫= λ _ : bool,
      tokenize_all 3 (λ pos, cstr_tokenize_ex (Some src) (Some tok) (Some (literal " "))
                                None (Some [backslash; zero]) (Some pos))
                   (Some tok) 0)
     (static_mem [])
     (λ r _, r = ([(["a"%char; backslash], 4)], (false, None)))
  ∧ wp (cstr_create_from_buffer (Some src) (Some ["a"%char; backslash; zero; "b"%char]) 4
          ≫= λ _ : bool,
        tokenize_all 3 (λ pos, cstr_tokenize (Some src) (Some tok) (Some (literal " "))
                                  (Some pos))
                     (Some tok) 0)
       (static_mem [])
       (λ r _, r = ([(["a"%char; backslash], 3); (["b"%char], 4)], (false, None))).
Proof. split; by vm_compute. Qed.

(** * Specifications of the remaining operations *)

(** ** Checked access *)

Lemma readable_lookup (bs : list ascii) (tl : list cell) i c :
  readable bs !! i = Some c → ((Some <$> bs) ++ Some zero :: tl) !! i = Some (Some c).
Proof.
  unfold readable. intros Hc.
  destruct (decide (i < List.length bs)%nat) as [Hlt|Hge].
  - rewrite lookup_app_l in Hc by done. by apply cells_lookup.
  - rewrite lookup_app_r in Hc by lia. rewrite lookup_app_r by (rewrite length_fmap; lia).
    rewrite length_fmap. destruct (i - List.length bs)%nat; [|done].
    simpl in *. congruence.
Qed.

Lemma cstr_get_spec m o b bs cap index c :
  holds m o b bs cap → 0 ≤ index → readable bs !! Z.to_nat index = Some c →
  wp (cstr_get (Some o) index) m (λ r m',
    r = c ∧ blocks m' = blocks m ∧ objects m' = objects m ∧ plan m' = plan m
    ∧ trace m' = trace m ++ [Enter o; Read o; Leave o]).
Proof.
  intros (Ho & Hcap & tl & Hb & Hcapeq) Hi Hc. unfold cstr_get.
  apply wp_bind, wp_lock.
  eapply wp_bind, wp_get_data; [exact Ho|]. simpl.
  eapply wp_bind, wp_load; [exact Hb|done|by apply readable_lookup|].
  apply wp_bind, wp_unlock. apply wp_ret. simpl.
  unnote. by rewrite <- !app_assoc.
Qed.

Lemma cstr_at_spec m o b bs cap index pc old :
  holds m o b bs cap → blocks m !! pc = Some [old] → pc ≠ b → 0 ≤ index →
  wp (cstr_at (Some o) index (Some pc)) m (λ r m',
    objects m' = objects m
    ∧ match bs !! Z.to_nat index with
      | Some c => r = true ∧ blocks m' = <[pc := [Some c]]> (blocks m)
      | None => r = false ∧ blocks m' = blocks m
      end).
Proof.
  intros (Ho & Hcap & tl & Hb & Hcapeq) Hpc Hne Hi. unfold cstr_at.
  apply wp_bind, wp_lock.
  eapply wp_bind, wp_get_length; [exact Ho|]. simpl.
  destruct (bs !! Z.to_nat index) as [c|] eqn:Hc.
  - apply lookup_lt_Some in Hc as Hlt. zb.
    eapply wp_bind, wp_get_data; [exact Ho|]. simpl.
    eapply wp_bind, wp_load; [exact Hb|done|by apply cells_lookup|].
    eapply wp_bind, wp_store; [exact Hpc|simpl; lia|].
    apply wp_bind, wp_unlock. apply wp_ret. done.
  - apply lookup_ge_None in Hc. zb.
    apply wp_bind, wp_unlock. apply wp_ret. done.
Qed.

Lemma cstr_empty_spec m o b bs cap :
  holds m o b bs cap →
  wp (cstr_empty (Some o)) m (λ r m',
    r = bool_decide (bs = []) ∧ blocks m' = blocks m ∧ objects m' = objects m).
Proof.
  intros (Ho & Hcap & tl & Hb & Hcapeq). unfold cstr_empty.
  apply wp_bind, wp_lock.
  eapply wp_bind, wp_get_data; [exact Ho|].
  eapply wp_bind, wp_get_length; [exact Ho|]. simpl.
  apply wp_bind, wp_unlock. apply wp_ret. simpl. split; [|done].
  destruct bs; [done|]. rewrite bool_decide_eq_false_2 by done.
  apply Z.eqb_neq. simpl List.length. lia.
Qed.

Lemma cstr_front_spec m o b bs cap :
  holds m o b bs cap →
  wp (cstr_front (Some o)) m (λ r m',
    r = default zero (head bs) ∧ blocks m' = blocks m ∧ objects m' = objects m).
Proof.
  intros Hh. unfold cstr_front.
  apply wp_bind, wp_lock. name_mem m1.
  eapply wp_seq.
  { apply (cstr_get_spec m1 o b bs cap 0 (default zero (head bs))); [by eapply holds_frame|done|].
    by destruct bs. }
  intros r m2 (-> & Hbl & Hob & _). simpl.
  apply wp_bind, wp_unlock. apply wp_ret. done.
Qed.

Lemma cstr_back_spec m o b bs c cap :
  holds m o b (bs ++ [c]) cap →
  wp (cstr_back (Some o)) m (λ r m',
    r = c ∧ blocks m' = blocks m ∧ objects m' = objects m).
Proof.
  intros Hh. pose proof Hh as (Ho & Hcap & tl & Hb & Hcapeq).
  pose proof SIZE_MOD_eq as HM. rewrite HM in *.
  rewrite length_app in *. simpl in *.
  unfold cstr_back.
  apply wp_bind, wp_lock.
  eapply wp_bind, wp_get_length; [exact Ho|]. simpl. unwrap. name_mem m1.
  eapply wp_seq.
  { apply (cstr_get_spec m1 o b (bs ++ [c]) cap _ c); [by eapply holds_frame|lia|].
    unfold readable. rewrite <- app_assoc, lookup_app_r by lia.
    replace (Z.to_nat (Z.of_nat (List.length bs + 1) - 1) - List.length bs)%nat with 0%nat by lia.
    done. }
  intros r m2 (-> & Hbl & Hob & _). simpl.
  apply wp_bind, wp_unlock. apply wp_ret. done.
Qed.

(** ** Substring *)

Lemma cstr_substring_spec m o b bs cap od s0 start count :
  holds m o b bs cap → objects m !! od = Some s0 → od ≠ o → grants 2 m →
  0 ≤ start < Z.of_nat (List.length bs) → 0 ≤ count < SIZE_MOD →
  let stop := start + Z.min count (Z.of_nat (List.length bs) - start) in
  wp (cstr_substring (Some o) (Some od) start count) m (λ r m',
    r = true
    ∧ ∃ bt, holds m' od bt (cprefix (segment bs start stop))
              (Z.of_nat (List.length (cprefix (segment bs start stop))) + 1)
            ∧ holds m' o b bs cap ∧ blocks m !! bt = None
            ∧ (∀ p blk, blocks m !! p = Some blk → blocks m' !! p = Some blk)
            ∧ (∀ p, p ≠ bt → blocks m !! p = None → blocks m' !! p = None)
            ∧ (∀ o3, o3 ≠ od → objects m' !! o3 = objects m !! o3)).
Proof.
  intros Hh Hot Hne Hg Hstart Hcount stop.
  pose proof Hh as (Ho & Hcap & tl & Hb & Hcapeq).
  pose proof SIZE_MOD_eq as HM. rewrite HM in *.
  set (n := Z.min count (Z.of_nat (List.length bs) - start)) in *.
  assert (0 ≤ n ≤ Z.of_nat (List.length bs) - start) as Hn by (subst n; lia).
  assert (0 ≤ start ≤ stop) as Hts by (subst stop; lia).
  assert (stop ≤ Z.of_nat (List.length bs)) as Hte by (subst stop; lia).
  pose proof (segment_length bs start stop Hts Hte) as Hseg.
  pose proof (cprefix_length (segment bs start stop)) as Hpre.
  unfold cstr_substring.
  apply wp_bind, wp_lock.
  eapply wp_bind, wp_get_length; [exact Ho|]. simpl. unwrap. zb.
  replace (if Z.of_nat (List.length bs) - start <? count
           then Z.of_nat (List.length bs) - start else count) with n.
  2:{ subst n. destruct (Z.ltb_spec (Z.of_nat (List.length bs) - start) count); lia. }
  unwrap. name_mem m0.
  eapply wp_bind, (wp_malloc_grant _ m0); [by eapply grants_granted|]. intros tb Htb.
  simpl in Htb. assert (tb ≠ b) as Htbb by congruence.
  eapply wp_bind, wp_get_data; [exact Ho|]. simpl.
  eapply wp_bind, wp_memcpy;
    [ exact Htbb
    | simpl; rewrite lookup_insert_ne by done; exact Hb
    | simpl; apply lookup_insert_eq
    | lens; lia.. |].
  eapply wp_bind, wp_store; [simpl; apply lookup_insert_eq|lens; lia|].
  set (m1 := set_blocks _ _).
  assert (blocks m1 = <[tb := (Some <$> segment bs start stop) ++ [Some zero]]> (blocks m)) as Hbl1.
  { subst m1. simpl. rewrite !insert_insert_eq. f_equal.
    replace n with (stop - start) by (subst stop; lia).
    rewrite segment_cells by lia.
    rewrite drop_replicate.
    replace (Z.to_nat (stop - start + 1) - Z.to_nat (stop - start))%nat with 1%nat by lia. simpl.
    rewrite insert_app_r_alt by (rewrite length_fmap; lia).
    replace (Z.to_nat (stop - start) - List.length (Some <$> segment bs start stop))%nat with 0%nat
      by (rewrite length_fmap; lia).
    done. }
  assert (objects m1 = objects m) as Hob1 by done.
  assert (granted m1) as Hg1.
  { eapply grants_granted, (grants_next 1 m m1); [exact Hg|done]. }
  destruct (cprefix_cells (segment bs start stop)) as [ctl Hcells].
  eapply wp_seq.
  { apply (cstr_create_from_chars_spec m1 od s0 tb (cprefix (segment bs start stop))).
    - by rewrite Hob1.
    - split; [apply cprefix_no_zero|]. exists ctl.
      by rewrite Hbl1, lookup_insert_eq, Hcells.
    - rewrite HM. lia. }
  intros ok m2 (-> & Hpost). rewrite bool_decide_eq_true_2 in Hpost by done.
  destruct Hpost as (bt & Hht & Hbt & Hbl2 & Hob2). simpl.
  assert (bt ≠ tb) as Hbttb.
  { intros ->. rewrite Hbl1, lookup_insert_eq in Hbt. done. }
  assert (blocks m !! bt = None) as Hbt0.
  { rewrite Hbl1, lookup_insert_ne in Hbt; done. }
  eapply wp_bind, wp_free; [rewrite Hbl2, lookup_insert_ne, Hbl1 by done; apply lookup_insert_eq|].
  apply wp_bind, wp_unlock. apply wp_ret. split; [done|].
  exists bt. split_and!.
  - destruct Hht as (Ho' & Hcap' & tl' & Hb' & Hcapeq').
    split; [done|split; [done|]]. exists tl'. split; [|done]. simpl.
    by rewrite lookup_delete_ne.
  - split; [|split; [lia|]]; simpl.
    + rewrite Hob2, lookup_insert_ne, Hob1 by done. exact Ho.
    + exists tl. split; [|done].
      rewrite lookup_delete_ne, Hbl2, lookup_insert_ne, Hbl1, lookup_insert_ne; [done|done| |done].
      intros ->. congruence.
  - done.
  - intros p blk Hp. simpl.
    assert (p ≠ tb) by congruence. assert (p ≠ bt) by congruence.
    by rewrite lookup_delete_ne, Hbl2, lookup_insert_ne, Hbl1, lookup_insert_ne.
  - intros p Hp1 Hp. simpl. destruct (decide (p = tb)) as [->|Hptb].
    + apply lookup_delete_eq.
    + by rewrite lookup_delete_ne, Hbl2, lookup_insert_ne, Hbl1, lookup_insert_ne.
  - intros o3 Ho3. simpl. by rewrite Hob2, lookup_insert_ne, Hob1.
Qed.

Lemma cstr_substring_out_of_range m o b bs cap od start count :
  holds m o b bs cap → Z.of_nat (List.length bs) ≤ start →
  wp (cstr_substring (Some o) (Some od) start count) m (λ r m',
    r = false ∧ blocks m' = blocks m ∧ objects m' = objects m ∧ plan m' = plan m).
Proof.
  intros (Ho & Hcap & tl & Hb & Hcapeq) Hstart. unfold cstr_substring.
  apply wp_bind, wp_lock.
  eapply wp_bind, wp_get_length; [exact Ho|]. simpl. zb.
  apply wp_bind, wp_unlock. apply wp_ret. done.
Qed.

Lemma cstr_substring_denied m o b bs cap od start count :
  holds m o b bs cap → ¬ granted m → 0 ≤ start < Z.of_nat (List.length bs) →
  wp (cstr_substring (Some o) (Some od) start count) m (λ r m',
    r = false ∧ blocks m' = blocks m ∧ objects m' = objects m).
Proof.
  intros (Ho & Hcap & tl & Hb & Hcapeq) Hg Hstart. unfold cstr_substring.
  apply wp_bind, wp_lock.
  eapply wp_bind, wp_get_length; [exact Ho|]. simpl. zb. name_mem m0.
  eapply wp_bind, (wp_malloc_deny _ m0); [done|].
  apply wp_bind, wp_unlock. apply wp_ret. done.
Qed.

(** ** Search *)

Lemma starts_with_spec needle : ∀ hay,
  starts_with needle hay = true ↔ take (List.length needle) hay = needle.
Proof.
  induction needle as [|c needle IH]; intros hay; simpl; [done|].
  destruct hay as [|d hay]; simpl; [done|].
  rewrite andb_true_iff, bool_decide_eq_true, IH. split.
  - by intros [-> ->].
  - intros [= -> Heq]. by rewrite Heq.
Qed.

Lemma strstr_bytes_spec needle : ∀ hay,
  match strstr_bytes hay needle with
  | Some i => occurs_at needle hay i ∧ (i + List.length needle ≤ List.length hay)%nat
              ∧ ∀ j, (j < i)%nat → ¬ occurs_at needle hay j
  | None => ∀ j, ¬ occurs_at needle hay j
  end.
Proof.
  induction hay as [|c hay IH]; simpl.
  - destruct (starts_with needle []) eqn:Hs.
    + apply starts_with_spec in Hs. split_and!; [done| |lia].
      apply (f_equal List.length) in Hs. rewrite length_take in Hs. simpl in *. lia.
    + intros j Hj. unfold occurs_at in Hj. rewrite drop_nil in Hj.
      apply starts_with_spec in Hj. congruence.
  - destruct (starts_with needle (c :: hay)) eqn:Hs.
    + apply starts_with_spec in Hs. split_and!; [done| |lia].
      apply (f_equal List.length) in Hs. rewrite length_take in Hs. simpl in *. lia.
    + destruct (strstr_bytes hay needle) as [i|]; simpl.
      * destruct IH as (Hocc & Hlen & Hmin). split_and!; [done|lia|].
        intros [|j] Hj Hj'.
        -- unfold occurs_at in Hj'. rewrite drop_0 in Hj'.
           apply starts_with_spec in Hj'. congruence.
        -- apply (Hmin j); [lia|done].
      * intros [|j] Hj.
        -- unfold occurs_at in Hj. rewrite drop_0 in Hj.
           apply starts_with_spec in Hj. congruence.
        -- by apply (IH j).
Qed.

Lemma cstring_cells_spec (bs : list ascii) (tl : list cell) :
  cstring_cells ((Some <$> bs) ++ Some zero :: tl) = inr (cprefix bs).
Proof.
  induction bs as [|c bs IH]; [done|].
  rewrite fmap_cons, <- app_comm_cons. cbn [cstring_cells cprefix].
  case_bool_decide; [done|]. by rewrite IH.
Qed.

Lemma wp_strstr m hb nb (bs cs : list ascii) (tl tl2 : list cell) Q :
  blocks m !! hb = Some ((Some <$> bs) ++ Some zero :: tl) →
  blocks m !! nb = Some ((Some <$> cs) ++ Some zero :: tl2) →
  Q (Z.of_nat <$> strstr_bytes (cprefix bs) (cprefix cs)) m →
  wp (strstr (Some hb) (Some nb)) m Q.
Proof.
  intros Hh Hn HQ. unfold strstr.
  apply wp_bind, (wp_block_of _ _ _ _ Hh).
  apply wp_bind, (wp_block_of _ _ _ _ Hn).
  by rewrite !cstring_cells_spec.
Qed.

Lemma found_in_range (bs needle : list ascii) cap i :
  strstr_bytes (cprefix bs) needle = Some i →
  Z.of_nat (List.length bs) < cap < SIZE_MOD →
  wrap (Z.of_nat i) = Z.of_nat i ∧ Z.of_nat i ≠ invalid ∧ (i ≤ List.length bs)%nat.
Proof.
  intros Hi Hcap. pose proof (strstr_bytes_spec needle (cprefix bs)) as Hs.
  rewrite Hi in Hs. destruct Hs as (_ & Hlen & _).
  pose proof (cprefix_length bs). pose proof SIZE_MOD_eq as HM.
  assert (invalid = SIZE_MOD - 1) as -> by reflexivity.
  rewrite wrap_small by lia. lia.
Qed.

Lemma cstr_find_chars_spec m o b bs cap p cs :
  holds m o b bs cap → cstring_at m p cs →
  wp (cstr_find_chars (Some o) (Some p)) m (λ r m',
    blocks m' = blocks m ∧ objects m' = objects m
    ∧ match strstr_bytes (cprefix bs) cs with
      | Some i => r = Z.of_nat i
      | None => r = invalid
      end).
Proof.
  intros (Ho & Hcap & tl & Hb & Hcapeq) (Hz & tl2 & Hp). unfold cstr_find_chars.
  apply wp_bind, wp_lock.
  eapply wp_bind, wp_get_data; [exact Ho|]. simpl.
  eapply wp_bind, wp_strstr; [exact Hb|exact Hp|].
  apply wp_bind, wp_unlock. apply wp_ret. simpl.
  split; [done|split; [done|]].
  rewrite (cprefix_id cs) by done.
  destruct (strstr_bytes (cprefix bs) cs) as [i|] eqn:Hi; simpl; [|done].
  apply (found_in_range bs _ cap i Hi). lia.
Qed.


(** ** Case conversion *)

Lemma convert_loop_spec f o b cap tl : ∀ todo fuel done m,
  objects m !! o = Some (mkCString (Some b) (Z.of_nat (List.length (done ++ todo))) cap) →
  blocks m !! b = Some ((Some <$> done ++ todo) ++ Some zero :: tl) →
  Z.of_nat (List.length (done ++ todo)) < SIZE_MOD → (List.length todo < fuel)%nat →
  wp (convert_loop fuel f o (Z.of_nat (List.length done))) m (λ _ m',
    objects m' = objects m
    ∧ blocks m' = <[b := (Some <$> done ++ (f <$> todo)) ++ Some zero :: tl]> (blocks m)
    ∧ plan m' = plan m).
Proof.
  induction todo as [|c todo IH]; intros fuel done m Ho Hb Hlen Hfuel;
    (destruct fuel as [|fuel]; [simpl in Hfuel; lia|]); cbn [convert_loop].
  - eapply wp_bind, wp_get_length; [exact Ho|]. cbn [length].
    rewrite app_nil_r. zb. apply wp_ret.
    rewrite app_nil_r in Hb. simpl. rewrite app_nil_r. by rewrite insert_id.
  - pose proof SIZE_MOD_eq as HM. rewrite HM in *.
    rewrite length_app in Hlen. simpl in Hlen, Hfuel.
    eapply wp_bind, wp_get_length; [exact Ho|]. cbn [length].
    rewrite length_app. simpl List.length. zb.
    eapply wp_bind, wp_get_data; [exact Ho|]. cbn [data].
    eapply wp_bind, wp_load; [exact Hb|lia| |].
    { apply cells_lookup. rewrite Nat2Z.id, lookup_app_r, Nat.sub_diag by lia. done. }
    eapply wp_bind, wp_store; [exact Hb|lens; lia|].
    set (m1 := set_blocks _ _).
    assert (blocks m1 = <[b := (Some <$> (done ++ [f c]) ++ todo) ++ Some zero :: tl]> (blocks m)) as Hbl1.
    { subst m1. simpl. f_equal. rewrite Nat2Z.id.
      rewrite !fmap_app, <- !app_assoc. simpl.
      rewrite insert_app_r_alt by (rewrite length_fmap; lia).
      by rewrite length_fmap, Nat.sub_diag. }
    replace (wrap (Z.of_nat (List.length done) + 1)) with (Z.of_nat (List.length (done ++ [f c])))
      by (rewrite length_app; simpl; unwrap; lia).
    eapply wp_mono.
    { apply (IH fuel (done ++ [f c]) m1).
      - simpl. rewrite Ho. do 3 f_equal. rewrite !length_app. simpl. lia.
      - rewrite Hbl1. apply lookup_insert_eq.
      - rewrite !length_app. simpl. lia.
      - lia. }
    intros _ m2 (Hob & Hbl & Hpl). split_and!; [done| |done].
    rewrite Hbl, Hbl1, insert_insert_eq.
    by rewrite fmap_cons, <- (app_assoc done [f c]).
Qed.

Lemma convert_spec f m o b bs cap :
  holds m o b bs cap →
  wp (cstr_lock (Some o);; len ← get_length o;
      convert_loop (S (Z.to_nat len)) f o 0;; cstr_unlock (Some o);; mret true) m (λ r m',
    r = true ∧ holds m' o b (f <$> bs) cap ∧ frame m m' o b ∧ plan m' = plan m).
Proof.
  intros (Ho & Hcap & tl & Hb & Hcapeq).
  apply wp_bind, wp_lock.
  eapply wp_bind, wp_get_length; [exact Ho|]. cbn [length]. name_mem m1.
  eapply wp_seq.
  { apply (convert_loop_spec f o b cap tl bs _ [] m1); [exact Ho|exact Hb|simpl; lia|lia]. }
  intros _ m2 (Hob & Hbl & Hpl). simpl in Hbl.
  apply wp_bind, wp_unlock. apply wp_ret. simpl.
  split_and!; [done| | |done].
  - split; [|split; [done|]]; simpl.
    + rewrite Hob, length_fmap. exact Ho.
    + exists tl. rewrite Hbl, lookup_insert_eq, length_fmap. done.
  - split; simpl.
    + intros o2 _. by rewrite Hob.
    + intros p blk Hp Hblk. by rewrite Hbl, lookup_insert_ne.
Qed.

Lemma cstr_to_upper_spec m o b bs cap :
  holds m o b bs cap →
  wp (cstr_to_upper (Some o)) m (λ r m',
    r = true ∧ holds m' o b (toupper <$> bs) cap ∧ frame m m' o b ∧ plan m' = plan m).
Proof. apply convert_spec. Qed.

Lemma cstr_to_lower_spec m o b bs cap :
  holds m o b bs cap →
  wp (cstr_to_lower (Some o)) m (λ r m',
    r = true ∧ holds m' o b (tolower <$> bs) cap ∧ frame m m' o b ∧ plan m' = plan m).
Proof. apply convert_spec. Qed.

Lemma tolower_toupper c : tolower (toupper c) = tolower c.
Proof. destruct c as [[] [] [] [] [] [] [] []]; reflexivity. Qed.

Lemma toupper_idemp c : toupper (toupper c) = toupper c.
Proof. destruct c as [[] [] [] [] [] [] [] []]; reflexivity. Qed.


Lemma map_pointwise (f g : ascii → ascii) (l : list ascii) :
  (∀ c, f c = g c) → f <$> l = g <$> l.
Proof.
  intros H. induction l as [|c l IH]; [done|]. rewrite !fmap_cons. by rewrite H, IH.
Qed.

(** ** Destruction and clearing *)

Lemma cstr_destroy_spec m o b bs cap :
  holds m o b bs cap →
  wp (cstr_destroy (Some o)) m (λ r m',
    r = true ∧ objects m' = <[o := blank]> (objects m) ∧ blocks m' = delete b (blocks m)
    ∧ plan m' = plan m).
Proof.
  intros (Ho & Hcap & tl & Hb & Hcapeq). unfold cstr_destroy.
  eapply wp_bind, wp_get_data; [exact Ho|]. simpl. apply wp_bind.
  eapply wp_bind, wp_get_capacity; [exact Ho|]. simpl.
  eapply wp_bind, wp_SecureZeroMemory; [exact Hb|lens; lia|].
  eapply wp_bind, wp_free; [simpl; apply lookup_insert_eq|].
  eapply wp_assign; [exact Ho|].
  apply wp_bind, wp_emit.
  eapply wp_bind, wp_assign; [simpl; apply lookup_insert_eq|].
  eapply wp_bind, wp_assign; [simpl; apply lookup_insert_eq|].
  apply wp_ret. simpl. split_and!; [done| | |done].
  - by rewrite !insert_insert_eq.
  - by rewrite delete_insert_eq.
Qed.

Lemma cstr_destroy_null m o s :
  objects m !! o = Some s → data s = NULL →
  wp (cstr_destroy (Some o)) m (λ r m',
    r = true ∧ objects m' = <[o := blank]> (objects m) ∧ blocks m' = blocks m
    ∧ plan m' = plan m).
Proof.
  intros Ho Hd. unfold cstr_destroy.
  eapply wp_bind, wp_get_data; [exact Ho|]. rewrite Hd. apply wp_bind.
  apply wp_ret.
  apply wp_bind, wp_emit.
  eapply wp_bind, wp_assign; [exact Ho|].
  eapply wp_bind, wp_assign; [simpl; apply lookup_insert_eq|].
  apply wp_ret. simpl. split_and!; [done| |done..].
  rewrite !insert_insert_eq. unfold with_capacity, with_length. simpl. by rewrite Hd.
Qed.

Lemma cstr_clear_zeroes m o b bs cap :
  holds m o b bs cap →
  wp (cstr_clear (Some o)) m (λ r m',
    r = true
    ∧ objects m' = <[o := mkCString (Some b) 0 cap]> (objects m)
    ∧ blocks m' = <[b := replicate (Z.to_nat cap) (Some zero)]> (blocks m)
    ∧ plan m' = plan m).
Proof.
  intros (Ho & Hcap & tl & Hb & Hcapeq). unfold cstr_clear.
  apply wp_bind, wp_lock.
  eapply wp_bind, wp_get_data; [exact Ho|].
  eapply wp_bind, wp_get_capacity; [exact Ho|]. simpl.
  eapply wp_bind, wp_SecureZeroMemory; [exact Hb|lens; lia|].
  eapply wp_bind, wp_assign; [exact Ho|].
  apply wp_bind, wp_unlock. apply wp_ret. simpl. split_and!; [done..| |done].
  f_equal. rewrite drop_ge by (lens; lia). by rewrite app_nil_r.
Qed.

(** ** Rejected arguments *)

Lemma cstr_insert_rejected m o b bs cap index c :
  holds m o b bs cap → Z.of_nat (List.length bs) < index →
  wp (cstr_insert (Some o) index c) m (λ r m',
    r = false ∧ objects m' = objects m ∧ blocks m' = blocks m ∧ plan m' = plan m).
Proof.
  intros (Ho & Hcap & tl & Hb & Hcapeq) Hi. unfold cstr_insert.
  apply wp_bind, wp_lock.
  eapply wp_bind, wp_get_length; [exact Ho|]. simpl. zb.
  apply wp_bind, wp_unlock. by apply wp_ret.
Qed.

Lemma cstr_erase_rejected m o b bs cap index size :
  holds m o b bs cap → Z.of_nat (List.length bs) ≤ index ∨ size = 0 →
  wp (cstr_erase (Some o) index size) m (λ r m',
    r = false ∧ objects m' = objects m ∧ blocks m' = blocks m ∧ plan m' = plan m).
Proof.
  intros (Ho & Hcap & tl & Hb & Hcapeq) Hi. unfold cstr_erase.
  apply wp_bind, wp_lock.
  eapply wp_bind, wp_get_length; [exact Ho|]. simpl.
  replace ((index >=? Z.of_nat (List.length bs)) || (size =? 0)) with true.
  2:{ symmetry. apply orb_true_iff. rewrite Z.geb_le, Z.eqb_eq. lia. }
  apply wp_bind, wp_unlock. by apply wp_ret.
Qed.

(** ** The two tokenizers *)

Lemma bind_eq {A B} (c : M A) (k k' : A → M B) m :
  (∀ a m', c m = Ok a m' → k a m' = k' a m') → (c ≫= k) m = (c ≫= k') m.
Proof. intros H. unfold mbind, M_bind. destruct (c m) as [a m'|e]; [by apply H|done]. Qed.

Lemma bind_match {A B} (c : M A) (k : A → M B) m :
  (c ≫= k) m = match c m with Ok a m' => k a m' | Fault e => Fault e end.
Proof. done. Qed.

Lemma skip_token_le ds d len fuel : ∀ pos m p m',
  pos ≤ len → len < SIZE_MOD →
  skip_token fuel d ds len pos m = Ok p m' → p ≤ len.
Proof.
  induction fuel as [|fuel IH]; intros pos m p m' Hpos Hlen; [done|]. cbn [skip_token].
  destruct (Z.ltb_spec pos len) as [Hlt|Hge]; [|intros [= <- _]; lia].
  unfold mbind at 1, M_bind at 1. unfold load.
  unfold mbind at 1, M_bind at 1. destruct (block_of d m) as [blk m1|e]; [|done].
  destruct ((0 <=? pos) && (pos <? Z.of_nat (List.length blk))) eqn:Hin; [|done].
  apply andb_true_iff in Hin as [Hp%Z.leb_le _].
  destruct (blk !! Z.to_nat pos) as [[c|]|]; [|done..]. simpl.
  unfold mbind at 1, M_bind at 1. unfold strchr.
  destruct (strchr_bytes ds c) as [[i|]|]; simpl; [intros [= <- _]; lia| |done].
  apply IH; [|done]. rewrite wrap_small; lia.
Qed.

(** Without zone pairs and escape characters the scanner of
    [cstr_tokenize_ex] is the loop of [cstr_tokenize]. *)
Lemma scan_loop_plain ds d len fuel : ∀ pos s m,
  in_zone s = false → escape s = false →
  scan_loop fuel d ds None None len pos s m
  = match skip_token fuel d ds len pos m with
    | Ok p m' => Ok (p, if p <? len then mkScan false (zone_end s) false p else s) m'
    | Fault e => Fault e
    end.
Proof.
  induction fuel as [|fuel IH]; intros pos s m Hz He; [done|]. cbn [scan_loop skip_token].
  destruct (Z.ltb_spec pos len) as [Hlt|Hge].
  2:{ simpl. destruct (Z.ltb_spec pos len); [lia|done]. }
  unfold mbind, M_bind.
  destruct (load d pos m) as [c m1|e]; [|done].
  unfold scan_char. rewrite He, Hz. unfold strchr. simpl.
  destruct (strchr_bytes ds c) as [[i|]|]; simpl; [|by apply IH|done].
  destruct (Z.ltb_spec pos len); [done|lia].
Qed.

(** ** Critical sections: what an operation leaves held *)

Create HintDb shifts.

Lemma held_app x t1 t2 : held x (t1 ++ t2) = held x t1 + held x t2.
Proof. induction t1 as [|e t1 IH]; simpl; lia. Qed.

Lemma shifts_ret {A} x (a : A) n : n = 0 → shifts x (mret a) n.
Proof. intros -> m a' m' [= _ <-]. lia. Qed.

Lemma shifts_raise {A} x e n : shifts x (raise e : M A) n.
Proof. intros m a m' [=]. Qed.

Lemma shifts_bind {A B} x (c : M A) (k : A → M B) n1 n :
  shifts x c n1 → (∀ a, shifts x (k a) (n - n1)) → shifts x (c ≫= k) n.
Proof.
  intros Hc Hk m b m'. unfold mbind, M_bind.
  destruct (c m) as [a m1|e] eqn:Hcm; [|done]. intros Hkm.
  apply Hc in Hcm. apply Hk in Hkm. lia.
Qed.

Lemma shifts_eq {A} x (c : M A) n n' : shifts x c n' → n' = n → shifts x c n.
Proof. by intros H <-. Qed.

Lemma shifts_quiet {A} x (c : M A) :
  (∀ m a m', c m = Ok a m' → trace m' = trace m) → shifts x c 0.
Proof. intros H m a m' Hc. rewrite (H _ _ _ Hc). lia. Qed.

Lemma shifts_emit x e : shifts x (emit e) (lock_delta x e).
Proof. intros m a m' [= _ <-]. simpl. rewrite held_app. simpl. lia. Qed.

Lemma shifts_lock x o : shifts x (cstr_lock (Some o)) (if bool_decide (o = x) then 1 else 0).
Proof. apply (shifts_emit x (Enter o)). Qed.

Lemma shifts_unlock x o : shifts x (cstr_unlock (Some o)) (if bool_decide (o = x) then -1 else 0).
Proof. apply (shifts_emit x (Leave o)). Qed.

Lemma shifts_init x o : shifts x (emit (Init o)) 0.
Proof. apply (shifts_emit x (Init o)). Qed.

Lemma shifts_delete x o : shifts x (emit (Delete o)) 0.
Proof. apply (shifts_emit x (Delete o)). Qed.

Lemma shifts_malloc x n : shifts x (malloc n) 0.
Proof.
  apply shifts_quiet. intros m a m'. unfold malloc.
  destruct (next_decision m) as [[] pl]; (intros ?; by simplify_eq/=).
Qed.

Lemma shifts_free x p : shifts x (free p) 0.
Proof.
  apply shifts_quiet. intros m a m'. unfold free.
  destruct p as [b|]; [destruct (blocks m !! b)|]; (intros ?; by simplify_eq/=).
Qed.

Lemma shifts_realloc x p n : shifts x (realloc p n) 0.
Proof.
  destruct p as [b|]; [|apply shifts_malloc].
  apply shifts_quiet. intros m a m'. simpl.
  destruct (blocks m !! b); [|done].
  destruct (n =? 0); [intros ?; by simplify_eq/=|].
  destruct (next_decision m) as [[] pl]; [|intros ?; by simplify_eq/=].
  destruct (next_decision (set_plan pl m)) as [[] pl']; (intros ?; by simplify_eq/=).
Qed.

Lemma shifts_block_of x p : shifts x (block_of p) 0.
Proof.
  apply shifts_quiet. intros m a m'. unfold block_of.
  destruct p as [b|]; [destruct (blocks m !! b)|]; (intros ?; by simplify_eq/=).
Qed.

Lemma shifts_put_block x p blk : shifts x (put_block p blk) 0.
Proof.
  apply shifts_quiet. intros m a m'. unfold put_block.
  destruct p as [b|]; (intros ?; by simplify_eq/=).
Qed.

Lemma shifts_deref x o : shifts x (deref o) 0.
Proof.
  intros m a m'. unfold deref.
  destruct (objects m !! o); intros ?; simplify_eq/=.
  rewrite held_app. simpl. lia.
Qed.

Lemma shifts_assign x o f : shifts x (assign o f) 0.
Proof.
  intros m a m'. unfold assign.
  destruct (objects m !! o); intros ?; simplify_eq/=.
  rewrite held_app. simpl. lia.
Qed.

#[global] Hint Resolve shifts_lock shifts_unlock shifts_init shifts_delete shifts_malloc
  shifts_free shifts_realloc shifts_block_of shifts_put_block shifts_deref shifts_assign : shifts.

Ltac locks_arith := repeat case_bool_decide; lia.

(** Walks a computation: the net effect of a bind is the sum of the
    effects of its parts, and every branch has to reach the same total. *)
Ltac shifts_go :=
  cbv zeta;
  lazymatch goal with
  | |- shifts _ (mret _) _ => apply shifts_ret; locks_arith
  | |- shifts _ (raise _) _ => apply shifts_raise
  | |- shifts _ (mbind _ _) _ =>
      first [ eapply shifts_bind; [solve [eauto with shifts nocore] | intros ?; shifts_go]
            | eapply (shifts_bind _ _ _ 0); [shifts_go | intros ?; shifts_go] ]
  | |- shifts _ (match ?v with _ => _ end) _ => destruct v; shifts_go
  | |- shifts _ _ _ => eapply shifts_eq; [solve [eauto with shifts nocore] | locks_arith]
  end.

Lemma shifts_get_data x o : shifts x (get_data o) 0.
Proof. unfold get_data. shifts_go. Qed.
Lemma shifts_get_length x o : shifts x (get_length o) 0.
Proof. unfold get_length. shifts_go. Qed.
Lemma shifts_get_capacity x o : shifts x (get_capacity o) 0.
Proof. unfold get_capacity. shifts_go. Qed.
Lemma shifts_load x p i : shifts x (load p i) 0.
Proof. unfold load. shifts_go. Qed.
Lemma shifts_store x p i c : shifts x (store p i c) 0.
Proof. unfold store. shifts_go. Qed.
Lemma shifts_memmove x dst di src si n : shifts x (memmove dst di src si n) 0.
Proof. unfold memmove. shifts_go. Qed.
#[global] Hint Resolve shifts_get_data shifts_get_length shifts_get_capacity shifts_load
  shifts_store shifts_memmove : shifts.
Lemma shifts_memcpy x dst di src si n : shifts x (memcpy dst di src si n) 0.
Proof. unfold memcpy. shifts_go. Qed.
Lemma shifts_memcpy_bytes x dst di src n : shifts x (memcpy_bytes dst di src n) 0.
Proof. unfold memcpy_bytes. shifts_go. Qed.
Lemma shifts_SecureZeroMemory x p n : shifts x (SecureZeroMemory p n) 0.
Proof. unfold SecureZeroMemory. shifts_go. Qed.
Lemma shifts_strlen x p : shifts x (strlen p) 0.
Proof. unfold strlen. shifts_go. Qed.
Lemma shifts_strchr x s c : shifts x (strchr s c) 0.
Proof. unfold strchr. shifts_go. Qed.
Lemma shifts_strstr x h n : shifts x (strstr h n) 0.
Proof. unfold strstr. shifts_go. Qed.
#[global] Hint Resolve shifts_memcpy shifts_memcpy_bytes shifts_SecureZeroMemory shifts_strlen
  shifts_strchr shifts_strstr : shifts.
Lemma shifts_cstr_strdup x p : shifts x (cstr_strdup p) 0.
Proof. unfold cstr_strdup. shifts_go. Qed.
#[global] Hint Resolve shifts_cstr_strdup : shifts.

Lemma shifts_cstr_create x obj : shifts x (cstr_create obj) 0.
Proof. unfold cstr_create. shifts_go. Qed.
Lemma shifts_cstr_create_from_cstr x obj obj2 : shifts x (cstr_create_from_cstr obj obj2) 0.
Proof. unfold cstr_create_from_cstr. shifts_go. Qed.
Lemma shifts_cstr_create_from_chars x obj p : shifts x (cstr_create_from_chars obj p) 0.
Proof. unfold cstr_create_from_chars. shifts_go. Qed.
Lemma shifts_cstr_create_from_buffer x obj buf n : shifts x (cstr_create_from_buffer obj buf n) 0.
Proof. unfold cstr_create_from_buffer. shifts_go. Qed.
Lemma shifts_cstr_destroy x obj : shifts x (cstr_destroy obj) 0.
Proof. unfold cstr_destroy. shifts_go. Qed.
Lemma shifts_cstr_data x obj : shifts x (cstr_data obj) 0.
Proof. unfold cstr_data. shifts_go. Qed.
Lemma shifts_cstr_length x obj : shifts x (cstr_length obj) 0.
Proof. unfold cstr_length. shifts_go. Qed.
Lemma shifts_cstr_capacity x obj : shifts x (cstr_capacity obj) 0.
Proof. unfold cstr_capacity. shifts_go. Qed.
Lemma shifts_cstr_empty x obj : shifts x (cstr_empty obj) 0.
Proof. unfold cstr_empty. shifts_go. Qed.
Lemma shifts_cstr_get x obj i : shifts x (cstr_get obj i) 0.
Proof. unfold cstr_get. shifts_go. Qed.
Lemma shifts_cstr_at x obj i p : shifts x (cstr_at obj i p) 0.
Proof. unfold cstr_at. shifts_go. Qed.
Lemma shifts_cstr_resize x obj n : shifts x (cstr_resize obj n) 0.
Proof. unfold cstr_resize. shifts_go. Qed.
#[global] Hint Resolve shifts_cstr_get shifts_cstr_resize shifts_cstr_create_from_chars : shifts.
Lemma shifts_cstr_front x obj : shifts x (cstr_front obj) 0.
Proof. unfold cstr_front. shifts_go. Qed.
Lemma shifts_cstr_back x obj : shifts x (cstr_back obj) 0.
Proof. unfold cstr_back. shifts_go. Qed.
Lemma shifts_cstr_shrink_to_fit x obj : shifts x (cstr_shrink_to_fit obj) 0.
Proof. unfold cstr_shrink_to_fit. shifts_go. Qed.
Lemma shifts_cstr_clear x obj : shifts x (cstr_clear obj) 0.
Proof. unfold cstr_clear. shifts_go. Qed.
Lemma shifts_cstr_push_back_char x obj c : shifts x (cstr_push_back_char obj c) 0.
Proof. unfold cstr_push_back_char. shifts_go. Qed.
Lemma shifts_cstr_pop_back x obj : shifts x (cstr_pop_back obj) 0.
Proof. unfold cstr_pop_back. shifts_go. Qed.
Lemma shifts_cstr_append_cstr x obj obj2 : shifts x (cstr_append_cstr obj obj2) 0.
Proof. unfold cstr_append_cstr. shifts_go. Qed.
Lemma shifts_cstr_append_chars x obj p : shifts x (cstr_append_chars obj p) 0.
Proof. unfold cstr_append_chars. shifts_go. Qed.
Lemma shifts_cstr_erase x obj i n : shifts x (cstr_erase obj i n) 0.
Proof. unfold cstr_erase. shifts_go. Qed.
Lemma shifts_cstr_insert x obj i c : shifts x (cstr_insert obj i c) 0.
Proof. unfold cstr_insert. shifts_go. Qed.
Lemma shifts_cstr_swap x obj obj2 : shifts x (cstr_swap obj obj2) 0.
Proof. unfold cstr_swap. shifts_go. Qed.
Lemma shifts_cstr_substring x obj dest i n : shifts x (cstr_substring obj dest i n) 0.
Proof. unfold cstr_substring. shifts_go. Qed.
Lemma shifts_cstr_find_cstr x obj obj2 : shifts x (cstr_find_cstr obj obj2) 0.
Proof. unfold cstr_find_cstr. shifts_go. Qed.
Lemma shifts_cstr_find_chars x obj p : shifts x (cstr_find_chars obj p) 0.
Proof. unfold cstr_find_chars. shifts_go. Qed.

Lemma shifts_trim_front x d e fuel : ∀ s, shifts x (trim_front fuel d s e) 0.
Proof. induction fuel as [|fuel IH]; intros s; cbn [trim_front]; shifts_go. Qed.
Lemma shifts_trim_back x d s fuel : ∀ e, shifts x (trim_back fuel d s e) 0.
Proof. induction fuel as [|fuel IH]; intros e; cbn [trim_back]; shifts_go. Qed.
Lemma shifts_skip_delimiters x d ds len fuel : ∀ pos, shifts x (skip_delimiters fuel d ds len pos) 0.
Proof. induction fuel as [|fuel IH]; intros pos; cbn [skip_delimiters]; shifts_go. Qed.
Lemma shifts_skip_token x d ds len fuel : ∀ pos, shifts x (skip_token fuel d ds len pos) 0.
Proof. induction fuel as [|fuel IH]; intros pos; cbn [skip_token]; shifts_go. Qed.
Lemma shifts_scan_loop x d ds zp ec len fuel : ∀ pos s,
  shifts x (scan_loop fuel d ds zp ec len pos s) 0.
Proof. induction fuel as [|fuel IH]; intros pos s; cbn [scan_loop]; shifts_go. Qed.
Lemma shifts_convert_loop x f o fuel : ∀ i, shifts x (convert_loop fuel f o i) 0.
Proof. induction fuel as [|fuel IH]; intros i; cbn [convert_loop]; shifts_go. Qed.
#[global] Hint Resolve shifts_trim_front shifts_trim_back shifts_skip_delimiters
  shifts_skip_token shifts_scan_loop shifts_convert_loop : shifts.

Lemma shifts_cstr_trim x obj : shifts x (cstr_trim obj) 0.
Proof. unfold cstr_trim. shifts_go. Qed.
Lemma shifts_cstr_to_upper x obj : shifts x (cstr_to_upper obj) 0.
Proof. unfold cstr_to_upper. shifts_go. Qed.
Lemma shifts_cstr_to_lower x obj : shifts x (cstr_to_lower obj) 0.
Proof. unfold cstr_to_lower. shifts_go. Qed.
Lemma shifts_cstr_tokenize x obj token ds pos : shifts x (cstr_tokenize obj token ds pos) 0.
Proof. unfold cstr_tokenize. shifts_go. Qed.
Lemma shifts_cstr_tokenize_ex x obj token ds zp ec pos :
  shifts x (cstr_tokenize_ex obj token ds zp ec pos) 0.
Proof. unfold cstr_tokenize_ex. shifts_go. Qed.

(** ** Trimming, exactly *)

Lemma trim_front_exact m b rest e : ∀ pre fuel done tail,
  blocks m !! b = Some ((Some <$> done ++ pre ++ tail) ++ rest) →
  Forall (λ c, isspace c = true) pre →
  (∀ c, head tail = Some c → isspace c = false) →
  e + 1 = Z.of_nat (List.length (done ++ pre ++ tail)) → e + 1 < SIZE_MOD →
  (List.length pre < fuel)%nat →
  wp (trim_front fuel (Some b) (Z.of_nat (List.length done)) e) m (λ r m',
    m' = m ∧ r = Z.of_nat (List.length done + List.length pre)).
Proof.
  induction pre as [|c pre IH]; intros fuel done tail Hb Hpre Htail He Hmod Hfuel;
    (destruct fuel as [|fuel]; [simpl in Hfuel; lia|]); cbn [trim_front];
    rewrite !length_app in He; simpl in He.
  - destruct (Z.leb_spec (Z.of_nat (List.length done)) e) as [Hle|Hgt].
    + destruct tail as [|c tail]; [simpl in He; lia|].
      eapply wp_bind, wp_load; [exact Hb|lia| |].
      { apply cells_lookup. rewrite Nat2Z.id. simpl.
        by rewrite lookup_app_r, Nat.sub_diag by lia. }
      rewrite (Htail c) by done. apply wp_ret. split; [done|]. simpl. lia.
    + apply wp_ret. split; [done|]. simpl. lia.
  - apply Forall_cons in Hpre as [Hc Hpre].
    rewrite (proj2 (Z.leb_le _ e)) by lia.
    eapply wp_bind, wp_load; [exact Hb|lia| |].
    { apply cells_lookup. rewrite Nat2Z.id.
      by rewrite lookup_app_r, Nat.sub_diag by lia. }
    rewrite Hc.
    replace (wrap (Z.of_nat (List.length done) + 1)) with (Z.of_nat (List.length (done ++ [c])))
      by (rewrite length_app; simpl; rewrite wrap_small; lia).
    eapply wp_mono.
    { apply (IH fuel (done ++ [c]) tail); [|done|done| |done|simpl in Hfuel; lia].
      - by rewrite <- app_assoc.
      - rewrite !length_app. simpl. lia. }
    intros r m' (-> & ->). split; [done|]. rewrite length_app. simpl. lia.
Qed.

Lemma trim_back_exact m b rest start front c0 : ∀ post fuel done,
  blocks m !! b = Some ((Some <$> (front ++ [c0]) ++ post ++ done) ++ rest) →
  Forall (λ c, isspace c = true) post → isspace c0 = false →
  0 ≤ start ≤ Z.of_nat (List.length front) →
  Z.of_nat (List.length front + 1 + List.length post) < SIZE_MOD →
  (List.length post < fuel)%nat →
  wp (trim_back fuel (Some b) start (Z.of_nat (List.length front + List.length post))) m
     (λ r m', m' = m ∧ r = Z.of_nat (List.length front)).
Proof.
  induction post as [|c post IH] using rev_ind; intros fuel done Hb Hpost Hc0 Hs Hmod Hfuel;
    (destruct fuel as [|fuel]; [simpl in Hfuel; lia|]); cbn [trim_back].
  - simpl List.length. rewrite Nat.add_0_r.
    rewrite Z.geb_leb, (proj2 (Z.leb_le start _)) by lia.
    eapply wp_bind, wp_load; [exact Hb|lia| |].
    { apply cells_lookup. rewrite Nat2Z.id, <- app_assoc.
      by rewrite lookup_app_r, Nat.sub_diag by lia. }
    rewrite Hc0. by apply wp_ret.
  - apply Forall_app in Hpost as [Hpost Hc]. rewrite Forall_singleton in Hc.
    rewrite length_app in *. simpl List.length in *.
    rewrite Z.geb_leb, (proj2 (Z.leb_le start _)) by lia.
    eapply wp_bind, wp_load; [exact Hb|lia| |].
    { apply cells_lookup. rewrite Nat2Z.id.
      replace ((front ++ [c0]) ++ (post ++ [c]) ++ done)
        with (((front ++ [c0]) ++ post) ++ c :: done) by (by rewrite <- !app_assoc).
      rewrite lookup_app_r by (rewrite !length_app; simpl; lia).
      replace (List.length front + (List.length post + 1)
               - List.length ((front ++ [c0]) ++ post))%nat with 0%nat
        by (rewrite !length_app; simpl; lia).
      done. }
    rewrite Hc.
    replace (wrap (Z.of_nat (List.length front + (List.length post + 1)) - 1))
      with (Z.of_nat (List.length front + List.length post)) by (rewrite wrap_small; lia).
    apply (IH fuel (c :: done)); [|exact Hpost|exact Hc0|exact Hs|lia|lia].
    by rewrite <- (app_assoc post [c] done) in Hb.
Qed.

Lemma trim_finish m o b bs cap start nl :
  holds m o b bs cap → 0 ≤ start → 0 ≤ nl → start + nl ≤ Z.of_nat (List.length bs) →
  wp ((if start >? 0 then memmove (Some b) 0 (Some b) start nl else mret ());;
      store (Some b) nl zero;;
      assign o (with_length nl);;
      cstr_unlock (Some o);;
      mret true) m
     (λ r m', r = true
       ∧ holds m' o b (take (Z.to_nat nl) (drop (Z.to_nat start) bs)) cap ∧ frame m m' o b).
Proof.
  intros (Ho & Hcap & tl & Hb & Hcapeq) Hstart Hnl0 Hnl.
  set (blk := (Some <$> bs) ++ Some zero :: tl) in *.
  assert (Z.of_nat (List.length blk) = cap) as Hblk by (subst blk; lens; lia).
  eapply (wp_seq _ _ _ (λ _ m1, objects m1 = objects m ∧ trace m1 = trace m ∧
            blocks m1 = <[b := take (Z.to_nat nl) (drop (Z.to_nat start) blk)
                                 ++ drop (Z.to_nat nl) blk]> (blocks m))).
  { destruct (Z.ltb_spec 0 start) as [Hlt|Hge]; rewrite Z.gtb_ltb.
    - rewrite (proj2 (Z.ltb_lt 0 start)) by lia.
      eapply wp_memmove; [exact Hb|exact Hb|lia..|]. simpl. done.
    - rewrite (proj2 (Z.ltb_ge 0 start)) by lia.
      apply wp_ret. split; [done|split; [done|]]. simpl.
      replace start with 0 by lia. change (Z.to_nat 0) with 0%nat.
      rewrite drop_0, take_drop. by rewrite insert_id. }
  intros _ m1 (Hobj & Htr & Hbl).
  eapply wp_bind, wp_store; [rewrite Hbl; apply lookup_insert_eq|lens; lia|].
  eapply wp_bind, wp_assign; [simpl; rewrite Hobj; exact Ho|].
  apply wp_bind, wp_unlock. apply wp_ret. simpl. split; [done|]. split.
  - split; [|split; [done|]]; simpl.
    + rewrite lookup_insert_eq. unfold with_length; simpl.
      do 2 f_equal; rewrite length_take, length_drop; lia.
    + exists (drop (S (Z.to_nat nl)) blk). rewrite lookup_insert_eq. split.
      * f_equal. subst blk. apply trim_cells. lia.
      * rewrite length_take, !length_drop. lia.
  - split; simpl.
    + intros o2 Hne. rewrite lookup_insert_ne by done. by rewrite Hobj.
    + intros p blk' Hp Hblk'. by rewrite lookup_insert_ne, Hbl, lookup_insert_ne.
Qed.

Lemma cstr_trim_exact m o b pre mid post cap :
  holds m o b (pre ++ mid ++ post) cap →
  Forall (λ c, isspace c = true) pre → Forall (λ c, isspace c = true) post →
  (∀ c, head mid = Some c → isspace c = false) →
  (∀ c, last mid = Some c → isspace c = false) →
  wp (cstr_trim (Some o)) m (λ r m',
    r = negb (bool_decide (pre ++ mid ++ post = []))
    ∧ holds m' o b mid cap ∧ frame m m' o b).
Proof.
  intros Hh Hpre Hpost Hhead Hlast. pose proof Hh as (Ho & Hcap & tl & Hb & Hcapeq).
  pose proof SIZE_MOD_eq as HM.
  unfold cstr_trim.
  apply wp_bind, wp_lock.
  eapply wp_bind, wp_get_length; [exact Ho|]. cbn [length].
  destruct (decide (pre ++ mid ++ post = [])) as [Hnil|Hne].
  { rewrite Hnil in *. simpl. apply wp_bind, wp_unlock. apply wp_ret. split; [done|].
    apply app_eq_nil in Hnil as [_ [-> _]%app_eq_nil].
    split; [by eapply holds_frame|by apply frame_refl]. }
  rewrite (bool_decide_eq_false_2 _ Hne).
  assert (0 < List.length (pre ++ mid ++ post))%nat as Hpos.
  { destruct (pre ++ mid ++ post); [done|simpl; lia]. }
  set (bs := pre ++ mid ++ post) in *.
  rewrite (proj2 (Z.eqb_neq _ 0)) by lia.
  eapply wp_bind, wp_get_data; [exact Ho|]. cbn [data].
  rewrite (wrap_small (Z.of_nat (List.length bs) - 1)) by lia.
  name_mem m0.
  assert (holds m0 o b bs cap) as Hh0 by (by eapply holds_frame).
  assert (frame m m0 o b) as Hfr0 by (by apply frame_refl).
  assert (∀ start nl,
    take (Z.to_nat nl) (drop (Z.to_nat start) bs) = mid →
    0 ≤ start → 0 ≤ nl → start + nl ≤ Z.of_nat (List.length bs) →
    wp ((if start >? 0 then memmove (Some b) 0 (Some b) start nl else mret ());;
        store (Some b) nl zero;; assign o (with_length nl);; cstr_unlock (Some o);; mret true) m0
       (λ r m', r = negb false ∧ holds m' o b mid cap ∧ frame m m' o b)) as Hfinish.
  { intros start nl Hmid ? ? ?. eapply wp_mono; [by apply (trim_finish m0 o b bs cap start nl)|].
    intros r m' (-> & Hh' & Hfr'). rewrite Hmid in Hh'. split; [done|]. split; [done|].
    by eapply frame_trans. }
  destruct mid as [|c0 mid0 _] using rev_ind.
  - (* nothing but whitespace *)
    eapply wp_seq.
    { apply (trim_front_exact m0 b (Some zero :: tl) (Z.of_nat (List.length bs) - 1)
               (pre ++ post) _ [] []);
        [simpl; rewrite app_nil_r; exact Hb| |done|simpl; rewrite app_nil_r;
               subst bs; simpl; lia|lia|subst bs; simpl; lia].
      by apply Forall_app. }
    intros start m1 (-> & ->). simpl List.length.
    replace (Z.of_nat (0 + List.length (pre ++ post))) with (Z.of_nat (List.length bs))
      by (subst bs; done).
    cbn [trim_back]. rewrite Z.geb_leb, (proj2 (Z.leb_gt _ _)) by lia.
    apply wp_bind, wp_ret. rewrite (proj2 (Z.leb_gt _ _)) by lia.
    apply Hfinish; [|lia..].
    rewrite Nat2Z.id, drop_all. done.
  - (* the content has a first and a last character that are not whitespace *)
    assert (isspace c0 = false) as Hc0 by (apply Hlast; by rewrite last_snoc).
    assert (bs = pre ++ (mid0 ++ [c0]) ++ post) as Ebs by done.
    assert (List.length bs = (List.length pre + (List.length mid0 + 1) + List.length post)%nat)
      as Elen by (rewrite Ebs, !length_app; simpl; lia).
    eapply wp_seq.
    { apply (trim_front_exact m0 b (Some zero :: tl) (Z.of_nat (List.length bs) - 1)
               pre _ [] ((mid0 ++ [c0]) ++ post)); [exact Hb|done| |simpl; fold bs; lia|lia|lia].
      intros c Hc. apply Hhead. destruct mid0; simpl in *; done. }
    intros start m1 (-> & ->). cbn [List.length Nat.add].
    replace (Z.of_nat (List.length bs) - 1)
      with (Z.of_nat (List.length (pre ++ mid0) + List.length post))
      by (rewrite length_app; lia).
    eapply wp_seq.
    { apply (trim_back_exact m0 b (Some zero :: tl) (Z.of_nat (List.length pre))
               (pre ++ mid0) c0 post _ []).
      - rewrite app_nil_r. subst m0. simpl. rewrite Hb. do 3 f_equal.
        rewrite Ebs. by rewrite <- !app_assoc.
      - done.
      - done.
      - rewrite length_app. lia.
      - rewrite length_app. lia.
      - lia. }
    intros e m1 (-> & ->). rewrite length_app.
    rewrite (proj2 (Z.leb_le _ _)) by lia.
    rewrite (wrap_small (_ - _)) by lia.
    rewrite wrap_small by lia.
    apply Hfinish; [|lia..].
    replace (Z.to_nat (Z.of_nat (List.length pre + List.length mid0)
                        - Z.of_nat (List.length pre) + 1))
      with (List.length (mid0 ++ [c0])) by (rewrite length_app; simpl; lia).
    rewrite Nat2Z.id, Ebs, drop_app_length. by rewrite take_app_length.
Qed.

(** ** Combining and running specifications *)

Lemma wp_and {A} (c : M A) m (Q1 Q2 : A → mem → Prop) :
  wp c m Q1 → wp c m Q2 → wp c m (λ a m', Q1 a m' ∧ Q2 a m').
Proof. unfold wp. by destruct (c m). Qed.

Lemma wp_run {A} (c : M A) m Q : wp c m Q → ∃ a m', c m = Ok a m' ∧ Q a m'.
Proof. apply wp_ok. Qed.

Lemma get_data_run m o s :
  objects m !! o = Some s → get_data o m = Ok (data s) (note (Read o) m).
Proof. intros H. unfold get_data, mbind, M_bind, deref. by rewrite H. Qed.

Lemma get_length_run m o s :
  objects m !! o = Some s → get_length o m = Ok (length s) (note (Read o) m).
Proof. intros H. unfold get_length, mbind, M_bind, deref. by rewrite H. Qed.

Lemma get_capacity_run m o s :
  objects m !! o = Some s → get_capacity o m = Ok (capacity s) (note (Read o) m).
Proof. intros H. unfold get_capacity, mbind, M_bind, deref. by rewrite H. Qed.

Ltac concrete_holds :=
  split; [reflexivity|split; [reflexivity|eexists; split; reflexivity]].

Ltac by_computation := apply (bool_decide_unpack _); vm_compute; exact I.

(** ** Insertion and erasure at any index *)

Lemma cstr_erase_full m o b bs cap index size :
  holds m o b bs cap → 0 ≤ index → 0 ≤ size < SIZE_MOD →
  wp (cstr_erase (Some o) index size) m (λ r m',
    r = bool_decide (index < Z.of_nat (List.length bs) ∧ 0 < size)
    ∧ holds m' o b (take (Z.to_nat index) bs ++ drop (Z.to_nat (index + size)) bs) cap
    ∧ frame m m' o b).
Proof.
  intros Hh Hi Hs.
  destruct (decide (index < Z.of_nat (List.length bs) ∧ 0 < size)) as [[Hlt Hpos]|Hno].
  - rewrite bool_decide_eq_true_2 by done.
    set (n := Z.to_nat (Z.min size (Z.of_nat (List.length bs) - index))).
    eapply wp_mono.
    { apply (cstr_erase_spec m o b (take (Z.to_nat index) bs)
               (take n (drop (Z.to_nat index) bs))
               (drop n (drop (Z.to_nat index) bs)) cap index size).
      - by rewrite !take_drop.
      - rewrite length_take. lia.
      - lia.
      - rewrite length_take, length_drop. lia.
      - rewrite length_take, !length_drop. lia. }
    intros r m' (-> & Hh' & Hfr). split; [done|]. split; [|done].
    rewrite drop_drop in Hh'.
    destruct (decide (size ≤ Z.of_nat (List.length bs) - index)) as [Hle|Hgt].
    + replace (Z.to_nat (index + size)) with (Z.to_nat index + n)%nat by lia. done.
    + rewrite (drop_ge bs (Z.to_nat index + n)) in Hh' by lia.
      rewrite (drop_ge bs (Z.to_nat (index + size))) by lia. done.
  - rewrite bool_decide_eq_false_2 by done.
    eapply wp_mono; [apply (cstr_erase_rejected m o b bs cap index size Hh); lia|].
    intros r m' (-> & Hob & Hbl & _). split; [done|]. split; [|by apply frame_refl].
    assert (take (Z.to_nat index) bs ++ drop (Z.to_nat (index + size)) bs = bs) as ->.
    { destruct (decide (size = 0)) as [->|Hsz].
      - rewrite Z.add_0_r. apply take_drop.
      - rewrite take_ge, drop_ge by lia. apply app_nil_r. }
    by eapply holds_frame.
Qed.

(** [cstr_insert] at any index: it succeeds exactly when the index is
    within the content and the buffer has room or can grow. *)
Lemma cstr_insert_full_strong m o b bs cap index c :
  holds m o b bs cap → 0 ≤ index → Z.of_nat (List.length bs) + 2 < SIZE_MOD →
  wp (cstr_insert (Some o) index c) m (λ r m',
    r = bool_decide (index ≤ Z.of_nat (List.length bs)
                     ∧ (Z.of_nat (List.length bs) + 2 ≤ cap ∨ granted m))
    ∧ if r then
        index ≤ Z.of_nat (List.length bs)
        ∧ ∃ b' cap', holds m' o b' (take (Z.to_nat index) bs ++ c :: drop (Z.to_nat index) bs) cap'
            ∧ (Z.of_nat (List.length bs) + 2 ≤ cap → b' = b ∧ cap' = cap)
            ∧ frame m m' o b
      else holds m' o b bs cap ∧ frame m m' o b
           ∧ (Z.of_nat (List.length bs) < index
              ∨ (cap < Z.of_nat (List.length bs) + 2 ∧ ¬ granted m))).
Proof.
  intros Hh Hi Hlen.
  destruct (decide (index ≤ Z.of_nat (List.length bs))) as [Hle|Hgt].
  - eapply wp_mono.
    { apply (cstr_insert_strong m o b (take (Z.to_nat index) bs) (drop (Z.to_nat index) bs)
               cap index c).
      - by rewrite take_drop.
      - rewrite length_take. lia.
      - rewrite length_take, length_drop. lia. }
    assert (Z.of_nat (List.length (take (Z.to_nat index) bs)
                      + List.length (drop (Z.to_nat index) bs)) = Z.of_nat (List.length bs))
      as Hl by (rewrite length_take, length_drop; lia).
    intros r m'; rewrite Hl. intros [Hr Hpost].
    assert (r = bool_decide (index ≤ Z.of_nat (List.length bs)
                             ∧ (Z.of_nat (List.length bs) + 2 ≤ cap ∨ granted m))) as Hr'.
    { rewrite Hr. apply bool_decide_ext. tauto. }
    split; [exact Hr'|]. destruct r.
    + destruct Hpost as (b' & cap' & Hh' & Hkeep & _ & Hfr). split; [done|]. by exists b', cap'.
    + destruct Hpost as (Hh' & Hfr & Hsmall). rewrite take_drop in Hh'.
      symmetry in Hr. apply bool_decide_eq_false_1 in Hr.
      split_and!; [done|done|]. right. split; [done|]. intros Hg. apply Hr. by right.
  - eapply wp_mono; [apply (cstr_insert_rejected m o b bs cap index c Hh); lia|].
    intros r m' (-> & Hob & Hbl & _). split.
    { symmetry. apply bool_decide_eq_false_2. lia. }
    split_and!; [by eapply holds_frame|by apply frame_refl|left; lia].
Qed.

Lemma cstr_insert_full m o b bs cap index c :
  holds m o b bs cap → 0 ≤ index → Z.of_nat (List.length bs) + 2 < SIZE_MOD →
  wp (cstr_insert (Some o) index c) m (λ r m',
    if r then
      index ≤ Z.of_nat (List.length bs)
      ∧ ∃ b' cap', holds m' o b' (take (Z.to_nat index) bs ++ c :: drop (Z.to_nat index) bs) cap'
          ∧ (Z.of_nat (List.length bs) + 2 ≤ cap → b' = b ∧ cap' = cap)
          ∧ frame m m' o b
    else holds m' o b bs cap ∧ frame m m' o b
         ∧ (Z.of_nat (List.length bs) < index ∨ cap < Z.of_nat (List.length bs) + 2)).
Proof.
  intros Hh Hi Hlen. eapply wp_mono; [by apply cstr_insert_full_strong|].
  intros [] m' [_ Hpost]; [done|].
  destruct Hpost as (? & ? & [?|[? _]]); split_and!; auto.
Qed.

(** ** The tokenizers under any allocator *)

Lemma grants_two m m1 :
  granted m → plan m1 = (next_decision m).2 → granted m1 → grants 2 m.
Proof.
  unfold grants, granted, next_decision. intros Hg -> Hg1.
  destruct (plan m) as [|d [|d' pl]]; simpl in *; subst; by repeat constructor.
Qed.

(** The tail of both tokenizers, whatever the allocator decides: a denied
    temporary ends the call with false and the cursor not written; a
    denied duplicate still ends it with true, the cursor advanced and a
    token without storage. *)
Lemma emit_token_any m o b bs cap ot s0 ts te :
  holds m o b bs cap → objects m !! ot = Some s0 → ot ≠ o →
  0 ≤ ts ≤ te → te ≤ Z.of_nat (List.length bs) →
  wp (emit_token (Some o) (Some ot) (Some b) (Z.of_nat (List.length bs)) ts te) m (λ r m',
    holds m' o b bs cap
    ∧ if r.1 then
        r.2 = Some (if te <? Z.of_nat (List.length bs) then te + 1
                    else Z.of_nat (List.length bs))
        ∧ granted m
        ∧ (grants 2 m → wf m' ot)
        ∧ (¬ grants 2 m → ∃ s, objects m' !! ot = Some s ∧ data s = NULL)
      else ¬ granted m ∧ r.2 = None ∧ objects m' !! ot = Some s0).
Proof.
  intros Hh Hot Hne Hts Hte. pose proof Hh as (Ho & Hcap & tl & Hb & Hcapeq).
  pose proof SIZE_MOD_eq as HM. rewrite HM in *.
  pose proof (segment_length bs ts te Hts Hte) as Hseg.
  pose proof (cprefix_length (segment bs ts te)) as Hpre.
  unfold emit_token. unwrap.
  destruct (granted_dec m) as [Hg|Hg].
  2:{ eapply wp_bind, wp_malloc_deny; [exact Hg|].
      apply wp_bind, wp_unlock. apply wp_ret. simpl.
      split; [|done]. split; [done|split; [lia|]]. by exists tl. }
  eapply wp_bind, wp_malloc_grant; [exact Hg|]. intros tb Htb.
  assert (tb ≠ b) as Htbb by congruence.
  eapply wp_bind, wp_memcpy;
    [ exact Htbb
    | simpl; rewrite lookup_insert_ne by done; exact Hb
    | simpl; apply lookup_insert_eq
    | lens; lia.. |].
  eapply wp_bind, wp_store; [simpl; apply lookup_insert_eq|lens; lia|].
  set (m1 := set_blocks _ _).
  assert (blocks m1 = <[tb := (Some <$> segment bs ts te) ++ [Some zero]]> (blocks m)) as Hbl1.
  { subst m1. simpl. rewrite !insert_insert_eq. f_equal.
    rewrite segment_cells by lia.
    rewrite drop_replicate.
    replace (Z.to_nat (te - ts + 1) - Z.to_nat (te - ts))%nat with 1%nat by lia. simpl.
    rewrite insert_app_r_alt by (rewrite length_fmap; lia).
    replace (Z.to_nat (te - ts) - List.length (Some <$> segment bs ts te))%nat with 0%nat
      by (rewrite length_fmap; lia).
    done. }
  assert (objects m1 = objects m) as Hob1 by done.
  assert (plan m1 = (next_decision m).2) as Hpl1 by done.
  destruct (cprefix_cells (segment bs ts te)) as [ctl Hcells].
  eapply wp_seq.
  { apply (cstr_create_from_chars_spec m1 ot s0 tb (cprefix (segment bs ts te))).
    - by rewrite Hob1.
    - split; [apply cprefix_no_zero|]. exists ctl.
      by rewrite Hbl1, lookup_insert_eq, Hcells.
    - rewrite HM. lia. }
  intros ok m2 (-> & Hpost). simpl.
  destruct (granted_dec m1) as [Hg1|Hg1].
  - rewrite bool_decide_eq_true_2 in Hpost by done.
    destruct Hpost as (bt & Hht & Hbt & Hbl2 & Hob2).
    assert (bt ≠ tb) as Hbttb.
    { intros ->. rewrite Hbl1, lookup_insert_eq in Hbt. done. }
    eapply wp_bind, wp_free;
      [rewrite Hbl2, lookup_insert_ne, Hbl1 by done; apply lookup_insert_eq|].
    apply wp_bind, wp_unlock. apply wp_ret. simpl. split_and!.
    + split; [|split; [lia|]]; simpl.
      * rewrite Hob2, lookup_insert_ne, Hob1 by done. exact Ho.
      * exists tl. split; [|done].
        rewrite lookup_delete_ne, Hbl2, lookup_insert_ne, Hbl1, lookup_insert_ne;
          [done|done| |done].
        intros ->. rewrite Hbl1, lookup_insert_ne, Hb in Hbt; done.
    + done.
    + done.
    + intros _. exists bt, (cprefix (segment bs ts te)), (Z.of_nat (List.length (cprefix (segment bs ts te))) + 1).
      destruct Hht as (Ho' & Hcap' & tl' & Hb' & Hcapeq').
      split; [done|split; [done|]]. exists tl'. split; [|done]. simpl.
      by rewrite lookup_delete_ne.
    + intros Hn. destruct Hn. by eapply grants_two.
  - rewrite bool_decide_eq_false_2 in Hpost by done.
    destruct Hpost as (Hbl2 & Hob2).
    eapply wp_bind, wp_free; [rewrite Hbl2, Hbl1; apply lookup_insert_eq|].
    apply wp_bind, wp_unlock. apply wp_ret. simpl. split_and!.
    + split; [|split; [lia|]]; simpl.
      * rewrite Hob2, lookup_insert_ne, Hob1 by done. exact Ho.
      * exists tl. split; [|done].
        rewrite lookup_delete_ne, Hbl2, Hbl1, lookup_insert_ne; done.
    + done.
    + done.
    + intros Hg2. destruct Hg1. eapply grants_granted, (grants_next 1 m m1); done.
    + intros _. eexists. rewrite Hob2, lookup_insert_eq. done.
Qed.

(** Where the cursor of [cstr_tokenize] ends up, whatever the allocator
    decides. *)
Lemma cstr_tokenize_cursor m o b bs cap ot s0 ds start :
  holds m o b bs cap → objects m !! ot = Some s0 → ot ≠ o →
  zero ∈ ds → 0 ≤ start →
  let len := Z.of_nat (List.length bs) in
  wp (cstr_tokenize (Some o) (Some ot) (Some ds) (Some start)) m (λ r m',
    holds m' o b bs cap
    ∧ if r.1 then
        ∃ next, r.2 = Some next ∧ start < next ≤ len ∧ granted m
          ∧ (grants 2 m → wf m' ot)
          ∧ (¬ grants 2 m → ∃ s, objects m' !! ot = Some s ∧ data s = NULL)
      else (len ≤ start ∧ r.2 = None)
           ∨ (start < len ∧ r.2 = Some len
              ∧ ∀ i c, start ≤ i < len → bs !! Z.to_nat i = Some c → is_delim ds c = true)
           ∨ (start < len ∧ ¬ granted m ∧ r.2 = None ∧ objects m' !! ot = Some s0)).
Proof.
  intros Hh Hot Hne Hz Hstart len.
  pose proof Hh as (Ho & Hcap & tl & Hb & Hcapeq).
  pose proof SIZE_MOD_eq as HM.
  unfold cstr_tokenize.
  eapply wp_bind, wp_get_length; [exact Ho|]. cbn [length]. fold len.
  rewrite Z.geb_leb. destruct (Z.leb_spec len start) as [Hge|Hlt].
  { apply wp_ret. split; [done|]. simpl. left. done. }
  apply wp_bind, wp_lock.
  eapply wp_bind, wp_get_length; [exact Ho|].
  eapply wp_bind, wp_get_data; [exact Ho|]. cbn [length data]. fold len.
  name_mem m0.
  assert (holds m0 o b bs cap) as Hh0 by (eapply holds_frame; [exact Hh|done..]).
  eapply wp_seq.
  { apply (skip_delimiters_spec m0 b bs (Some zero :: tl) ds len); [exact Hb|done|done|lia..]. }
  intros ts m1 (-> & Hts & Hdl & Hstop).
  rewrite Z.geb_leb. destruct (Z.leb_spec len ts) as [Hge|Hlt2].
  { apply wp_bind, wp_unlock. apply wp_ret. split; [by eapply holds_frame|].
    simpl. right. left. split; [done|]. assert (ts = len) as -> by lia. split; [done|].
    intros i c Hi Hc. by eapply Hdl. }
  eapply wp_seq.
  { apply (skip_token_spec m0 b bs (Some zero :: tl) ds len); [exact Hb|done|done|lia..]. }
  intros te m1 (-> & Hte & Htok & Hend).
  assert (ts < te) as Hlt3.
  { destruct (Hstop Hlt2) as (c0 & Hc0 & Hnd0).
    destruct (decide (ts = te)) as [->|]; [|lia].
    destruct (Hend Hlt2) as (c & Hc & Hd). congruence. }
  eapply wp_mono.
  { eapply (emit_token_any m0 o b bs cap ot s0 ts te); [done|done|done|lia|lia]. }
  intros [ok cur] m' [Hho Hr]. split; [done|]. simpl in *. destruct ok.
  - destruct Hr as (-> & Hg & Hwf & Hnull). eexists. split; [done|].
    split; [|done].
    destruct (Z.ltb_spec te (Z.of_nat (List.length bs))); subst len; lia.
  - destruct Hr as (Hg & -> & Htok'). right. right. done.
Qed.

(** The same for [cstr_tokenize_ex]. *)
Lemma cstr_tokenize_ex_cursor m o b bs cap ot s0 ds zp ec start :
  holds m o b bs cap → objects m !! ot = Some s0 → ot ≠ o →
  config_ok ds zp ec → 0 ≤ start →
  let len := Z.of_nat (List.length bs) in
  wp (cstr_tokenize_ex (Some o) (Some ot) (Some ds) zp ec (Some start)) m (λ r m',
    holds m' o b bs cap
    ∧ if r.1 then
        ∃ next, r.2 = Some next ∧ start < next ≤ len ∧ granted m
          ∧ (grants 2 m → wf m' ot)
          ∧ (¬ grants 2 m → ∃ s, objects m' !! ot = Some s ∧ data s = NULL)
      else (len ≤ start ∧ r.2 = None)
           ∨ (start < len ∧ r.2 = Some len
              ∧ ∀ i c, start ≤ i < len → bs !! Z.to_nat i = Some c → is_delim ds c = true)
           ∨ (start < len ∧ ¬ granted m ∧ r.2 = None ∧ objects m' !! ot = Some s0)).
Proof.
  intros Hh Hot Hne Hok Hstart len.
  pose proof Hh as (Ho & Hcap & tl & Hb & Hcapeq).
  pose proof Hok as (Hz & _).
  pose proof SIZE_MOD_eq as HM.
  unfold cstr_tokenize_ex.
  eapply wp_bind, wp_get_length; [exact Ho|]. cbn [length]. fold len.
  rewrite Z.geb_leb. destruct (Z.leb_spec len start) as [Hge|Hlt].
  { apply wp_ret. split; [done|]. simpl. left. done. }
  apply wp_bind, wp_lock.
  eapply wp_bind, wp_get_length; [exact Ho|].
  eapply wp_bind, wp_get_data; [exact Ho|]. cbn [length data]. fold len.
  name_mem m0.
  assert (holds m0 o b bs cap) as Hh0 by (eapply holds_frame; [exact Hh|done..]).
  eapply wp_seq.
  { apply (skip_delimiters_spec m0 b bs (Some zero :: tl) ds len); [exact Hb|done|done|lia..]. }
  intros ts m1 (-> & Hts & Hdl & Hstop).
  rewrite Z.geb_leb. destruct (Z.leb_spec len ts) as [Hge|Hlt2].
  { apply wp_bind, wp_unlock. apply wp_ret. split; [by eapply holds_frame|].
    simpl. right. left. split; [done|]. assert (ts = len) as -> by lia. split; [done|].
    intros i c Hi Hc. by eapply Hdl. }
  destruct (Hstop Hlt2) as (c0 & Hc0 & Hnd0).
  eapply wp_seq.
  { apply (scan_loop_spec m0 b bs (Some zero :: tl) ds zp ec len); [exact Hb|done|done|lia..]. }
  intros [p s] m1 (-> & Hrun). fold scan_init in Hrun.
  pose proof (scan_list_bounds _ _ _ _ _ _ _ _ Hrun) as [Hp Hbreak].
  rewrite length_drop in Hp, Hbreak.
  assert ((if p =? len then len else token_end s) = p) as ->.
  { destruct (Z.eqb_spec p len) as [->|Hpl]; [done|]. apply Hbreak. lia. }
  eapply wp_mono.
  { eapply (emit_token_any m0 o b bs cap ot s0 ts p); [done|done|done|lia|lia]. }
  intros [ok cur] m' [Hho Hr]. split; [done|]. simpl in *. destruct ok.
  - destruct Hr as (-> & Hg & Hwf & Hnull). eexists. split; [done|].
    split; [|done].
    destruct (Z.ltb_spec p (Z.of_nat (List.length bs))); subst len; lia.
  - destruct Hr as (Hg & -> & Htok'). right. right. done.
Qed.

(** * Further properties of the code *)

(** ** Constructors *)

(** X1. [cstr_create] returns true exactly when the allocator grants its
    request for one byte.  It then leaves an empty, terminated buffer of
    capacity 1 in storage that was free before; when the request is
    denied it returns false and leaves every struct and block as it
    was. *)
Theorem create_yields_empty_buffer m o s0 :
  objects m !! o = Some s0 →
  wp (cstr_create (Some o)) m (λ r m',
    r = bool_decide (granted m)
    ∧ if r then ∃ b, holds m' o b [] 1 ∧ blocks m !! b = None ∧ frame m m' o b
      else objects m' = objects m ∧ blocks m' = blocks m).
Proof. apply cstr_create_strong. Qed.

Lemma create_yields_empty_buffer_witness :
  wp (cstr_create (Some src)) (set_plan [false] (static_mem [])) (λ r m',
    r = bool_decide (granted (set_plan [false] (static_mem [])))
    ∧ if r then ∃ b, holds m' src b [] 1 ∧ blocks (set_plan [false] (static_mem [])) !! b = None
                     ∧ frame (set_plan [false] (static_mem [])) m' src b
      else objects m' = objects (set_plan [false] (static_mem []))
           ∧ blocks m' = blocks (set_plan [false] (static_mem [])))
  ∧ wp (cstr_create (Some src)) (static_mem []) (λ r m',
      r = bool_decide (granted (static_mem []))
      ∧ if r then ∃ b, holds m' src b [] 1 ∧ blocks (static_mem []) !! b = None
                       ∧ frame (static_mem []) m' src b
        else objects m' = objects (static_mem []) ∧ blocks m' = blocks (static_mem [])).
Proof.
  split.
  - apply (create_yields_empty_buffer (set_plan [false] (static_mem [])) src blank). reflexivity.
  - apply (create_yields_empty_buffer (static_mem []) src blank). reflexivity.
Defined.

(** X2. [cstr_create_from_buffer] copies exactly [size] bytes, zero bytes
    included, appends the terminator and records the capacity [size + 1];
    when it returns false nothing has changed. *)
Theorem create_from_buffer_copies_every_byte m o s0 bytes size :
  objects m !! o = Some s0 →
  0 ≤ size ≤ Z.of_nat (List.length bytes) → size + 1 < SIZE_MOD →
  wp (cstr_create_from_buffer (Some o) (Some bytes) size) m (λ r m',
    if r then ∃ b, holds m' o b (take (Z.to_nat size) bytes) (size + 1)
                   ∧ blocks m !! b = None ∧ frame m m' o b
    else objects m' = objects m ∧ blocks m' = blocks m).
Proof. apply cstr_create_from_buffer_spec. Qed.

Lemma create_from_buffer_copies_every_byte_witness :
  wp (cstr_create_from_buffer (Some src) (Some ["a"; zero; "b"; "c"]%char) 3) (static_mem [])
    (λ r m',
      if r then ∃ b, holds m' src b (take (Z.to_nat 3) ["a"; zero; "b"; "c"]%char) (3 + 1)
                     ∧ blocks (static_mem []) !! b = None ∧ frame (static_mem []) m' src b
      else objects m' = objects (static_mem []) ∧ blocks m' = blocks (static_mem [])).
Proof.
  apply (create_from_buffer_copies_every_byte (static_mem []) src blank
           ["a"; zero; "b"; "c"]%char 3).
  - reflexivity.
  - simpl. lia.
  - reflexivity.
Defined.

(** X3. [cstr_create_from_chars] returns true whether or not the
    duplicate was allocated.  With a granted allocation the buffer holds
    the characters of the string with capacity length + 1; with a denied
    one the struct is left with a null [data], the length of the string
    and a non-zero capacity. *)
Theorem create_from_chars_ignores_failed_duplication m o s0 p cs :
  objects m !! o = Some s0 →
  cstring_at m p cs → Z.of_nat (List.length cs) + 1 < SIZE_MOD →
  wp (cstr_create_from_chars (Some o) (Some p)) m (λ r m',
    r = true
    ∧ ((granted m
        ∧ ∃ b, holds m' o b cs (Z.of_nat (List.length cs) + 1) ∧ blocks m !! b = None)
       ∨ (¬ granted m
          ∧ objects m' !! o = Some (mkCString NULL (Z.of_nat (List.length cs))
                                      (Z.of_nat (List.length cs) + 1))
          ∧ blocks m' = blocks m))).
Proof.
  intros Ho Hcs Hlen.
  eapply wp_mono; [by eapply cstr_create_from_chars_spec|].
  intros r m' (-> & Hpost). split; [done|].
  case_bool_decide as Hg.
  - left. destruct Hpost as (b & Hh & Hfree & _). eauto.
  - right. destruct Hpost as (Hbl & Hob). split; [done|]. rewrite Hob. by lk.
Qed.

Lemma create_from_chars_ignores_failed_duplication_witness :
  wp (cstr_create_from_chars (Some src) (Some 1%positive))
     (denying (static_mem (list_ascii_of_string "hi"))) (λ r m',
    r = true
    ∧ ((granted (denying (static_mem (list_ascii_of_string "hi")))
        ∧ ∃ b, holds m' src b (list_ascii_of_string "hi") (Z.of_nat 2 + 1)
               ∧ blocks (denying (static_mem (list_ascii_of_string "hi"))) !! b = None)
       ∨ (¬ granted (denying (static_mem (list_ascii_of_string "hi")))
          ∧ objects m' !! src = Some (mkCString NULL (Z.of_nat 2) (Z.of_nat 2 + 1))
          ∧ blocks m' = blocks (denying (static_mem (list_ascii_of_string "hi")))))).
Proof.
  apply (create_from_chars_ignores_failed_duplication
           (denying (static_mem (list_ascii_of_string "hi"))) src blank 1%positive
           (list_ascii_of_string "hi")).
  - reflexivity.
  - split; [by_computation|]. exists []. reflexivity.
  - reflexivity.
Defined.

(** X4. [cstr_create_from_cstr] duplicates the content into a block of
    exactly length + 1 bytes that was free before, copies the length and
    the capacity field of the source, and leaves the source as it was.
    The copy is a well-formed buffer when the source has no spare
    capacity. *)
Theorem copy_takes_the_capacity_of_the_source m o s0 o2 b2 bs2 cap2 :
  objects m !! o = Some s0 → o ≠ o2 →
  holds m o2 b2 bs2 cap2 → zero ∉ bs2 → granted m →
  wp (cstr_create_from_cstr (Some o) (Some o2)) m (λ r m',
    r = true
    ∧ ∃ b, blocks m !! b = None
      ∧ objects m' !! o = Some (mkCString (Some b) (Z.of_nat (List.length bs2)) cap2)
      ∧ blocks m' !! b = Some ((Some <$> bs2) ++ [Some zero])
      ∧ holds m' o2 b2 bs2 cap2
      ∧ (cap2 = Z.of_nat (List.length bs2) + 1 → holds m' o b bs2 cap2)).
Proof.
  intros Ho Hne Hh2 Hz Hg.
  eapply wp_mono; [by eapply cstr_create_from_cstr_spec|].
  intros r m' (-> & b & Hfree & Hob & Hbl & Hh2'). split; [done|].
  exists b. split_and!; [done..|].
  intros Hcap. split; [done|split; [by destruct Hh2 as (_ & ? & _)|]].
  exists []. split; [done|]. simpl. lia.
Qed.

Lemma copy_takes_the_capacity_of_the_source_witness :
  wp (cstr_create_from_cstr (Some tok) (Some src))
     (mem_with_room (list_ascii_of_string "hi") 5) (λ r m',
    r = true
    ∧ ∃ b, blocks (mem_with_room (list_ascii_of_string "hi") 5) !! b = None
      ∧ objects m' !! tok = Some (mkCString (Some b) (Z.of_nat 2) 8)
      ∧ blocks m' !! b = Some ((Some <$> list_ascii_of_string "hi") ++ [Some zero])
      ∧ holds m' src 1%positive (list_ascii_of_string "hi") 8
      ∧ (8 = Z.of_nat 2 + 1 → holds m' tok b (list_ascii_of_string "hi") 8)).
Proof.
  apply (copy_takes_the_capacity_of_the_source (mem_with_room (list_ascii_of_string "hi") 5)
           tok blank src 1%positive (list_ascii_of_string "hi") 8).
  - reflexivity.
  - discriminate.
  - concrete_holds.
  - by_computation.
  - reflexivity.
Defined.

(** X5. The capacity a copy records can exceed its storage: after
    [cstr_create_from_cstr] from a source with spare capacity,
    [cstr_push_back_char] on the copy skips the resize and writes the new
    terminator one byte past the end of the copy's block. *)
Theorem push_back_on_a_copy_overruns m o s0 o2 b2 bs2 cap2 c :
  objects m !! o = Some s0 → o ≠ o2 →
  holds m o2 b2 bs2 cap2 → zero ∉ bs2 → granted m →
  Z.of_nat (List.length bs2) + 2 ≤ cap2 →
  (cstr_create_from_cstr (Some o) (Some o2) ≫= λ _ : bool,
   cstr_push_back_char (Some o) c) m = Fault OutOfBounds.
Proof.
  intros Ho Hne Hh2 Hz Hg Hcap. pose proof Hh2 as (_ & Hcap2 & _).
  pose proof SIZE_MOD_eq as HM. rewrite HM in *.
  destruct (wp_run _ _ _ (cstr_create_from_cstr_spec m o s0 o2 b2 bs2 cap2 Ho Hne Hh2 Hz Hg))
    as (r & m1 & Hrun & -> & b & Hfree & Hob & Hbl & _).
  rewrite (bind_ok _ _ _ _ _ Hrun). unfold cstr_push_back_char.
  erewrite bind_ok; [|reflexivity]. set (m2 := mkMem _ _ _ _).
  assert (objects m2 !! o = Some (mkCString (Some b) (Z.of_nat (List.length bs2)) cap2))
    as Hob2 by done.
  erewrite bind_ok; [|by apply get_length_run].
  erewrite bind_ok; [|by apply get_capacity_run].
  cbn [length capacity]. rewrite (wrap_small (_ + 1)) by lia.
  rewrite Z.geb_leb, (proj2 (Z.leb_gt _ _)) by lia.
  erewrite bind_ok; [|reflexivity]. cbn [negb].
  erewrite bind_ok; [|by apply get_data_run].
  erewrite bind_ok; [|by apply get_length_run].
  cbn [data length]. set (m3 := note _ _).
  assert (blocks m3 !! b = Some ((Some <$> bs2) ++ [Some zero])) as Hbl3 by done.
  destruct (wp_run _ _ _ (wp_store b _ (Z.of_nat (List.length bs2)) c m3
                            (λ _ m', m' = set_blocks <[b := <[Z.to_nat (Z.of_nat (List.length bs2))
                                        := Some c]> ((Some <$> bs2) ++ [Some zero])]> m3)
                            Hbl3 ltac:(lens; lia) eq_refl))
    as ([] & m4 & Hstore & ->).
  rewrite (bind_ok _ _ _ _ _ Hstore).
  apply bind_fault. unfold store.
  erewrite bind_ok; [|unfold block_of; simpl; by rewrite lookup_insert_eq].
  rewrite (proj2 (Z.ltb_ge _ _)); [by rewrite andb_false_r|].
  rewrite wrap_small by lia. lens. lia.
Qed.

Lemma push_back_on_a_copy_overruns_witness :
  (cstr_create_from_cstr (Some tok) (Some src) ≫= λ _ : bool,
   cstr_push_back_char (Some tok) "!"%char) (mem_with_room (list_ascii_of_string "hi") 5)
  = Fault OutOfBounds.
Proof.
  apply (push_back_on_a_copy_overruns (mem_with_room (list_ascii_of_string "hi") 5)
           tok blank src 1%positive (list_ascii_of_string "hi") 8 "!"%char).
  - reflexivity.
  - discriminate.
  - concrete_holds.
  - by_computation.
  - reflexivity.
  - simpl. lia.
Defined.

(** ** Mutators *)

(** X6. [cstr_resize] to a size above the length returns true exactly
    when the allocator grants the reallocation.  The content is kept
    either way: on success the capacity is exactly the requested size and
    the storage is the block the buffer had or one that was free before,
    on failure the buffer is as it was.  Other structs and blocks are not
    touched. *)
Theorem resize_keeps_the_content m o b bs cap size :
  holds m o b bs cap → Z.of_nat (List.length bs) < size < SIZE_MOD →
  wp (cstr_resize (Some o) size) m (λ r m',
    r = bool_decide (granted m)
    ∧ if r then ∃ b', holds m' o b' bs size ∧ (b' = b ∨ blocks m !! b' = None)
                      ∧ frame m m' o b
      else holds m' o b bs cap ∧ frame m m' o b).
Proof. apply cstr_resize_strong. Qed.

Lemma resize_keeps_the_content_witness :
  let m := set_plan [true; false] (mem_of (list_ascii_of_string "hello")) in
  wp (cstr_resize (Some src) 32) m (λ r m',
    r = bool_decide (granted m)
    ∧ if r then ∃ b', holds m' src b' (list_ascii_of_string "hello") 32
                      ∧ (b' = 1%positive ∨ blocks m !! b' = None)
                      ∧ frame m m' src 1%positive
      else holds m' src 1%positive (list_ascii_of_string "hello") 6
           ∧ frame m m' src 1%positive).
Proof.
  cbv zeta.
  apply (resize_keeps_the_content (set_plan [true; false] (mem_of (list_ascii_of_string "hello")))
           src 1%positive (list_ascii_of_string "hello") 6 32).
  - concrete_holds.
  - simpl. split; [lia|reflexivity].
Defined.

(** X7. [cstr_shrink_to_fit] keeps the content and, when it returns
    true, leaves a capacity of exactly length + 1; when it returns false
    the buffer is as it was. *)
Theorem shrink_to_fit_leaves_no_slack m o b bs cap :
  holds m o b bs cap →
  wp (cstr_shrink_to_fit (Some o)) m (λ r m',
    if r then ∃ b', holds m' o b' bs (Z.of_nat (List.length bs) + 1) ∧ frame m m' o b
    else holds m' o b bs cap ∧ frame m m' o b).
Proof. apply cstr_shrink_to_fit_spec. Qed.

Lemma shrink_to_fit_leaves_no_slack_witness :
  wp (cstr_shrink_to_fit (Some src)) (mem_with_room (list_ascii_of_string "hi") 5) (λ r m',
    if r then ∃ b', holds m' src b' (list_ascii_of_string "hi") (Z.of_nat 2 + 1)
                    ∧ frame (mem_with_room (list_ascii_of_string "hi") 5) m' src 1%positive
    else holds m' src 1%positive (list_ascii_of_string "hi") 8
         ∧ frame (mem_with_room (list_ascii_of_string "hi") 5) m' src 1%positive).
Proof.
  apply (shrink_to_fit_leaves_no_slack (mem_with_room (list_ascii_of_string "hi") 5) src
           1%positive (list_ascii_of_string "hi") 8).
  concrete_holds.
Defined.

(** X8. [cstr_clear] returns true, sets the length to 0, keeps the
    storage and the capacity, and overwrites all [capacity] bytes of the
    storage with zero, the old content and the slack behind it alike. *)
Theorem clear_wipes_the_whole_buffer m o b bs cap :
  holds m o b bs cap →
  wp (cstr_clear (Some o)) m (λ r m',
    r = true ∧ holds m' o b [] cap
    ∧ blocks m' !! b = Some (replicate (Z.to_nat cap) (Some zero))
    ∧ frame m m' o b).
Proof.
  intros Hh.
  eapply wp_mono; [exact (wp_and _ _ _ _ (cstr_clear_spec m o b bs cap Hh)
                                          (cstr_clear_zeroes m o b bs cap Hh))|].
  intros r m' ((-> & Hh' & Hfr) & _ & _ & Hbl & _). simpl in *.
  split_and!; [done|done| |done]. rewrite Hbl. apply lookup_insert_eq.
Qed.

Lemma clear_wipes_the_whole_buffer_witness :
  wp (cstr_clear (Some src)) (mem_with_room (list_ascii_of_string "hi") 5) (λ r m',
    r = true ∧ holds m' src 1%positive [] 8
    ∧ blocks m' !! 1%positive = Some (replicate (Z.to_nat 8) (Some zero))
    ∧ frame (mem_with_room (list_ascii_of_string "hi") 5) m' src 1%positive).
Proof.
  apply (clear_wipes_the_whole_buffer (mem_with_room (list_ascii_of_string "hi") 5) src
           1%positive (list_ascii_of_string "hi") 8).
  concrete_holds.
Defined.

(** X9. [cstr_push_back_char] returns true exactly when the buffer has
    room for one more byte and the terminator, or has none and the
    allocator grants the resize.  When it returns true the byte is
    appended and the buffer stays terminated; when it returns false (no
    room, and the resize failed) the buffer is as it was. *)
Theorem push_back_appends m o b bs cap c :
  holds m o b bs cap → Z.of_nat (List.length bs) + 2 < SIZE_MOD →
  wp (cstr_push_back_char (Some o) c) m (λ r m',
    r = bool_decide (Z.of_nat (List.length bs) + 2 ≤ cap ∨ granted m)
    ∧ if r then ∃ b' cap', holds m' o b' (bs ++ [c]) cap' ∧ frame m m' o b
      else holds m' o b bs cap ∧ frame m m' o b).
Proof. apply cstr_push_back_char_strong. Qed.

Lemma push_back_appends_witness :
  let m := set_plan [false] (mem_of (list_ascii_of_string "hello")) in
  wp (cstr_push_back_char (Some src) "!"%char) m
    (λ r m',
      r = bool_decide (Z.of_nat 5 + 2 ≤ 6 ∨ granted m)
      ∧ if r then ∃ b' cap', holds m' src b' (list_ascii_of_string "hello" ++ ["!"%char]) cap'
                             ∧ frame m m' src 1%positive
        else holds m' src 1%positive (list_ascii_of_string "hello") 6
             ∧ frame m m' src 1%positive).
Proof.
  cbv zeta.
  apply (push_back_appends (set_plan [false] (mem_of (list_ascii_of_string "hello"))) src
           1%positive (list_ascii_of_string "hello") 6 "!"%char).
  - concrete_holds.
  - reflexivity.
Defined.

(** X10. [cstr_pop_back] returns false on an empty buffer and leaves it
    empty; otherwise it returns true and removes the last byte, keeping
    the storage and the capacity. *)
Theorem pop_back_removes_the_last_byte m o b bs cap :
  holds m o b bs cap →
  wp (cstr_pop_back (Some o)) m (λ r m',
    if r then ∃ bs' c, bs = bs' ++ [c] ∧ holds m' o b bs' cap ∧ frame m m' o b
    else bs = [] ∧ holds m' o b bs cap ∧ frame m m' o b).
Proof. apply cstr_pop_back_spec. Qed.

Lemma pop_back_removes_the_last_byte_witness :
  wp (cstr_pop_back (Some src)) (mem_of (list_ascii_of_string "hello")) (λ r m',
    if r then ∃ bs' c, list_ascii_of_string "hello" = bs' ++ [c]
                       ∧ holds m' src 1%positive bs' 6
                       ∧ frame (mem_of (list_ascii_of_string "hello")) m' src 1%positive
    else list_ascii_of_string "hello" = []
         ∧ holds m' src 1%positive (list_ascii_of_string "hello") 6
         ∧ frame (mem_of (list_ascii_of_string "hello")) m' src 1%positive).
Proof.
  apply (pop_back_removes_the_last_byte (mem_of (list_ascii_of_string "hello")) src
           1%positive (list_ascii_of_string "hello") 6).
  concrete_holds.
Defined.

(** X11. A push that succeeds followed by a pop gives back the content
    the buffer had, and the pop returns true. *)
Theorem push_then_pop_restores m o b bs cap c :
  holds m o b bs cap → Z.of_nat (List.length bs) + 2 < SIZE_MOD →
  wp (cstr_push_back_char (Some o) c ≫= λ pushed : bool,
      cstr_pop_back (Some o) ≫= λ popped : bool,
      mret (pushed, popped)) m
    (λ r m', r.1 = true → r.2 = true ∧ ∃ b' cap', holds m' o b' bs cap').
Proof.
  intros Hh Hlen.
  eapply wp_seq; [by apply cstr_push_back_char_spec|].
  intros [] m1.
  - intros (b1 & cap1 & Hh1 & _).
    eapply wp_seq; [by eapply cstr_pop_back_spec|].
    intros [] m2.
    + intros (bs' & c' & Heq & Hh2 & _). apply wp_ret. intros _. split; [done|].
      apply app_inj_tail in Heq as [-> _]. eauto.
    + intros (Heq & _). by destruct bs.
  - intros (Hh1 & _).
    eapply wp_seq; [by eapply cstr_pop_back_spec|].
    intros r m2 _. by apply wp_ret.
Qed.

Lemma push_then_pop_restores_witness :
  wp (cstr_push_back_char (Some src) "!"%char ≫= λ pushed : bool,
      cstr_pop_back (Some src) ≫= λ popped : bool,
      mret (pushed, popped)) (mem_of (list_ascii_of_string "hello"))
    (λ r m', r.1 = true →
             r.2 = true ∧ ∃ b' cap', holds m' src b' (list_ascii_of_string "hello") cap').
Proof.
  apply (push_then_pop_restores (mem_of (list_ascii_of_string "hello")) src 1%positive
           (list_ascii_of_string "hello") 6 "!"%char).
  - concrete_holds.
  - reflexivity.
Defined.

(** X12. [cstr_insert] returns true exactly when the index is at most
    the length and the buffer has room for one more byte and the
    terminator, or has none and the allocator grants the resize.  The
    byte then stands at that index with the bytes before and after it
    unchanged, and with enough capacity the storage is not reallocated.
    When it returns false the buffer is as it was, and either the index
    was beyond the length or the buffer was full and the resize was
    denied. *)
Theorem insert_places_the_byte_at_the_index m o b bs cap index c :
  holds m o b bs cap → 0 ≤ index → Z.of_nat (List.length bs) + 2 < SIZE_MOD →
  wp (cstr_insert (Some o) index c) m (λ r m',
    r = bool_decide (index ≤ Z.of_nat (List.length bs)
                     ∧ (Z.of_nat (List.length bs) + 2 ≤ cap ∨ granted m))
    ∧ if r then
        index ≤ Z.of_nat (List.length bs)
        ∧ ∃ b' cap', holds m' o b' (take (Z.to_nat index) bs ++ c :: drop (Z.to_nat index) bs) cap'
            ∧ (Z.of_nat (List.length bs) + 2 ≤ cap → b' = b ∧ cap' = cap)
            ∧ frame m m' o b
      else holds m' o b bs cap ∧ frame m m' o b
           ∧ (Z.of_nat (List.length bs) < index
              ∨ (cap < Z.of_nat (List.length bs) + 2 ∧ ¬ granted m))).
Proof. apply cstr_insert_full_strong. Qed.

Lemma insert_places_the_byte_at_the_index_witness :
  let m := set_plan [false] (mem_with_room (list_ascii_of_string "hello") 3) in
  wp (cstr_insert (Some src) 2 "p"%char) m
    (λ r m',
      r = bool_decide (2 ≤ Z.of_nat 5 ∧ (Z.of_nat 5 + 2 ≤ 9 ∨ granted m))
      ∧ if r then
          2 ≤ Z.of_nat 5
          ∧ ∃ b' cap', holds m' src b' (take (Z.to_nat 2) (list_ascii_of_string "hello")
                                        ++ "p"%char :: drop (Z.to_nat 2) (list_ascii_of_string "hello"))
                         cap'
              ∧ (Z.of_nat 5 + 2 ≤ 9 → b' = 1%positive ∧ cap' = 9)
              ∧ frame m m' src 1%positive
        else holds m' src 1%positive (list_ascii_of_string "hello") 9
             ∧ frame m m' src 1%positive
             ∧ (Z.of_nat 5 < 2 ∨ (9 < Z.of_nat 5 + 2 ∧ ¬ granted m))).
Proof.
  cbv zeta.
  apply (insert_places_the_byte_at_the_index
           (set_plan [false] (mem_with_room (list_ascii_of_string "hello") 3))
           src 1%positive (list_ascii_of_string "hello") 9 2 "p"%char).
  - concrete_holds.
  - lia.
  - reflexivity.
Defined.

(** X13. [cstr_erase] removes the bytes from [index] up to
    [index + size], clamped to the end of the content, and keeps storage
    and capacity; it returns true exactly when the index is inside the
    content and the size is not zero, and otherwise changes nothing. *)
Theorem erase_removes_the_clamped_range m o b bs cap index size :
  holds m o b bs cap → 0 ≤ index → 0 ≤ size < SIZE_MOD →
  wp (cstr_erase (Some o) index size) m (λ r m',
    r = bool_decide (index < Z.of_nat (List.length bs) ∧ 0 < size)
    ∧ holds m' o b (take (Z.to_nat index) bs ++ drop (Z.to_nat (index + size)) bs) cap
    ∧ frame m m' o b).
Proof. apply cstr_erase_full. Qed.

Lemma erase_removes_the_clamped_range_witness :
  wp (cstr_erase (Some src) 3 100) (mem_of (list_ascii_of_string "hello")) (λ r m',
    r = bool_decide (3 < Z.of_nat 5 ∧ 0 < 100)
    ∧ holds m' src 1%positive (take (Z.to_nat 3) (list_ascii_of_string "hello")
                               ++ drop (Z.to_nat (3 + 100)) (list_ascii_of_string "hello")) 6
    ∧ frame (mem_of (list_ascii_of_string "hello")) m' src 1%positive).
Proof.
  apply (erase_removes_the_clamped_range (mem_of (list_ascii_of_string "hello")) src
           1%positive (list_ascii_of_string "hello") 6 3 100).
  - concrete_holds.
  - lia.
  - split; [lia|reflexivity].
Defined.

(** X14. An insertion that succeeds followed by erasing one byte at the
    same index gives back the content the buffer had, and the erasure
    returns true. *)
Theorem insert_then_erase_restores m o b bs cap index c :
  holds m o b bs cap → 0 ≤ index → Z.of_nat (List.length bs) + 2 < SIZE_MOD →
  wp (cstr_insert (Some o) index c ≫= λ inserted : bool,
      cstr_erase (Some o) index 1 ≫= λ erased : bool,
      mret (inserted, erased)) m
    (λ r m', r.1 = true → r.2 = true ∧ ∃ b' cap', holds m' o b' bs cap').
Proof.
  intros Hh Hi Hlen. pose proof SIZE_MOD_eq as HM.
  eapply wp_seq; [by apply cstr_insert_full|].
  intros [] m1.
  - intros (Hle & b1 & cap1 & Hh1 & _).
    eapply wp_seq; [apply (cstr_erase_full _ _ _ _ _ index 1 Hh1); lia|].
    intros r m2 (-> & Hh2 & _). apply wp_ret. intros _. split.
    + apply bool_decide_eq_true_2. rewrite length_app, length_take. simpl.
      rewrite length_drop. lia.
    + exists b1, cap1.
      rewrite take_app_length' in Hh2 by (rewrite length_take; lia).
      replace (Z.to_nat (index + 1)) with (List.length (take (Z.to_nat index) bs) + 1)%nat in Hh2
        by (rewrite length_take; lia).
      rewrite <- drop_drop, drop_app_length in Hh2. simpl in Hh2.
      by rewrite drop_0, take_drop in Hh2.
  - intros (Hh1 & _).
    eapply wp_seq; [apply (cstr_erase_full _ _ _ _ _ index 1 Hh1); lia|].
    intros r m2 _. by apply wp_ret.
Qed.

Lemma insert_then_erase_restores_witness :
  wp (cstr_insert (Some src) 2 "p"%char ≫= λ inserted : bool,
      cstr_erase (Some src) 2 1 ≫= λ erased : bool,
      mret (inserted, erased)) (mem_of (list_ascii_of_string "hello"))
    (λ r m', r.1 = true →
             r.2 = true ∧ ∃ b' cap', holds m' src b' (list_ascii_of_string "hello") cap').
Proof.
  apply (insert_then_erase_restores (mem_of (list_ascii_of_string "hello")) src 1%positive
           (list_ascii_of_string "hello") 6 2 "p"%char).
  - concrete_holds.
  - lia.
  - reflexivity.
Defined.

(** X15. [cstr_append_chars] returns true exactly when the buffer has
    room for the characters of the C string and the terminator, or has
    not and the allocator grants the resize.  When it returns true the
    characters are appended and the buffer stays terminated; when it
    returns false (no room, and the resize failed) the buffer is as it
    was. *)
Theorem append_chars_concatenates m o b bs cap p cs :
  holds m o b bs cap → cstring_at m p cs → p ≠ b →
  Z.of_nat (List.length bs + List.length cs) + 1 < SIZE_MOD →
  wp (cstr_append_chars (Some o) (Some p)) m (λ r m',
    r = bool_decide (Z.of_nat (List.length bs + List.length cs) + 1 ≤ cap ∨ granted m)
    ∧ if r then ∃ b' cap', holds m' o b' (bs ++ cs) cap' ∧ frame m m' o b
      else holds m' o b bs cap ∧ frame m m' o b).
Proof. apply cstr_append_chars_strong. Qed.

Lemma append_chars_concatenates_witness :
  let m := set_plan [false]
             (mem_of2 (list_ascii_of_string "Hello") (list_ascii_of_string " World!")) in
  wp (cstr_append_chars (Some src) (Some 2%positive)) m (λ r m',
    r = bool_decide (Z.of_nat (5 + 7) + 1 ≤ 6 ∨ granted m)
    ∧ if r then ∃ b' cap', holds m' src b' (list_ascii_of_string "Hello"
                                            ++ list_ascii_of_string " World!") cap'
                 ∧ frame m m' src 1%positive
      else holds m' src 1%positive (list_ascii_of_string "Hello") 6
           ∧ frame m m' src 1%positive).
Proof.
  cbv zeta.
  apply (append_chars_concatenates
           (set_plan [false]
              (mem_of2 (list_ascii_of_string "Hello") (list_ascii_of_string " World!")))
           src 1%positive (list_ascii_of_string "Hello") 6 2%positive
           (list_ascii_of_string " World!")).
  - concrete_holds.
  - split; [by_computation|]. exists []. reflexivity.
  - discriminate.
  - reflexivity.
Defined.

(** X16. [cstr_append_cstr] appends the content of the second buffer,
    zero bytes included, and leaves the second buffer as it was; appending
    a buffer to itself doubles its content.  When it returns false the
    first buffer is as it was. *)
Theorem append_cstr_concatenates m o b bs cap :
  holds m o b bs cap →
  (∀ o2 b2 bs2 cap2,
     holds m o2 b2 bs2 cap2 → o2 ≠ o → b2 ≠ b →
     Z.of_nat (List.length bs + List.length bs2) + 1 < SIZE_MOD →
     wp (cstr_append_cstr (Some o) (Some o2)) m (λ r m',
       (if r then ∃ b' cap', holds m' o b' (bs ++ bs2) cap'
        else holds m' o b bs cap) ∧ holds m' o2 b2 bs2 cap2))
  ∧ (Z.of_nat (List.length bs + List.length bs) + 1 < SIZE_MOD →
     wp (cstr_append_cstr (Some o) (Some o)) m (λ r m',
       if r then ∃ b' cap', holds m' o b' (bs ++ bs) cap' ∧ frame m m' o b
       else holds m' o b bs cap ∧ frame m m' o b)).
Proof.
  intros Hh. split.
  - intros o2 b2 bs2 cap2 Hh2 Hne Hneb Hlen. by apply cstr_append_cstr_spec.
  - intros Hlen. by apply cstr_append_self_spec.
Qed.

Lemma append_cstr_concatenates_witness :
  wp (cstr_append_cstr (Some src) (Some tok))
     (mem_of2 (list_ascii_of_string "ab") ["c"; zero; "d"]%char) (λ r m',
       (if r then ∃ b' cap', holds m' src b' (list_ascii_of_string "ab" ++ ["c"; zero; "d"]%char)
                               cap'
        else holds m' src 1%positive (list_ascii_of_string "ab") 3)
       ∧ holds m' tok 2%positive ["c"; zero; "d"]%char 4)
  ∧ wp (cstr_append_cstr (Some src) (Some src))
       (mem_of2 (list_ascii_of_string "ab") ["c"; zero; "d"]%char) (λ r m',
         if r then ∃ b' cap', holds m' src b' (list_ascii_of_string "ab"
                                               ++ list_ascii_of_string "ab") cap'
                    ∧ frame (mem_of2 (list_ascii_of_string "ab") ["c"; zero; "d"]%char)
                            m' src 1%positive
         else holds m' src 1%positive (list_ascii_of_string "ab") 3
              ∧ frame (mem_of2 (list_ascii_of_string "ab") ["c"; zero; "d"]%char)
                      m' src 1%positive).
Proof.
  pose proof (append_cstr_concatenates
                (mem_of2 (list_ascii_of_string "ab") ["c"; zero; "d"]%char) src 1%positive
                (list_ascii_of_string "ab") 3) as H.
  destruct H as [Htwo Hself]; [concrete_holds|]. split.
  - apply (Htwo tok 2%positive ["c"; zero; "d"]%char 4).
    + concrete_holds.
    + discriminate.
    + discriminate.
    + reflexivity.
  - apply Hself. reflexivity.
Defined.

(** X17. [cstr_trim] removes exactly the leading and the trailing
    whitespace: if the content is whitespace, then a part that neither
    begins nor ends with whitespace, then whitespace, the buffer is left
    holding the middle part in the same storage.  It returns false only
    for an empty buffer. *)
Theorem trim_strips_the_outer_whitespace m o b pre mid post cap :
  holds m o b (pre ++ mid ++ post) cap →
  Forall (λ c, isspace c = true) pre → Forall (λ c, isspace c = true) post →
  (∀ c, head mid = Some c → isspace c = false) →
  (∀ c, last mid = Some c → isspace c = false) →
  wp (cstr_trim (Some o)) m (λ r m',
    r = negb (bool_decide (pre ++ mid ++ post = []))
    ∧ holds m' o b mid cap ∧ frame m m' o b).
Proof. apply cstr_trim_exact. Qed.

Lemma trim_strips_the_outer_whitespace_witness :
  wp (cstr_trim (Some src)) (mem_of (list_ascii_of_string "  a b ")) (λ r m',
    r = negb (bool_decide (list_ascii_of_string "  " ++ list_ascii_of_string "a b"
                           ++ list_ascii_of_string " " = []))
    ∧ holds m' src 1%positive (list_ascii_of_string "a b") 7
    ∧ frame (mem_of (list_ascii_of_string "  a b ")) m' src 1%positive).
Proof.
  apply (trim_strips_the_outer_whitespace (mem_of (list_ascii_of_string "  a b ")) src
           1%positive (list_ascii_of_string "  ") (list_ascii_of_string "a b")
           (list_ascii_of_string " ") 7).
  - concrete_holds.
  - by_computation.
  - by_computation.
  - intros c [= <-]. reflexivity.
  - intros c [= <-]. reflexivity.
Defined.

(** ** Reading *)

(** X18. [cstr_at] is bounds-checked: for an index inside the content
    it returns true and stores the byte at that index in the caller's
    cell; for any other index it returns false and leaves the cell as it
    was.  The buffer is not modified. *)
Theorem at_is_bounds_checked m o b bs cap index pc old :
  holds m o b bs cap → blocks m !! pc = Some [old] → pc ≠ b → 0 ≤ index →
  wp (cstr_at (Some o) index (Some pc)) m (λ r m',
    objects m' = objects m
    ∧ match bs !! Z.to_nat index with
      | Some c => r = true ∧ blocks m' = <[pc := [Some c]]> (blocks m)
      | None => r = false ∧ blocks m' = blocks m
      end).
Proof. apply cstr_at_spec. Qed.

Lemma at_is_bounds_checked_witness :
  wp (cstr_at (Some src) 1 (Some 3%positive))
     (mem_of2 (list_ascii_of_string "hello") []) (λ r m',
       objects m' = objects (mem_of2 (list_ascii_of_string "hello") [])
       ∧ match list_ascii_of_string "hello" !! Z.to_nat 1 with
         | Some c => r = true
                     ∧ blocks m' = <[3%positive := [Some c]]>
                                     (blocks (mem_of2 (list_ascii_of_string "hello") []))
         | None => r = false ∧ blocks m' = blocks (mem_of2 (list_ascii_of_string "hello") [])
         end)
  ∧ wp (cstr_at (Some src) 5 (Some 3%positive))
       (mem_of2 (list_ascii_of_string "hello") []) (λ r m',
         objects m' = objects (mem_of2 (list_ascii_of_string "hello") [])
         ∧ match list_ascii_of_string "hello" !! Z.to_nat 5 with
           | Some c => r = true
                       ∧ blocks m' = <[3%positive := [Some c]]>
                                       (blocks (mem_of2 (list_ascii_of_string "hello") []))
           | None => r = false ∧ blocks m' = blocks (mem_of2 (list_ascii_of_string "hello") [])
           end).
Proof.
  split.
  - apply (at_is_bounds_checked (mem_of2 (list_ascii_of_string "hello") []) src 1%positive
             (list_ascii_of_string "hello") 6 1 3%positive None).
    + concrete_holds.
    + reflexivity.
    + discriminate.
    + lia.
  - apply (at_is_bounds_checked (mem_of2 (list_ascii_of_string "hello") []) src 1%positive
             (list_ascii_of_string "hello") 6 5 3%positive None).
    + concrete_holds.
    + reflexivity.
    + discriminate.
    + lia.
Defined.

(** X19. On a well-formed buffer the unchecked readers return the
    content: [cstr_get] returns the byte at any index up to the length,
    the terminator at the length itself; [cstr_front] returns the first
    byte, and 0 for an empty buffer; [cstr_back] returns the last byte of
    a buffer that is not empty.  None of them modifies a block or a
    struct. *)
Theorem readers_return_the_content m o b bs cap :
  holds m o b bs cap →
  (∀ index c, 0 ≤ index → (bs ++ [zero]) !! Z.to_nat index = Some c →
     wp (cstr_get (Some o) index) m (λ r m',
       r = c ∧ blocks m' = blocks m ∧ objects m' = objects m))
  ∧ wp (cstr_front (Some o)) m (λ r m',
      r = default zero (head bs) ∧ blocks m' = blocks m ∧ objects m' = objects m)
  ∧ (∀ c, last bs = Some c →
       wp (cstr_back (Some o)) m (λ r m',
         r = c ∧ blocks m' = blocks m ∧ objects m' = objects m)).
Proof.
  intros Hh. split_and!.
  - intros index c Hi Hc.
    eapply wp_mono; [by apply (cstr_get_spec m o b bs cap index c)|].
    intros r m' (-> & Hbl & Hob & _). done.
  - by eapply cstr_front_spec.
  - intros c Hc. apply last_Some in Hc as [bs' ->]. by eapply cstr_back_spec.
Qed.

Lemma readers_return_the_content_witness :
  wp (cstr_get (Some src) 5) (mem_of (list_ascii_of_string "hello")) (λ r m',
    r = zero ∧ blocks m' = blocks (mem_of (list_ascii_of_string "hello"))
    ∧ objects m' = objects (mem_of (list_ascii_of_string "hello")))
  ∧ wp (cstr_front (Some src)) (mem_of (list_ascii_of_string "hello")) (λ r m',
      r = default zero (head (list_ascii_of_string "hello"))
      ∧ blocks m' = blocks (mem_of (list_ascii_of_string "hello"))
      ∧ objects m' = objects (mem_of (list_ascii_of_string "hello")))
  ∧ wp (cstr_back (Some src)) (mem_of (list_ascii_of_string "hello")) (λ r m',
      r = "o"%char ∧ blocks m' = blocks (mem_of (list_ascii_of_string "hello"))
      ∧ objects m' = objects (mem_of (list_ascii_of_string "hello"))).
Proof.
  pose proof (readers_return_the_content (mem_of (list_ascii_of_string "hello")) src
                1%positive (list_ascii_of_string "hello") 6) as H.
  destruct H as (Hget & Hfront & Hback); [concrete_holds|].
  split; [|split].
  - apply Hget; [lia|reflexivity].
  - exact Hfront.
  - apply Hback. reflexivity.
Defined.

(** ** Substring and search *)

(** X20. [cstr_substring] with a start inside the content and granted
    allocations returns true and constructs in [dest] the bytes from
    [start] up to [start + length], clamped to the end of the content and
    cut at the first zero byte among them.  The source buffer is as it
    was, the temporary copy is released: the only block that was not
    there before is the one of [dest]. *)
Theorem substring_copies_the_clamped_range m o b bs cap od s0 start count :
  holds m o b bs cap → objects m !! od = Some s0 → od ≠ o → grants 2 m →
  0 ≤ start < Z.of_nat (List.length bs) → 0 ≤ count < SIZE_MOD →
  let stop := start + Z.min count (Z.of_nat (List.length bs) - start) in
  wp (cstr_substring (Some o) (Some od) start count) m (λ r m',
    r = true
    ∧ ∃ bt, holds m' od bt (cprefix (segment bs start stop))
              (Z.of_nat (List.length (cprefix (segment bs start stop))) + 1)
            ∧ holds m' o b bs cap ∧ blocks m !! bt = None
            ∧ (∀ p blk, blocks m !! p = Some blk → blocks m' !! p = Some blk)
            ∧ (∀ p, p ≠ bt → blocks m !! p = None → blocks m' !! p = None)
            ∧ (∀ o3, o3 ≠ od → objects m' !! o3 = objects m !! o3)).
Proof. apply cstr_substring_spec. Qed.

Lemma substring_copies_the_clamped_range_witness :
  let bs := list_ascii_of_string "hello world" in
  let stop := 6 + Z.min 100 (Z.of_nat (List.length bs) - 6) in
  wp (cstr_substring (Some src) (Some tok) 6 100) (mem_of bs) (λ r m',
    r = true
    ∧ ∃ bt, holds m' tok bt (cprefix (segment bs 6 stop))
              (Z.of_nat (List.length (cprefix (segment bs 6 stop))) + 1)
            ∧ holds m' src 1%positive bs 12 ∧ blocks (mem_of bs) !! bt = None
            ∧ (∀ p blk, blocks (mem_of bs) !! p = Some blk → blocks m' !! p = Some blk)
            ∧ (∀ p, p ≠ bt → blocks (mem_of bs) !! p = None → blocks m' !! p = None)
            ∧ (∀ o3, o3 ≠ tok → objects m' !! o3 = objects (mem_of bs) !! o3)).
Proof.
  cbv zeta.
  apply (substring_copies_the_clamped_range (mem_of (list_ascii_of_string "hello world")) src
           1%positive (list_ascii_of_string "hello world") 12 tok blank 6 100).
  - concrete_holds.
  - reflexivity.
  - discriminate.
  - by_computation.
  - simpl. lia.
  - split; [lia|reflexivity].
Defined.

(** X21. [cstr_substring] returns false and changes no block and no
    struct when the start is at or beyond the length, and when the
    allocation of its temporary is denied. *)
Theorem substring_fails_without_effect m o b bs cap od start count :
  holds m o b bs cap → 0 ≤ start →
  Z.of_nat (List.length bs) ≤ start ∨ ¬ granted m →
  wp (cstr_substring (Some o) (Some od) start count) m (λ r m',
    r = false ∧ blocks m' = blocks m ∧ objects m' = objects m).
Proof.
  intros Hh Hs Hcase.
  destruct (decide (Z.of_nat (List.length bs) ≤ start)) as [Hout|Hin].
  - eapply wp_mono; [by eapply cstr_substring_out_of_range|].
    intros r m' (-> & Hbl & Hob & _). done.
  - destruct Hcase as [?|Hg]; [done|].
    eapply cstr_substring_denied; [done|done|lia].
Qed.

Lemma substring_fails_without_effect_witness :
  wp (cstr_substring (Some src) (Some tok) 5 1) (mem_of (list_ascii_of_string "hello"))
    (λ r m', r = false ∧ blocks m' = blocks (mem_of (list_ascii_of_string "hello"))
             ∧ objects m' = objects (mem_of (list_ascii_of_string "hello")))
  ∧ wp (cstr_substring (Some src) (Some tok) 1 3)
       (denying (mem_of (list_ascii_of_string "hello")))
      (λ r m', r = false ∧ blocks m' = blocks (denying (mem_of (list_ascii_of_string "hello")))
               ∧ objects m' = objects (denying (mem_of (list_ascii_of_string "hello")))).
Proof.
  split.
  - apply (substring_fails_without_effect (mem_of (list_ascii_of_string "hello")) src
             1%positive (list_ascii_of_string "hello") 6 tok 5 1).
    + concrete_holds.
    + lia.
    + left. simpl. lia.
  - apply (substring_fails_without_effect (denying (mem_of (list_ascii_of_string "hello"))) src
             1%positive (list_ascii_of_string "hello") 6 tok 1 3).
    + concrete_holds.
    + lia.
    + right. discriminate.
Defined.

(** X22. [cstr_find_chars] returns the offset of the leftmost
    occurrence of the C string in the content up to its first zero byte,
    and [invalid] when there is none; an offset it returns is never equal
    to [invalid].  Nothing is modified. *)
Theorem find_chars_returns_the_leftmost_occurrence m o b bs cap p cs :
  holds m o b bs cap → cstring_at m p cs →
  wp (cstr_find_chars (Some o) (Some p)) m (λ r m',
    blocks m' = blocks m ∧ objects m' = objects m
    ∧ ((∃ i, r = Z.of_nat i ∧ r ≠ invalid ∧ occurs_at cs (cprefix bs) i
             ∧ ∀ j, (j < i)%nat → ¬ occurs_at cs (cprefix bs) j)
       ∨ (r = invalid ∧ ∀ j, ¬ occurs_at cs (cprefix bs) j))).
Proof.
  intros Hh Hcs. pose proof Hh as (_ & Hcap & tl & _ & Hcapeq).
  eapply wp_mono; [by eapply cstr_find_chars_spec|].
  intros r m' (Hbl & Hob & Hr). split; [done|split; [done|]].
  pose proof (strstr_bytes_spec cs (cprefix bs)) as Hs.
  destruct (strstr_bytes (cprefix bs) cs) as [i|] eqn:Hi.
  - left. exists i. destruct Hs as (Hocc & _ & Hmin). subst r.
    split_and!; [done| |done|done].
    apply (found_in_range bs cs cap i Hi). lia.
  - right. done.
Qed.

Lemma find_chars_returns_the_leftmost_occurrence_witness :
  let m := mem_of2 (list_ascii_of_string "banana") (list_ascii_of_string "an") in
  wp (cstr_find_chars (Some src) (Some 2%positive)) m (λ r m',
    blocks m' = blocks m ∧ objects m' = objects m
    ∧ ((∃ i, r = Z.of_nat i ∧ r ≠ invalid
             ∧ occurs_at (list_ascii_of_string "an") (cprefix (list_ascii_of_string "banana")) i
             ∧ ∀ j, (j < i)%nat →
                 ¬ occurs_at (list_ascii_of_string "an")
                     (cprefix (list_ascii_of_string "banana")) j)
       ∨ (r = invalid
          ∧ ∀ j, ¬ occurs_at (list_ascii_of_string "an")
                     (cprefix (list_ascii_of_string "banana")) j))).
Proof.
  cbv zeta.
  apply (find_chars_returns_the_leftmost_occurrence
           (mem_of2 (list_ascii_of_string "banana") (list_ascii_of_string "an")) src
           1%positive (list_ascii_of_string "banana") 7 2%positive (list_ascii_of_string "an")).
  - concrete_holds.
  - split; [by_computation|]. exists []. reflexivity.
Defined.



(** ** Case conversion *)

(** X24. [cstr_to_upper] and [cstr_to_lower] return true and replace
    every byte of the content by its image under [toupper], respectively
    [tolower], of the "C" locale; length, capacity, storage and terminator
    stay as they are. *)
Theorem case_conversion_maps_every_byte m o b bs cap :
  holds m o b bs cap →
  wp (cstr_to_upper (Some o)) m (λ r m',
    r = true ∧ holds m' o b (toupper <$> bs) cap ∧ frame m m' o b)
  ∧ wp (cstr_to_lower (Some o)) m (λ r m',
      r = true ∧ holds m' o b (tolower <$> bs) cap ∧ frame m m' o b).
Proof.
  intros Hh. split.
  - eapply wp_mono; [by apply cstr_to_upper_spec|]. intros r m' (-> & ? & ? & _). done.
  - eapply wp_mono; [by apply cstr_to_lower_spec|]. intros r m' (-> & ? & ? & _). done.
Qed.

Lemma case_conversion_maps_every_byte_witness :
  let m := mem_of (list_ascii_of_string "Hi, z{!") in
  wp (cstr_to_upper (Some src)) m (λ r m',
    r = true ∧ holds m' src 1%positive (toupper <$> list_ascii_of_string "Hi, z{!") 8
    ∧ frame m m' src 1%positive)
  ∧ wp (cstr_to_lower (Some src)) m (λ r m',
      r = true ∧ holds m' src 1%positive (tolower <$> list_ascii_of_string "Hi, z{!") 8
      ∧ frame m m' src 1%positive).
Proof.
  cbv zeta.
  apply (case_conversion_maps_every_byte (mem_of (list_ascii_of_string "Hi, z{!")) src
           1%positive (list_ascii_of_string "Hi, z{!") 8).
  concrete_holds.
Defined.

(** X25. Converting to upper case and then to lower case gives the same
    buffer as converting to lower case at once, and converting to upper
    case twice the same as converting once. *)
Theorem case_conversions_compose m o b bs cap :
  holds m o b bs cap →
  wp (cstr_to_upper (Some o) ≫= λ _ : bool, cstr_to_lower (Some o)) m (λ r m',
    r = true ∧ holds m' o b (tolower <$> bs) cap)
  ∧ wp (cstr_to_upper (Some o) ≫= λ _ : bool, cstr_to_upper (Some o)) m (λ r m',
      r = true ∧ holds m' o b (toupper <$> bs) cap).
Proof.
  intros Hh. split.
  - eapply wp_seq; [by apply cstr_to_upper_spec|].
    intros r1 m1 (_ & Hh1 & _).
    eapply wp_mono; [by eapply cstr_to_lower_spec|].
    intros r m' (-> & Hh2 & _). split; [done|].
    rewrite <- list_fmap_compose in Hh2.
    by rewrite (map_pointwise (tolower ∘ toupper) tolower bs tolower_toupper) in Hh2.
  - eapply wp_seq; [by apply cstr_to_upper_spec|].
    intros r1 m1 (_ & Hh1 & _).
    eapply wp_mono; [by eapply cstr_to_upper_spec|].
    intros r m' (-> & Hh2 & _). split; [done|].
    rewrite <- list_fmap_compose in Hh2.
    by rewrite (map_pointwise (toupper ∘ toupper) toupper bs toupper_idemp) in Hh2.
Qed.

Lemma case_conversions_compose_witness :
  let m := mem_of (list_ascii_of_string "Hi, z{!") in
  wp (cstr_to_upper (Some src) ≫= λ _ : bool, cstr_to_lower (Some src)) m (λ r m',
    r = true ∧ holds m' src 1%positive (tolower <$> list_ascii_of_string "Hi, z{!") 8)
  ∧ wp (cstr_to_upper (Some src) ≫= λ _ : bool, cstr_to_upper (Some src)) m (λ r m',
      r = true ∧ holds m' src 1%positive (toupper <$> list_ascii_of_string "Hi, z{!") 8).
Proof.
  cbv zeta.
  apply (case_conversions_compose (mem_of (list_ascii_of_string "Hi, z{!")) src
           1%positive (list_ascii_of_string "Hi, z{!") 8).
  concrete_holds.
Defined.

(** ** Destruction *)

(** X26. [cstr_destroy] returns true, releases the storage of the
    buffer and resets the struct to a null [data] with length and
    capacity 0.  A second call on the destroyed struct returns true
    again and releases nothing. *)
Theorem destroy_releases_the_storage_once m o b bs cap :
  holds m o b bs cap →
  wp (cstr_destroy (Some o) ≫= λ first : bool,
      cstr_destroy (Some o) ≫= λ second : bool,
      mret (first, second)) m (λ r m',
    r = (true, true)
    ∧ objects m' = <[o := blank]> (objects m)
    ∧ blocks m' = delete b (blocks m)).
Proof.
  intros Hh.
  eapply wp_seq; [by eapply cstr_destroy_spec|].
  intros r1 m1 (-> & Hob1 & Hbl1 & _).
  eapply wp_seq.
  { apply (cstr_destroy_null m1 o blank); [|done]. rewrite Hob1. apply lookup_insert_eq. }
  intros r2 m2 (-> & Hob2 & Hbl2 & _). apply wp_ret.
  split_and!; [done| |congruence].
  by rewrite Hob2, Hob1, insert_insert_eq.
Qed.

Lemma destroy_releases_the_storage_once_witness :
  wp (cstr_destroy (Some src) ≫= λ first : bool,
      cstr_destroy (Some src) ≫= λ second : bool,
      mret (first, second)) (mem_of (list_ascii_of_string "hello")) (λ r m',
    r = (true, true)
    ∧ objects m' = <[src := blank]> (objects (mem_of (list_ascii_of_string "hello")))
    ∧ blocks m' = delete 1%positive (blocks (mem_of (list_ascii_of_string "hello")))).
Proof.
  apply (destroy_releases_the_storage_once (mem_of (list_ascii_of_string "hello")) src
           1%positive (list_ascii_of_string "hello") 6).
  concrete_holds.
Defined.

(** X27. Constructing a buffer from a C string and destroying it leaves
    the heap as it was, whether the allocator granted the duplicate or
    not: no block is leaked and no other block is touched. *)
Theorem create_then_destroy_restores_the_heap m o s0 p cs :
  objects m !! o = Some s0 →
  cstring_at m p cs → Z.of_nat (List.length cs) + 1 < SIZE_MOD →
  wp (cstr_create_from_chars (Some o) (Some p) ≫= λ _ : bool,
      cstr_destroy (Some o)) m (λ r m',
    r = true ∧ blocks m' = blocks m ∧ objects m' = <[o := blank]> (objects m)).
Proof.
  intros Ho Hcs Hlen.
  eapply wp_seq; [by eapply cstr_create_from_chars_spec|].
  intros r1 m1 (-> & Hpost). simpl.
  case_bool_decide as Hg.
  - destruct Hpost as (b & Hh & Hfree & Hbl1 & Hob1).
    eapply wp_mono; [by eapply cstr_destroy_spec|].
    intros r m' (-> & Hob & Hbl & _). split_and!; [done| |].
    + rewrite Hbl, Hbl1. by apply delete_insert_id.
    + by rewrite Hob, Hob1, insert_insert_eq.
  - destruct Hpost as (Hbl1 & Hob1).
    eapply wp_mono.
    { eapply cstr_destroy_null; [rewrite Hob1; apply lookup_insert_eq|done]. }
    intros r m' (-> & Hob & Hbl & _). split_and!; [done|congruence|].
    by rewrite Hob, Hob1, insert_insert_eq.
Qed.

Lemma create_then_destroy_restores_the_heap_witness :
  wp (cstr_create_from_chars (Some src) (Some 1%positive) ≫= λ _ : bool,
      cstr_destroy (Some src)) (static_mem (list_ascii_of_string "Hello")) (λ r m',
    r = true ∧ blocks m' = blocks (static_mem (list_ascii_of_string "Hello"))
    ∧ objects m' = <[src := blank]> (objects (static_mem (list_ascii_of_string "Hello")))).
Proof.
  apply (create_then_destroy_restores_the_heap (static_mem (list_ascii_of_string "Hello")) src
           blank 1%positive (list_ascii_of_string "Hello")).
  - reflexivity.
  - split; [by_computation|]. exists []. reflexivity.
  - reflexivity.
Defined.

(** ** Tokenizers *)

(** X28. Both tokenizers leave the source buffer as it was, and a call
    that returns true moves the cursor strictly forward, to a position
    not beyond the length: a loop that calls a tokenizer until it
    returns false ends.  This holds whatever the allocator decides.  A
    call returns true only when the allocator grants the temporary; the
    token it leaves is well-formed when the duplicate is granted as well,
    and has no storage when the duplicate is denied.  A call that returns
    false leaves the cursor as it was when it started at or beyond the
    length, sets it to the length when only delimiters were left, and
    otherwise the temporary was denied, the cursor is as it was and the
    token is untouched. *)
Theorem tokenizers_advance_the_cursor m o b bs cap ot s0 ds zp ec start :
  holds m o b bs cap → objects m !! ot = Some s0 → ot ≠ o →
  config_ok ds zp ec → 0 ≤ start →
  let len := Z.of_nat (List.length bs) in
  let advances := λ (r : bool * option Z) (m' : mem),
    holds m' o b bs cap
    ∧ if r.1 then
        ∃ next, r.2 = Some next ∧ start < next ≤ len ∧ granted m
          ∧ (grants 2 m → wf m' ot)
          ∧ (¬ grants 2 m → ∃ s, objects m' !! ot = Some s ∧ data s = NULL)
      else (len ≤ start ∧ r.2 = None)
           ∨ (start < len ∧ r.2 = Some len
              ∧ ∀ i c, start ≤ i < len → bs !! Z.to_nat i = Some c → is_delim ds c = true)
           ∨ (start < len ∧ ¬ granted m ∧ r.2 = None ∧ objects m' !! ot = Some s0) in
  wp (cstr_tokenize (Some o) (Some ot) (Some ds) (Some start)) m advances
  ∧ wp (cstr_tokenize_ex (Some o) (Some ot) (Some ds) zp ec (Some start)) m advances.
Proof.
  intros Hh Hot Hne Hcfg Hstart len advances. pose proof Hcfg as (Hz & _). split.
  - by apply (cstr_tokenize_cursor m o b bs cap ot s0 ds start).
  - by apply (cstr_tokenize_ex_cursor m o b bs cap ot s0 ds zp ec start).
Qed.

Lemma tokenizers_advance_the_cursor_witness :
  let bs := list_ascii_of_string "a,b" in
  let m := set_plan [true; false] (mem_of bs) in
  let advances := λ (r : bool * option Z) (m' : mem),
    holds m' src 1%positive bs 4
    ∧ if r.1 then
        ∃ next, r.2 = Some next ∧ 0 < next ≤ Z.of_nat (List.length bs) ∧ granted m
          ∧ (grants 2 m → wf m' tok)
          ∧ (¬ grants 2 m → ∃ s, objects m' !! tok = Some s ∧ data s = NULL)
      else (Z.of_nat (List.length bs) ≤ 0 ∧ r.2 = None)
           ∨ (0 < Z.of_nat (List.length bs) ∧ r.2 = Some (Z.of_nat (List.length bs))
              ∧ ∀ i c, 0 ≤ i < Z.of_nat (List.length bs) → bs !! Z.to_nat i = Some c →
                       is_delim (literal ",") c = true)
           ∨ (0 < Z.of_nat (List.length bs) ∧ ¬ granted m ∧ r.2 = None
              ∧ objects m' !! tok = Some blank) in
  wp (cstr_tokenize (Some src) (Some tok) (Some (literal ",")) (Some 0)) m advances
  ∧ wp (cstr_tokenize_ex (Some src) (Some tok) (Some (literal ",")) None None (Some 0))
       m advances.
Proof.
  cbv zeta.
  apply (tokenizers_advance_the_cursor
           (set_plan [true; false] (mem_of (list_ascii_of_string "a,b"))) src 1%positive
           (list_ascii_of_string "a,b") 4 tok blank (literal ",") None None 0).
  - concrete_holds.
  - reflexivity.
  - discriminate.
  - split; [by_computation|]. split; intros l; discriminate.
  - lia.
Defined.

(** X29. Without zone pairs and without escape characters
    [cstr_tokenize_ex] is [cstr_tokenize]: on every memory in which the
    length field of the source is a [size_t], and for all arguments, null
    pointers included, the two calls end in the same result and the same
    memory, or in the same fault. *)
Theorem tokenize_ex_without_zones_is_tokenize m obj token delimiters start_pos :
  (∀ o s, obj = Some o → objects m !! o = Some s → length s < SIZE_MOD) →
  cstr_tokenize_ex obj token delimiters None None start_pos m
  = cstr_tokenize obj token delimiters start_pos m.
Proof.
  intros Hrange.
  destruct obj as [o|], delimiters as [ds|], start_pos as [start|]; try reflexivity.
  unfold cstr_tokenize_ex, cstr_tokenize.
  assert (∀ (f : mem) a f', get_length o f = Ok a f' →
            f' = note (Read o) f ∧ ∃ s, objects f !! o = Some s ∧ a = length s) as Hget.
  { intros f a f'. unfold get_length, mbind, M_bind, deref.
    destruct (objects f !! o) as [s|]; [|done]. intros [= <- <-]. eauto. }
  apply bind_eq. intros len0 m0 (-> & _)%Hget.
  destruct (start >=? len0); [done|].
  apply bind_eq. intros [] m1 [= <-].
  apply bind_eq. intros len m2 (-> & s & Hs & ->)%Hget.
  apply bind_eq. intros d m3 _. cbv zeta.
  apply bind_eq. intros pos m4 _.
  destruct (Z.geb_spec pos (length s)) as [|Hpos]; [done|].
  rewrite (bind_match (scan_loop _ _ _ _ _ _ _ _)), (bind_match (skip_token _ _ _ _ _)).
  rewrite scan_loop_plain by done.
  destruct (skip_token _ d ds (length s) pos m4) as [p m5|e] eqn:Hskip; [|done].
  assert (p ≤ length s) as Hp.
  { eapply skip_token_le; [| |exact Hskip]; [lia|]. by eapply Hrange. }
  cbv beta iota zeta. set (s' := if p <? length s then _ else _).
  assert ((if p =? length s then length s else token_end s') = p) as ->; [|done].
  subst s'. destruct (Z.ltb_spec p (length s)).
  - rewrite (proj2 (Z.eqb_neq _ _)) by lia. done.
  - rewrite (proj2 (Z.eqb_eq _ _)) by lia. lia.
Qed.

Lemma tokenize_ex_without_zones_is_tokenize_witness :
  cstr_tokenize_ex (Some src) (Some tok) (Some (literal ",")) None None (Some 0)
    (mem_of (list_ascii_of_string "a,b"))
  = cstr_tokenize (Some src) (Some tok) (Some (literal ",")) (Some 0)
      (mem_of (list_ascii_of_string "a,b")).
Proof.
  apply (tokenize_ex_without_zones_is_tokenize (mem_of (list_ascii_of_string "a,b"))
           (Some src) (Some tok) (Some (literal ",")) (Some 0)).
  intros o s [= <-] [= <-]. reflexivity.
Defined.

(** ** Critical sections *)

(** X30. Every operation leaves each critical section held exactly as
    often as it found it: on every return path, early returns on failure
    included, each entry is matched by an exit.  This holds for all
    arguments, null pointers included, and for the constructors and the
    destructor, which enter no critical section. *)
Theorem every_operation_releases_its_locks :
  (∀ obj, releases (cstr_create obj))
  ∧ (∀ obj obj2, releases (cstr_create_from_cstr obj obj2))
  ∧ (∀ obj p, releases (cstr_create_from_chars obj p))
  ∧ (∀ obj buffer size, releases (cstr_create_from_buffer obj buffer size))
  ∧ (∀ obj, releases (cstr_destroy obj))
  ∧ (∀ obj index p, releases (cstr_at obj index p))
  ∧ (∀ obj index, releases (cstr_get obj index))
  ∧ (∀ obj, releases (cstr_front obj))
  ∧ (∀ obj, releases (cstr_back obj))
  ∧ (∀ obj, releases (cstr_data obj))
  ∧ (∀ obj, releases (cstr_length obj))
  ∧ (∀ obj, releases (cstr_capacity obj))
  ∧ (∀ obj, releases (cstr_empty obj))
  ∧ (∀ obj size, releases (cstr_resize obj size))
  ∧ (∀ obj, releases (cstr_shrink_to_fit obj))
  ∧ (∀ obj, releases (cstr_clear obj))
  ∧ (∀ obj c, releases (cstr_push_back_char obj c))
  ∧ (∀ obj, releases (cstr_pop_back obj))
  ∧ (∀ obj obj2, releases (cstr_append_cstr obj obj2))
  ∧ (∀ obj p, releases (cstr_append_chars obj p))
  ∧ (∀ obj dest start count, releases (cstr_substring obj dest start count))
  ∧ (∀ obj index size, releases (cstr_erase obj index size))
  ∧ (∀ obj index c, releases (cstr_insert obj index c))
  ∧ (∀ obj obj2, releases (cstr_swap obj obj2))
  ∧ (∀ obj obj2, releases (cstr_find_cstr obj obj2))
  ∧ (∀ obj p, releases (cstr_find_chars obj p))
  ∧ (∀ obj, releases (cstr_to_upper obj))
  ∧ (∀ obj, releases (cstr_to_lower obj))
  ∧ (∀ obj, releases (cstr_trim obj))
  ∧ (∀ obj token ds pos, releases (cstr_tokenize obj token ds pos))
  ∧ (∀ obj token ds zp ec pos, releases (cstr_tokenize_ex obj token ds zp ec pos)).
Proof.
  unfold releases. split_and!; intros.
  - apply shifts_cstr_create.
  - apply shifts_cstr_create_from_cstr.
  - apply shifts_cstr_create_from_chars.
  - apply shifts_cstr_create_from_buffer.
  - apply shifts_cstr_destroy.
  - apply shifts_cstr_at.
  - apply shifts_cstr_get.
  - apply shifts_cstr_front.
  - apply shifts_cstr_back.
  - apply shifts_cstr_data.
  - apply shifts_cstr_length.
  - apply shifts_cstr_capacity.
  - apply shifts_cstr_empty.
  - apply shifts_cstr_resize.
  - apply shifts_cstr_shrink_to_fit.
  - apply shifts_cstr_clear.
  - apply shifts_cstr_push_back_char.
  - apply shifts_cstr_pop_back.
  - apply shifts_cstr_append_cstr.
  - apply shifts_cstr_append_chars.
  - apply shifts_cstr_substring.
  - apply shifts_cstr_erase.
  - apply shifts_cstr_insert.
  - apply shifts_cstr_swap.
  - apply shifts_cstr_find_cstr.
  - apply shifts_cstr_find_chars.
  - apply shifts_cstr_to_upper.
  - apply shifts_cstr_to_lower.
  - apply shifts_cstr_trim.
  - apply shifts_cstr_tokenize.
  - apply shifts_cstr_tokenize_ex.
Qed.
